(** * CVODES: a shallow embedding of the Nordsieck multistep engine

    This development embeds the parts of [cvodes/source/cvodes.c] that the
    specification talks about and proves (or refutes) its statements.

    Conventions of the embedding.
    - [realtype] is modelled by the real numbers [R]: arithmetic is exact,
      rounding is not part of the model.  The module [Binary64] at the end
      of the definitions is the exception: there the predictor, the restore
      routine and the head of the error test work on IEEE 754 binary64
      numbers, to decide the statements that depend on rounding.
    - [int] and [long int] values are modelled by [Z]; counters are assumed
      not to overflow.
    - An [N_Vector] is the list of its components; arrays of vectors
      ([zn], [znS], ...) are lists indexed from 0.  Reading outside an array
      yields the empty vector, writing outside leaves the array unchanged
      (both are undefined behaviour in C).
    - The integrator memory [CVodeMemRec] is a record; every routine takes
      the record and returns the updated record together with its result.
    - User call-backs ([f], [fQ], [fS], [fS1]) and the linear solver
      ([lsetup], [lsolve]) are parameters of the routines that call them.
    - Diagnostic output ([fprintf]) is recorded only as a message tag
      returned next to the error code of [CVodeMalloc].  *)

From Corelib Require Import PrimFloat.
From Stdlib Require Import Reals Lra Lia ZArith.
From stdpp Require Import base list.

Open Scope R_scope.

(** ** Scalars: the macros of sundialstypes.h / sundialsmath.h *)

Definition realtype := R.

Definition ZERO : R := 0.
Definition ONE : R := 1.
Definition TWO : R := 2.
Definition HALF : R := 0.5.
Definition HUN : R := 100.

(** [#define ABS RAbs], [MAX(A,B) ((A) > (B) ? (A) : (B))],
    [MIN(A,B) ((A) < (B) ? (A) : (B))]. *)
Definition ABS (x : R) : R := Rabs x.
Definition MAX (a b : R) : R := if Rgt_dec a b then a else b.
Definition MIN (a b : R) : R := if Rlt_dec a b then a else b.

(** Comparisons of reals as decisions, for conditions joined by [&&] and
    [||]. *)
#[global] Instance Rlt_decision (x y : R) : Decision (x < y) := Rlt_dec x y.
#[global] Instance Rgt_decision (x y : R) : Decision (x > y) := Rgt_dec x y.
#[global] Instance Rle_decision (x y : R) : Decision (x <= y) := Rle_dec x y.
#[global] Instance Rge_decision (x y : R) : Decision (x >= y) := Rge_dec x y.

(** Modelled from the spec: [RSqrt] of sundialsmath.c is not among the sources;
    it is the square root, zero for non-positive arguments. *)
Definition RSqrt (x : R) : R := if Rle_dec x 0 then 0 else sqrt x.

(** Modelled from the spec: [RPowerI] of sundialsmath.c is not among the sources;
    [RPowerI base e] is [base^e] for an integer exponent (the spec writes
    [h^(-k)]), the reciprocal of the positive power when [e] is negative. *)
Definition RPowerI (base : R) (exponent : Z) : R :=
  let prod := base ^ Z.abs_nat exponent in
  if (exponent <? 0)%Z then ONE / prod else prod.

(** Modelled from the spec: [RPowerR] of sundialsmath.c is not among the sources;
    [RPowerR base e] is [base^e] for a real exponent (the spec writes
    [(BIAS2*dsm)^(1/L)]), zero for a non-positive base. *)
Definition RPowerR (base exponent : R) : R :=
  if Rle_dec base 0 then 0 else Rpower base exponent.

(** ** Constants of cvodes.c *)

Definition FUZZ_FACTOR : R := 100.
Definition HLB_FACTOR : R := 100.
Definition HUB_FACTOR : R := 0.1.
Definition H_BIAS : R := HALF.
Definition MAX_ITERS : Z := 4.
Definition CORTES : R := 0.1.

Definition HMIN_DEFAULT : R := ZERO.
Definition HMAX_INV_DEFAULT : R := ZERO.
Definition MXHNIL_DEFAULT : Z := 10.
Definition MXSTEP_DEFAULT : Z := 500.

(** Return values of the step routines. *)
Definition SUCCESS_STEP : Z := 0.
Definition REP_ERR_FAIL : Z := -1.
Definition REP_CONV_FAIL : Z := -2.
Definition SETUP_FAILED : Z := -3.
Definition SOLVE_FAILED : Z := -4.
Definition PREDICT_AGAIN : Z := -5.
Definition DO_ERROR_TEST : Z := 1.

Definition THRESH : R := 1.5.
Definition ETAMX1 : R := 10000.
Definition ETAMX2 : R := 10.
Definition ETAMX3 : R := 10.
Definition ETAMXF : R := 0.2.
Definition ETAMIN : R := 0.1.
Definition ETACF : R := 0.25.
Definition ADDON : R := 0.000001.
Definition BIAS1 : R := 6.
Definition BIAS2 : R := 6.
Definition BIAS3 : R := 10.
Definition ONEPSM : R := 1.000001.

Definition SMALL_NST : Z := 10.
Definition MXNCF : Z := 10.
Definition MXNEF : Z := 7.
Definition MXNEF1 : Z := 3.
Definition SMALL_NEF : Z := 2.
Definition LONG_WAIT : Z := 10.

(** Return values of the nonlinear solvers. *)
Definition SOLVED : Z := 0.
Definition CONV_FAIL : Z := -1.
Definition SETUP_FAIL_UNREC : Z := -2.
Definition SOLVE_FAIL_UNREC : Z := -3.

(** Values of [nflag] on entry to the nonlinear solver. *)
Definition FIRST_CALL : Z := 0.
Definition PREV_CONV_FAIL : Z := -1.
Definition PREV_ERR_FAIL : Z := -2.

Definition NLS_MAXCOR : Z := 3.
Definition CRDOWN : R := 0.3.
Definition DGMAX : R := 0.3.
Definition RDIV : R := TWO.
Definition MSBP : Z := 20.
Definition TRY_AGAIN : Z := 99.

(** Modelled from the spec: [ADAMS_Q_MAX] and [BDF_Q_MAX] are defined in
    cvodes.h, which is not among the sources; the spec gives
    [ADAMS_Q_MAX = 12], [BDF_Q_MAX = 5]. *)
Definition ADAMS_Q_MAX : Z := 12.
Definition BDF_Q_MAX : Z := 5.

(** ** Enumerations of cvodes.h

    The header is not among the sources; the integer tags are modelled as
    enumerated types, one constructor per constant the code compares with. *)

Inductive lmm_t := ADAMS | BDF.
Inductive iter_t := FUNCTIONAL | NEWTON.
Inductive itol_t := SS | SV.
Inductive errcon_t := FULL | PARTIAL.
Inductive ism_t := SIMULTANEOUS | STAGGERED | STAGGERED1.
Inductive ifS_t := ALLSENS | ONESENS.

(** Argument of [lsetup]. *)
Inductive convfail_t := NO_FAILURES | FAIL_BAD_J | FAIL_OTHER.

(** Return flags of the optional input routines ([CVodeSet*]). *)
Inductive cvs_flag := SUCCESS | CVS_NO_MEM | CVS_ILL_INPUT.

(** Return flags of [CVodeMalloc]. *)
Inductive cvm_flag := CVM_SUCCESS | CVM_NO_MEM | CVM_MEM_FAIL | CVM_ILL_INPUT.

(** Return flags of the optional output routines ([CVodeGet*]). *)
Inductive cvg_flag := OKAY | CVG_NO_MEM | CVG_NO_SENS | BAD_K | BAD_T | BAD_DKY.

(** Messages written by [CVodeMalloc] to the error file. *)
Inductive cvm_message :=
  | MSG_CVM_NO_MEM | MSG_Y0_NULL | MSG_BAD_ITOL | MSG_F_NULL | MSG_RELTOL_NULL
  | MSG_BAD_RELTOL | MSG_ABSTOL_NULL | MSG_BAD_ABSTOL | MSG_MEM_FAIL
  | MSG_BAD_EWT.

#[global] Instance lmm_eq_dec : EqDecision lmm_t.
Proof. solve_decision. Defined.
#[global] Instance iter_eq_dec : EqDecision iter_t.
Proof. solve_decision. Defined.
#[global] Instance itol_eq_dec : EqDecision itol_t.
Proof. solve_decision. Defined.
#[global] Instance errcon_eq_dec : EqDecision errcon_t.
Proof. solve_decision. Defined.
#[global] Instance ism_eq_dec : EqDecision ism_t.
Proof. solve_decision. Defined.
#[global] Instance ifS_eq_dec : EqDecision ifS_t.
Proof. solve_decision. Defined.

(** ** The vector module

    The NVECTOR implementation is not among the sources; the operations the
    integrator calls are modelled from section 4.1 of the spec. *)

Definition N_Vector := list R.

(** Modelled from the spec: [N_VConst] (nvector module, not among the sources):
    [const(c, z)] sets every component of [z] to [c]. *)
Definition N_VConst (c : R) (z : N_Vector) : N_Vector := map (fun _ => c) z.

(** Modelled from the spec: [N_VScale] (nvector module, not among the sources):
    [scale(a, x, y)] is [y := a*x]. *)
Definition N_VScale (c : R) (x : N_Vector) : N_Vector := map (fun xi => c * xi) x.

(** Modelled from the spec: [N_VLinearSum] (nvector module, not among the sources): [linear_sum(a, x, b, y, z)] is [z := a*x + b*y]. *)
Definition N_VLinearSum (a : R) (x : N_Vector) (b : R) (y : N_Vector) : N_Vector :=
  zip_with (fun xi yi => a * xi + b * yi) x y.

(** Modelled from the spec: [N_VAddConst] (nvector module, not among the sources): [add_const(x, c, z)] adds [c] to every component. *)
Definition N_VAddConst (x : N_Vector) (c : R) : N_Vector := map (fun xi => xi + c) x.

(** Modelled from the spec: [N_VDiv] (nvector module, not among the sources):
    [div(x, y, z)] is the elementwise quotient. *)
Definition N_VDiv (x y : N_Vector) : N_Vector := zip_with (fun xi yi => xi / yi) x y.

(** Modelled from the spec: [N_VAbs] (nvector module, not among the sources):
    [abs(x, z)] is the elementwise absolute value. *)
Definition N_VAbs (x : N_Vector) : N_Vector := map Rabs x.

(** Modelled from the spec: [N_VInv] (nvector module, not among the sources):
    [inv(x, z)] is the elementwise reciprocal. *)
Definition N_VInv (x : N_Vector) : N_Vector := map (fun xi => ONE / xi) x.

(** Modelled from the spec: [N_VMin] (nvector module, not among the sources):
    [min(x)] is the smallest component (of a vector with at least one
    component; the model returns 0 for the empty list). *)
Definition N_VMin (x : N_Vector) : R :=
  match x with
  | [] => 0
  | x0 :: r => fold_left Rmin r x0
  end.

(** Modelled from the spec: [N_VMaxNorm] (nvector module, not among the sources):
    [max_norm(x)] is the largest absolute value of a component. *)
Definition N_VMaxNorm (x : N_Vector) : R :=
  fold_left (fun m xi => Rmax m (Rabs xi)) x 0.

(** Modelled from the spec: [N_VWrmsNorm] (nvector module, not among the sources): [wrms_norm(x, w) = sqrt(mean((x*w)^2))]. *)
Definition N_VWrmsNorm (x w : N_Vector) : R :=
  sqrt (fold_right Rplus 0 (zip_with (fun xi wi => (xi * wi) * (xi * wi)) x w)
        / INR (length x)).

(** Array access [a[j]] for an [int] index. *)
Definition vec_at (a : list N_Vector) (j : Z) : N_Vector := nth (Z.to_nat j) a [].
Definition real_at (a : list R) (j : Z) : R := nth (Z.to_nat j) a 0.

(** ** The integrator memory [CVodeMemRec] *)

(** [void *abstol]: a scalar in SS mode, a vector in SV mode. *)
Inductive abstol_t := AtolS (a : R) | AtolV (v : N_Vector).

(** [void *abstolS]: an array of scalars or an array of vectors. *)
Inductive abstolS_t := AtolSS (a : list R) | AtolSV (v : list N_Vector).

(** The casts of [abstol] to a pointer to [realtype] and to [N_Vector]; a cast that
    does not match the stored value is undefined in C and yields a default
    here. *)
Definition atol_scalar (a : abstol_t) : R :=
  match a with AtolS x => x | AtolV _ => 0 end.
Definition atol_vector (a : abstol_t) : N_Vector :=
  match a with AtolV v => v | AtolS _ => [] end.
Definition atolS_scalars (a : abstolS_t) : list R :=
  match a with AtolSS x => x | AtolSV _ => [] end.
Definition atolS_vectors (a : abstolS_t) : list N_Vector :=
  match a with AtolSV v => v | AtolSS _ => [] end.

(** Addresses of [int] cells owned by the caller or by the integrator
    ([int *]); [None] is the NULL pointer. *)
Definition int_ptr := option nat.
Definition int_heap := nat -> Z.

Record CVodeMemRec := mkCVodeMem {
  (* problem specification *)
  cv_lmm : lmm_t;
  cv_iter : iter_t;
  cv_itol : itol_t;
  cv_reltol : R;
  cv_abstol : abstol_t;
  cv_uround : R;
  (* optional inputs *)
  cv_qmax : Z;
  cv_mxstep : Z;
  cv_mxhnil : Z;
  cv_sldeton : bool;
  cv_hin : R;
  cv_hmin : R;
  cv_hmax_inv : R;
  cv_tstopset : bool;
  cv_maxcor : Z;
  cv_maxnef : Z;
  cv_maxncf : Z;
  cv_nlscoef : R;
  (* quadrature data *)
  cv_quad : bool;
  cv_errconQ : errcon_t;
  cv_abstolQ : abstol_t;
  cv_znQ : list N_Vector;
  cv_ewtQ : N_Vector;
  cv_yQ : N_Vector;
  cv_acorQ : N_Vector;
  cv_tempvQ : N_Vector;
  cv_nfQe : Z;
  (* sensitivity data *)
  cv_sensi : bool;
  cv_Ns : Z;
  cv_ism : ism_t;
  cv_ifS : ifS_t;
  cv_errcon : errcon_t;
  cv_rhomax : R;
  cv_pbar : option (list R);
  cv_reltolS : option R;
  cv_abstolS : option abstolS_t;
  cv_maxcorS : Z;
  cv_znS : list (list N_Vector);
  cv_ewtS : list N_Vector;
  cv_yS : list N_Vector;
  cv_acorS : list N_Vector;
  cv_tempvS : list N_Vector;
  cv_ftempS : list N_Vector;
  cv_crateS : R;
  cv_nfSe : Z;
  cv_nniS : Z;
  cv_nniS1 : int_ptr;
  cv_ncfnS1 : int_ptr;
  (* vectors *)
  cv_zn : list N_Vector;
  cv_ewt : N_Vector;
  cv_y : N_Vector;
  cv_acor : N_Vector;
  cv_tempv : N_Vector;
  cv_ftemp : N_Vector;
  (* step data *)
  cv_q : Z;
  cv_qprime : Z;
  cv_qwait : Z;
  cv_L : Z;
  cv_h : R;
  cv_hprime : R;
  cv_eta : R;
  cv_etaqm1 : R;
  cv_hscale : R;
  cv_tn : R;
  cv_tq : list R;
  cv_l : list R;
  cv_tau : list R;
  cv_rl1 : R;
  cv_gamma : R;
  cv_gammap : R;
  cv_gamrat : R;
  cv_crate : R;
  cv_acnrm : R;
  cv_mnewt : Z;
  cv_etamax : R;
  (* counters *)
  cv_nst : Z;
  cv_nfe : Z;
  cv_ncfn : Z;
  cv_netf : Z;
  cv_nni : Z;
  cv_nsetups : Z;
  cv_nhnil : Z;
  cv_nstlp : Z;
  cv_nscon : Z;
  cv_nor : Z;
  cv_ssdat : list (list R);
  (* saved values and linear solver data *)
  cv_qu : Z;
  cv_hu : R;
  cv_tolsf : R;
  cv_setupNonNull : bool;
  cv_forceSetup : bool;
  cv_jcur : bool;
  cv_MallocDone : bool;
  cv_quadMallocDone : bool;
  cv_sensMallocDone : bool
}.

Definition CVodeMem := CVodeMemRec.

(** Assignment to one member, [cv_mem->field = v], written
    [s <| field := v |>]. *)
Class Setter {S E : Type} (proj : S -> E) := setter : E -> S -> S.
Arguments setter {S E} proj {Setter} _ _.

Notation "s <| p := v |>" := (setter p v s)
  (at level 1, left associativity, p at level 9, v at level 200,
   format "s  <| p  :=  v |>").

Definition CVodeMem_eta (s : CVodeMem) : CVodeMem :=
  mkCVodeMem (cv_lmm s) (cv_iter s) (cv_itol s) (cv_reltol s) (cv_abstol s)
    (cv_uround s) (cv_qmax s) (cv_mxstep s) (cv_mxhnil s) (cv_sldeton s)
    (cv_hin s) (cv_hmin s) (cv_hmax_inv s) (cv_tstopset s) (cv_maxcor s)
    (cv_maxnef s) (cv_maxncf s) (cv_nlscoef s) (cv_quad s) (cv_errconQ s)
    (cv_abstolQ s) (cv_znQ s) (cv_ewtQ s) (cv_yQ s) (cv_acorQ s)
    (cv_tempvQ s) (cv_nfQe s) (cv_sensi s) (cv_Ns s) (cv_ism s) (cv_ifS s)
    (cv_errcon s) (cv_rhomax s) (cv_pbar s) (cv_reltolS s) (cv_abstolS s)
    (cv_maxcorS s) (cv_znS s) (cv_ewtS s) (cv_yS s) (cv_acorS s)
    (cv_tempvS s) (cv_ftempS s) (cv_crateS s) (cv_nfSe s) (cv_nniS s) (cv_nniS1 s)
    (cv_ncfnS1 s) (cv_zn s) (cv_ewt s) (cv_y s) (cv_acor s) (cv_tempv s)
    (cv_ftemp s) (cv_q s) (cv_qprime s) (cv_qwait s) (cv_L s) (cv_h s)
    (cv_hprime s) (cv_eta s) (cv_etaqm1 s) (cv_hscale s) (cv_tn s) (cv_tq s)
    (cv_l s) (cv_tau s) (cv_rl1 s) (cv_gamma s) (cv_gammap s) (cv_gamrat s)
    (cv_crate s) (cv_acnrm s) (cv_mnewt s) (cv_etamax s) (cv_nst s)
    (cv_nfe s) (cv_ncfn s) (cv_netf s) (cv_nni s) (cv_nsetups s)
    (cv_nhnil s) (cv_nstlp s) (cv_nscon s) (cv_nor s) (cv_ssdat s)
    (cv_qu s) (cv_hu s) (cv_tolsf s) (cv_setupNonNull s) (cv_forceSetup s)
    (cv_jcur s) (cv_MallocDone s) (cv_quadMallocDone s)
    (cv_sensMallocDone s).

Ltac member_setter proj :=
  let body := eval cbv delta [CVodeMem_eta] in CVodeMem_eta in
  lazymatch eval pattern proj in body with
  | ?F _ =>
      let t := eval cbv beta in (fun v s => F (fun _ => v) s) in
      exact t
  end.

#[global] Instance set_cv_lmm : Setter cv_lmm := ltac:(member_setter cv_lmm).
#[global] Instance set_cv_iter : Setter cv_iter := ltac:(member_setter cv_iter).
#[global] Instance set_cv_itol : Setter cv_itol := ltac:(member_setter cv_itol).
#[global] Instance set_cv_reltol : Setter cv_reltol := ltac:(member_setter cv_reltol).
#[global] Instance set_cv_abstol : Setter cv_abstol := ltac:(member_setter cv_abstol).
#[global] Instance set_cv_uround : Setter cv_uround := ltac:(member_setter cv_uround).
#[global] Instance set_cv_qmax : Setter cv_qmax := ltac:(member_setter cv_qmax).
#[global] Instance set_cv_mxstep : Setter cv_mxstep := ltac:(member_setter cv_mxstep).
#[global] Instance set_cv_mxhnil : Setter cv_mxhnil := ltac:(member_setter cv_mxhnil).
#[global] Instance set_cv_sldeton : Setter cv_sldeton := ltac:(member_setter cv_sldeton).
#[global] Instance set_cv_hin : Setter cv_hin := ltac:(member_setter cv_hin).
#[global] Instance set_cv_hmin : Setter cv_hmin := ltac:(member_setter cv_hmin).
#[global] Instance set_cv_hmax_inv : Setter cv_hmax_inv := ltac:(member_setter cv_hmax_inv).
#[global] Instance set_cv_tstopset : Setter cv_tstopset := ltac:(member_setter cv_tstopset).
#[global] Instance set_cv_maxcor : Setter cv_maxcor := ltac:(member_setter cv_maxcor).
#[global] Instance set_cv_maxnef : Setter cv_maxnef := ltac:(member_setter cv_maxnef).
#[global] Instance set_cv_maxncf : Setter cv_maxncf := ltac:(member_setter cv_maxncf).
#[global] Instance set_cv_nlscoef : Setter cv_nlscoef := ltac:(member_setter cv_nlscoef).
#[global] Instance set_cv_quad : Setter cv_quad := ltac:(member_setter cv_quad).
#[global] Instance set_cv_errconQ : Setter cv_errconQ := ltac:(member_setter cv_errconQ).
#[global] Instance set_cv_znQ : Setter cv_znQ := ltac:(member_setter cv_znQ).
#[global] Instance set_cv_ewtQ : Setter cv_ewtQ := ltac:(member_setter cv_ewtQ).
#[global] Instance set_cv_yQ : Setter cv_yQ := ltac:(member_setter cv_yQ).
#[global] Instance set_cv_acorQ : Setter cv_acorQ := ltac:(member_setter cv_acorQ).
#[global] Instance set_cv_tempvQ : Setter cv_tempvQ := ltac:(member_setter cv_tempvQ).
#[global] Instance set_cv_nfQe : Setter cv_nfQe := ltac:(member_setter cv_nfQe).
#[global] Instance set_cv_sensi : Setter cv_sensi := ltac:(member_setter cv_sensi).
#[global] Instance set_cv_ifS : Setter cv_ifS := ltac:(member_setter cv_ifS).
#[global] Instance set_cv_errcon : Setter cv_errcon := ltac:(member_setter cv_errcon).
#[global] Instance set_cv_rhomax : Setter cv_rhomax := ltac:(member_setter cv_rhomax).
#[global] Instance set_cv_pbar : Setter cv_pbar := ltac:(member_setter cv_pbar).
#[global] Instance set_cv_reltolS : Setter cv_reltolS := ltac:(member_setter cv_reltolS).
#[global] Instance set_cv_abstolS : Setter cv_abstolS := ltac:(member_setter cv_abstolS).
#[global] Instance set_cv_maxcorS : Setter cv_maxcorS := ltac:(member_setter cv_maxcorS).
#[global] Instance set_cv_znS : Setter cv_znS := ltac:(member_setter cv_znS).
#[global] Instance set_cv_ewtS : Setter cv_ewtS := ltac:(member_setter cv_ewtS).
#[global] Instance set_cv_yS : Setter cv_yS := ltac:(member_setter cv_yS).
#[global] Instance set_cv_acorS : Setter cv_acorS := ltac:(member_setter cv_acorS).
#[global] Instance set_cv_tempvS : Setter cv_tempvS := ltac:(member_setter cv_tempvS).
#[global] Instance set_cv_ftempS : Setter cv_ftempS := ltac:(member_setter cv_ftempS).
#[global] Instance set_cv_crateS : Setter cv_crateS := ltac:(member_setter cv_crateS).
#[global] Instance set_cv_nfSe : Setter cv_nfSe := ltac:(member_setter cv_nfSe).
#[global] Instance set_cv_nniS : Setter cv_nniS := ltac:(member_setter cv_nniS).
#[global] Instance set_cv_zn : Setter cv_zn := ltac:(member_setter cv_zn).
#[global] Instance set_cv_ewt : Setter cv_ewt := ltac:(member_setter cv_ewt).
#[global] Instance set_cv_y : Setter cv_y := ltac:(member_setter cv_y).
#[global] Instance set_cv_acor : Setter cv_acor := ltac:(member_setter cv_acor).
#[global] Instance set_cv_tempv : Setter cv_tempv := ltac:(member_setter cv_tempv).
#[global] Instance set_cv_ftemp : Setter cv_ftemp := ltac:(member_setter cv_ftemp).
#[global] Instance set_cv_q : Setter cv_q := ltac:(member_setter cv_q).
#[global] Instance set_cv_qprime : Setter cv_qprime := ltac:(member_setter cv_qprime).
#[global] Instance set_cv_qwait : Setter cv_qwait := ltac:(member_setter cv_qwait).
#[global] Instance set_cv_L : Setter cv_L := ltac:(member_setter cv_L).
#[global] Instance set_cv_h : Setter cv_h := ltac:(member_setter cv_h).
#[global] Instance set_cv_hprime : Setter cv_hprime := ltac:(member_setter cv_hprime).
#[global] Instance set_cv_eta : Setter cv_eta := ltac:(member_setter cv_eta).
#[global] Instance set_cv_hscale : Setter cv_hscale := ltac:(member_setter cv_hscale).
#[global] Instance set_cv_tn : Setter cv_tn := ltac:(member_setter cv_tn).
#[global] Instance set_cv_gammap : Setter cv_gammap := ltac:(member_setter cv_gammap).
#[global] Instance set_cv_gamrat : Setter cv_gamrat := ltac:(member_setter cv_gamrat).
#[global] Instance set_cv_crate : Setter cv_crate := ltac:(member_setter cv_crate).
#[global] Instance set_cv_acnrm : Setter cv_acnrm := ltac:(member_setter cv_acnrm).
#[global] Instance set_cv_mnewt : Setter cv_mnewt := ltac:(member_setter cv_mnewt).
#[global] Instance set_cv_etamax : Setter cv_etamax := ltac:(member_setter cv_etamax).
#[global] Instance set_cv_nst : Setter cv_nst := ltac:(member_setter cv_nst).
#[global] Instance set_cv_nfe : Setter cv_nfe := ltac:(member_setter cv_nfe).
#[global] Instance set_cv_ncfn : Setter cv_ncfn := ltac:(member_setter cv_ncfn).
#[global] Instance set_cv_netf : Setter cv_netf := ltac:(member_setter cv_netf).
#[global] Instance set_cv_nni : Setter cv_nni := ltac:(member_setter cv_nni).
#[global] Instance set_cv_nsetups : Setter cv_nsetups := ltac:(member_setter cv_nsetups).
#[global] Instance set_cv_nhnil : Setter cv_nhnil := ltac:(member_setter cv_nhnil).
#[global] Instance set_cv_nstlp : Setter cv_nstlp := ltac:(member_setter cv_nstlp).
#[global] Instance set_cv_nscon : Setter cv_nscon := ltac:(member_setter cv_nscon).
#[global] Instance set_cv_nor : Setter cv_nor := ltac:(member_setter cv_nor).
#[global] Instance set_cv_ssdat : Setter cv_ssdat := ltac:(member_setter cv_ssdat).
#[global] Instance set_cv_qu : Setter cv_qu := ltac:(member_setter cv_qu).
#[global] Instance set_cv_hu : Setter cv_hu := ltac:(member_setter cv_hu).
#[global] Instance set_cv_tolsf : Setter cv_tolsf := ltac:(member_setter cv_tolsf).
#[global] Instance set_cv_forceSetup : Setter cv_forceSetup := ltac:(member_setter cv_forceSetup).
#[global] Instance set_cv_jcur : Setter cv_jcur := ltac:(member_setter cv_jcur).
#[global] Instance set_cv_MallocDone : Setter cv_MallocDone := ltac:(member_setter cv_MallocDone).
#[global] Instance set_cv_quadMallocDone : Setter cv_quadMallocDone := ltac:(member_setter cv_quadMallocDone).
#[global] Instance set_cv_sensMallocDone : Setter cv_sensMallocDone := ltac:(member_setter cv_sensMallocDone).

#[global] Instance set_cv_abstolQ : Setter cv_abstolQ := ltac:(member_setter cv_abstolQ).
#[global] Instance set_cv_Ns : Setter cv_Ns := ltac:(member_setter cv_Ns).
#[global] Instance set_cv_ism : Setter cv_ism := ltac:(member_setter cv_ism).
#[global] Instance set_cv_nniS1 : Setter cv_nniS1 := ltac:(member_setter cv_nniS1).
#[global] Instance set_cv_ncfnS1 : Setter cv_ncfnS1 := ltac:(member_setter cv_ncfnS1).
#[global] Instance set_cv_etaqm1 : Setter cv_etaqm1 := ltac:(member_setter cv_etaqm1).
#[global] Instance set_cv_tq : Setter cv_tq := ltac:(member_setter cv_tq).
#[global] Instance set_cv_l : Setter cv_l := ltac:(member_setter cv_l).
#[global] Instance set_cv_tau : Setter cv_tau := ltac:(member_setter cv_tau).
#[global] Instance set_cv_rl1 : Setter cv_rl1 := ltac:(member_setter cv_rl1).
#[global] Instance set_cv_gamma : Setter cv_gamma := ltac:(member_setter cv_gamma).
#[global] Instance set_cv_setupNonNull : Setter cv_setupNonNull := ltac:(member_setter cv_setupNonNull).

(** The loops [for (k = a; k <= b; k++)] and [for (j = b; j >= a; j--)] over
    an [int] index: [n] is the number of iterations left. *)
Fixpoint for_up {S : Type} (n : nat) (k : Z) (body : Z -> S -> S) (s : S) : S :=
  match n with
  | O => s
  | S n' => for_up n' (k + 1)%Z body (body k s)
  end.

Fixpoint for_down {S : Type} (n : nat) (j : Z) (body : Z -> S -> S) (s : S) : S :=
  match n with
  | O => s
  | S n' => for_down n' (j - 1)%Z body (body j s)
  end.

Definition for_upto {S : Type} (a b : Z) (body : Z -> S -> S) (s : S) : S :=
  for_up (Z.to_nat (b - a + 1)) a body s.

Definition for_downto {S : Type} (b a : Z) (body : Z -> S -> S) (s : S) : S :=
  for_down (Z.to_nat (b - a + 1)) b body s.

(** A memory block filled with zeros, used to build concrete integrators. *)
Definition CVodeMem_zero : CVodeMemRec :=
  mkCVodeMem ADAMS FUNCTIONAL SS 0 (AtolS 0) 0 0%Z 0%Z 0%Z false 0 0 0 false
    0%Z 0%Z 0%Z 0 false FULL (AtolS 0) [] [] [] [] [] 0%Z false 0%Z
    SIMULTANEOUS ALLSENS FULL 0 None None None 0%Z [] [] [] [] [] [] 0 0%Z
    0%Z None None [] [] [] [] [] [] 0%Z 0%Z 0%Z 0%Z 0 0 0 0 0 0 [] [] [] 0 0
    0 0 0 0 0%Z 0 0%Z 0%Z 0%Z 0%Z 0%Z 0%Z 0%Z 0%Z 0%Z 0%Z [] 0%Z 0 0 false
    false false false false false.

(** ** Creation and optional inputs *)

(** [CVodeCreate]: [lmm] and [iter] are [None] when the integer passed is
    none of the legal constants, [block] is the result of [malloc]
    ([None] for NULL), [UnitRoundoff] the value returned by the routine of
    that name. *)
Definition CVodeCreate (UnitRoundoff : R) (lmm : option lmm_t)
    (iter : option iter_t) (block : option CVodeMemRec) : option CVodeMem :=
  match lmm with
  | None => None
  | Some lmm =>
  match iter with
  | None => None
  | Some iter =>
  match block with
  | None => None
  | Some cv_mem =>
    let maxord := if decide (lmm = ADAMS) then ADAMS_Q_MAX else BDF_Q_MAX in
    Some (cv_mem
      <| cv_lmm := lmm |> <| cv_iter := iter |>
      <| cv_uround := UnitRoundoff |>
      <| cv_qmax := maxord |>
      <| cv_mxstep := MXSTEP_DEFAULT |>
      <| cv_mxhnil := MXHNIL_DEFAULT |>
      <| cv_sldeton := false |>
      <| cv_hin := ZERO |>
      <| cv_hmin := HMIN_DEFAULT |>
      <| cv_hmax_inv := HMAX_INV_DEFAULT |>
      <| cv_tstopset := false |>
      <| cv_maxcor := NLS_MAXCOR |>
      <| cv_maxnef := MXNEF |>
      <| cv_maxncf := MXNCF |>
      <| cv_nlscoef := CORTES |>
      <| cv_errconQ := FULL |>
      <| cv_ifS := ONESENS |>
      <| cv_errcon := FULL |>
      <| cv_rhomax := ZERO |>
      <| cv_pbar := None |>
      <| cv_reltolS := None |>
      <| cv_abstolS := None |>
      <| cv_maxcorS := NLS_MAXCOR |>
      <| cv_MallocDone := false |>
      <| cv_quadMallocDone := false |>
      <| cv_sensMallocDone := false |>)
  end end end.

(** [CVodeSetMaxOrd]: returns the flag and the memory after the call. *)
Definition CVodeSetMaxOrd (cvode_mem : option CVodeMem) (maxord : Z)
    : cvs_flag * option CVodeMem :=
  match cvode_mem with
  | None => (CVS_NO_MEM, None)
  | Some cv_mem =>
    if (maxord <=? 0)%Z then (CVS_ILL_INPUT, Some cv_mem)
    else if (maxord >? cv_qmax cv_mem)%Z then (CVS_ILL_INPUT, Some cv_mem)
    else (SUCCESS, Some (cv_mem <| cv_qmax := maxord |>))
  end.

(** The other optional inputs of the nonlinear solver and the error test. *)
Definition CVodeSetMaxErrTestFails (cvode_mem : option CVodeMem) (maxnef : Z)
    : cvs_flag * option CVodeMem :=
  match cvode_mem with
  | None => (CVS_NO_MEM, None)
  | Some cv_mem => (SUCCESS, Some (cv_mem <| cv_maxnef := maxnef |>))
  end.

Definition CVodeSetMaxNonlinIters (cvode_mem : option CVodeMem) (maxcor : Z)
    : cvs_flag * option CVodeMem :=
  match cvode_mem with
  | None => (CVS_NO_MEM, None)
  | Some cv_mem => (SUCCESS, Some (cv_mem <| cv_maxcor := maxcor |>))
  end.

(** A sequence of calls of [CVodeSetMaxOrd] on one handle. *)
Fixpoint CVodeSetMaxOrd_calls (ords : list Z) (cv_mem : CVodeMem) : CVodeMem :=
  match ords with
  | [] => cv_mem
  | maxord :: rest =>
    match snd (CVodeSetMaxOrd (Some cv_mem) maxord) with
    | Some cv_mem' => CVodeSetMaxOrd_calls rest cv_mem'
    | None => cv_mem
    end
  end.

(** ** Optional outputs of the staggered sensitivity solver *)

(** Writing through an [int *]; a NULL pointer cannot be written. *)
Definition store_int (p : int_ptr) (v : Z) (mem : int_heap) : int_heap :=
  match p with
  | Some a => fun b => if decide (b = a) then v else mem b
  | None => mem
  end.

(** [CVodeGetNumSensNonlinSolvIters]: [*nSniters = nniS]. *)
Definition CVodeGetNumSensNonlinSolvIters (cvode_mem : option CVodeMem)
    (nSniters : int_ptr) (mem : int_heap) : cvg_flag * int_heap :=
  match cvode_mem with
  | None => (CVG_NO_MEM, mem)
  | Some cv_mem =>
    if negb (cv_sensi cv_mem) then (CVG_NO_SENS, mem)
    else (OKAY, store_int nSniters (cv_nniS cv_mem) mem)
  end.

(** [CVodeGetNumStgrSensNonlinSolvIters]: the result is the flag, the
    final value of the parameter [nSTGR1niters] (a local variable of the
    routine) and the memory of [int] cells after the call. *)
Definition CVodeGetNumStgrSensNonlinSolvIters (cvode_mem : option CVodeMem)
    (nSTGR1niters : int_ptr) (mem : int_heap)
    : cvg_flag * int_ptr * int_heap :=
  match cvode_mem with
  | None => (CVG_NO_MEM, nSTGR1niters, mem)
  | Some cv_mem =>
    if negb (cv_sensi cv_mem) then (CVG_NO_SENS, nSTGR1niters, mem)
    else
      let nSTGR1niters :=
        if decide (cv_ism cv_mem = STAGGERED1) then cv_nniS1 cv_mem
        else None in
      (OKAY, nSTGR1niters, mem)
  end.

Definition CVodeGetNumStgrSensNonlinSolvConvFails (cvode_mem : option CVodeMem)
    (nSTGR1ncfails : int_ptr) (mem : int_heap)
    : cvg_flag * int_ptr * int_heap :=
  match cvode_mem with
  | None => (CVG_NO_MEM, nSTGR1ncfails, mem)
  | Some cv_mem =>
    if negb (cv_sensi cv_mem) then (CVG_NO_SENS, nSTGR1ncfails, mem)
    else
      let nSTGR1ncfails :=
        if decide (cv_ism cv_mem = STAGGERED1) then cv_ncfnS1 cv_mem
        else None in
      (OKAY, nSTGR1ncfails, mem)
  end.

(** ** The Nordsieck history: prediction, restoration, rescaling *)

(** [znS[j][is]] and the assignment [znS[j][is] = v]. *)
Definition sens_at (a : list (list N_Vector)) (j is_ : Z) : N_Vector :=
  vec_at (nth (Z.to_nat j) a []) is_.

Definition sens_set (a : list (list N_Vector)) (j is_ : Z) (v : N_Vector)
    : list (list N_Vector) :=
  <[Z.to_nat j := <[Z.to_nat is_ := v]> (nth (Z.to_nat j) a [])]> a.

(** [zn[j] = v] for an [int] index. *)
Definition vec_set (a : list N_Vector) (j : Z) (v : N_Vector) : list N_Vector :=
  <[Z.to_nat j := v]> a.

(** [CVPredict]: [tn += h], then the Pascal-triangle additions on [zn],
    on [znQ] when quadratures are active and on every [znS[.][is]] when
    sensitivities are active. *)
Definition CVPredict (cv_mem : CVodeMem) : CVodeMem :=
  let q := cv_q cv_mem in
  let cv_mem := cv_mem <| cv_tn := cv_tn cv_mem + cv_h cv_mem |> in
  let cv_mem :=
    for_upto 1 q (fun k =>
      for_downto q k (fun j s =>
        s <| cv_zn := vec_set (cv_zn s) (j - 1)
               (N_VLinearSum ONE (vec_at (cv_zn s) (j - 1))
                             ONE (vec_at (cv_zn s) j)) |>)) cv_mem in
  let cv_mem :=
    if cv_quad cv_mem then
      for_upto 1 q (fun k =>
        for_downto q k (fun j s =>
          s <| cv_znQ := vec_set (cv_znQ s) (j - 1)
                 (N_VLinearSum ONE (vec_at (cv_znQ s) (j - 1))
                               ONE (vec_at (cv_znQ s) j)) |>)) cv_mem
    else cv_mem in
  if cv_sensi cv_mem then
    for_upto 0 (cv_Ns cv_mem - 1) (fun is_ =>
      for_upto 1 q (fun k =>
        for_downto q k (fun j s =>
          s <| cv_znS := sens_set (cv_znS s) (j - 1) is_
                 (N_VLinearSum ONE (sens_at (cv_znS s) (j - 1) is_)
                               ONE (sens_at (cv_znS s) j is_)) |>))) cv_mem
  else cv_mem.

(** [CVRestore]: [tn = saved_t], then the same loops with subtraction. *)
Definition CVRestore (cv_mem : CVodeMem) (saved_t : R) : CVodeMem :=
  let q := cv_q cv_mem in
  let cv_mem := cv_mem <| cv_tn := saved_t |> in
  let cv_mem :=
    for_upto 1 q (fun k =>
      for_downto q k (fun j s =>
        s <| cv_zn := vec_set (cv_zn s) (j - 1)
               (N_VLinearSum ONE (vec_at (cv_zn s) (j - 1))
                             (- ONE) (vec_at (cv_zn s) j)) |>)) cv_mem in
  let cv_mem :=
    if cv_quad cv_mem then
      for_upto 1 q (fun k =>
        for_downto q k (fun j s =>
          s <| cv_znQ := vec_set (cv_znQ s) (j - 1)
                 (N_VLinearSum ONE (vec_at (cv_znQ s) (j - 1))
                               (- ONE) (vec_at (cv_znQ s) j)) |>)) cv_mem
    else cv_mem in
  if cv_sensi cv_mem then
    for_upto 0 (cv_Ns cv_mem - 1) (fun is_ =>
      for_upto 1 q (fun k =>
        for_downto q k (fun j s =>
          s <| cv_znS := sens_set (cv_znS s) (j - 1) is_
                 (N_VLinearSum ONE (sens_at (cv_znS s) (j - 1) is_)
                               (- ONE) (sens_at (cv_znS s) j is_)) |>))) cv_mem
  else cv_mem.

(** [CVRescale]: column [j] is multiplied by [eta^j], [j = 1..q]; then
    [h = hscale * eta], [hscale = h], [nscon = 0].  The loop carries the
    local variable [factor]. *)
Definition CVRescale (cv_mem : CVodeMem) : CVodeMem :=
  let factor := cv_eta cv_mem in
  let '(factor, cv_mem) :=
    for_upto 1 (cv_q cv_mem) (fun j fs =>
      let '(factor, s) := fs in
      let s := s <| cv_zn := vec_set (cv_zn s) j
                       (N_VScale factor (vec_at (cv_zn s) j)) |> in
      let s :=
        if cv_quad s then
          s <| cv_znQ := vec_set (cv_znQ s) j
                  (N_VScale factor (vec_at (cv_znQ s) j)) |>
        else s in
      let s :=
        if cv_sensi s then
          for_upto 0 (cv_Ns s - 1) (fun is_ s =>
            s <| cv_znS := sens_set (cv_znS s) j is_
                    (N_VScale factor (sens_at (cv_znS s) j is_)) |>) s
        else s in
      (factor * cv_eta s, s)) (factor, cv_mem) in
  let cv_mem := cv_mem <| cv_h := cv_hscale cv_mem * cv_eta cv_mem |> in
  let cv_mem := cv_mem <| cv_hscale := cv_h cv_mem |> in
  cv_mem <| cv_nscon := 0%Z |>.

(** The loop nest shared by [CVPredict] and [CVRestore], on an array whose
    elements are combined by [op]:
    [for (k = 1; k <= q; k++) for (j = q; j >= k; j--) a[j-1] = op a[j-1] a[j]]. *)
Section NordsieckArray.
Context {V : Type} (d : V) (op : V -> V -> V).

Definition nord_step (j : Z) (z : list V) : list V :=
  <[Z.to_nat (j - 1) :=
      op (nth (Z.to_nat (j - 1)) z d) (nth (Z.to_nat j) z d)]> z.

Definition nord_loops (q : Z) (z : list V) : list V :=
  for_upto 1 q (fun k => for_downto q k nord_step) z.
End NordsieckArray.

(** The update [znS[j-1][is] = op znS[j-1][is] znS[j][is]] seen as an
    operation on the rows [znS[j-1]] and [znS[j]]. *)
Definition sens_op (op : N_Vector -> N_Vector -> N_Vector) (is_ : Z)
    (rowa rowb : list N_Vector) : list N_Vector :=
  <[Z.to_nat is_ := op (vec_at rowa is_) (vec_at rowb is_)]> rowa.

(** The additions of the predictor and the subtractions that undo them. *)
Definition vadd (x y : N_Vector) : N_Vector := N_VLinearSum ONE x ONE y.
Definition vsub (x y : N_Vector) : N_Vector := N_VLinearSum ONE x (- ONE) y.

(** The loop nest on [znS]: one nest per sensitivity index. *)
Definition sens_loops (op : N_Vector -> N_Vector -> N_Vector) (Ns q : Z)
    (z : list (list N_Vector)) : list (list N_Vector) :=
  for_upto 0 (Ns - 1) (fun is_ => nord_loops [] (sens_op op is_) q) z.

(** The vectors of the history have the shape they are allocated with:
    [zn[0..qmax]] of length [N], [znQ[0..qmax]] of length [NQ] when
    quadratures are active, [znS[0..qmax][0..Ns-1]] of length [N] when
    sensitivities are active. *)
Definition sens_row_ok (N : nat) (Ns : Z) (row : list N_Vector) : Prop :=
  length row = Z.to_nat Ns /\ Forall (fun v => length v = N) row.

Definition history_allocated (N NQ : nat) (cv_mem : CVodeMem) : Prop :=
  (length (cv_zn cv_mem) = Z.to_nat (cv_qmax cv_mem + 1)
   /\ Forall (fun v => length v = N) (cv_zn cv_mem))
  /\ (cv_quad cv_mem = true ->
      length (cv_znQ cv_mem) = Z.to_nat (cv_qmax cv_mem + 1)
      /\ Forall (fun v => length v = NQ) (cv_znQ cv_mem))
  /\ (cv_sensi cv_mem = true ->
      length (cv_znS cv_mem) = Z.to_nat (cv_qmax cv_mem + 1)
      /\ Forall (sens_row_ok N (cv_Ns cv_mem)) (cv_znS cv_mem)).

(** ** Concrete integrators used in the examples *)

(** Order 2 of at most 2, one state component, one quadrature component
    and one sensitivity, all active. *)
Definition history_example : CVodeMem :=
  CVodeMem_zero
    <| cv_q := 2%Z |> <| cv_qmax := 2%Z |> <| cv_L := 3%Z |>
    <| cv_h := 1 |> <| cv_tn := 0 |>
    <| cv_zn := [[1]; [2]; [3]] |>
    <| cv_quad := true |> <| cv_znQ := [[4]; [5]; [6]] |>
    <| cv_sensi := true |> <| cv_Ns := 1%Z |>
    <| cv_znS := [[[7]]; [[8]]; [[9]]] |>.

(** An Adams integrator as [CVodeCreate] returns it, and a BDF handle with
    sensitivities active in the mode [ism]. *)
Definition created_example : option CVodeMem :=
  CVodeCreate (1 / 1000000) (Some ADAMS) (Some FUNCTIONAL) (Some CVodeMem_zero).

Definition sens_example (ism : ism_t) : CVodeMem :=
  CVodeMem_zero <| cv_sensi := true |> <| cv_ism := ism |>
    <| cv_Ns := 2%Z |> <| cv_nniS1 := Some 10%nat |>
    <| cv_ncfnS1 := Some 20%nat |> <| cv_nniS := 5%Z |>.

(** ** Interpolation: [CVodeGetDky] *)

(** [dky] is [None] for a NULL vector; the result is the flag and the
    contents of [dky] after the call. *)
Definition CVodeGetDky (cvode_mem : option CVodeMem) (t : R) (k : Z)
    (dky : option N_Vector) : cvg_flag * option N_Vector :=
  match cvode_mem with
  | None => (CVG_NO_MEM, dky)
  | Some cv_mem =>
    match dky with
    | None => (BAD_DKY, None)
    | Some dky0 =>
      if ((k <? 0) || (k >? cv_q cv_mem))%Z then (BAD_K, dky)
      else
        let tfuzz := FUZZ_FACTOR * cv_uround cv_mem
                     * (ABS (cv_tn cv_mem) + ABS (cv_hu cv_mem)) in
        let tfuzz := if Rlt_dec (cv_hu cv_mem) ZERO then - tfuzz else tfuzz in
        let tp := cv_tn cv_mem - cv_hu cv_mem - tfuzz in
        let tn1 := cv_tn cv_mem + tfuzz in
        if Rgt_dec ((t - tp) * (t - tn1)) ZERO then (BAD_T, dky)
        else
          let s := (t - cv_tn cv_mem) / cv_h cv_mem in
          let dky1 :=
            for_downto (cv_q cv_mem) k (fun j dky =>
              let c := for_downto j (j - k + 1) (fun i c => c * IZR i) ONE in
              if (j =? cv_q cv_mem)%Z
              then N_VScale c (vec_at (cv_zn cv_mem) (cv_q cv_mem))
              else N_VLinearSum c (vec_at (cv_zn cv_mem) j) s dky) dky0 in
          if (k =? 0)%Z then (OKAY, Some dky1)
          else
            let r := RPowerI (cv_h cv_mem) (- k) in
            (OKAY, Some (N_VScale r dky1))
    end
  end.

(** The interpolation formula in the words of the spec:
    [c(j,k) = j*(j-1)*...*(j-k+1)] and, for component [i],
    [sum over j = k..q of c(j,k) * ((t - tn)/h)^(j-k) * h^(-k) * zn[j][i]]. *)
Fixpoint dky_c (j : Z) (k : nat) : Z :=
  match k with
  | O => 1
  | S k' => j * dky_c (j - 1) k'
  end.

Fixpoint sum_from (n : nat) (j : Z) (term : Z -> R) : R :=
  match n with
  | O => 0
  | S n' => term j + sum_from n' (j + 1)%Z term
  end.

Definition dky_formula (cv_mem : CVodeMem) (t : R) (k : Z) (i : nat) : R :=
  sum_from (Z.to_nat (cv_q cv_mem - k + 1)) k (fun j =>
    IZR (dky_c j (Z.to_nat k))
    * ((t - cv_tn cv_mem) / cv_h cv_mem) ^ Z.to_nat (j - k)
    * / (cv_h cv_mem ^ Z.to_nat k)
    * nth i (vec_at (cv_zn cv_mem) j) 0).

(** The interval of valid arguments in the words of the spec:
    [t] lies between [tn - hu - tfuzz] and [tn + tfuzz], where [tfuzz]
    has the sign of [hu]. *)
Definition dky_in_range (cv_mem : CVodeMem) (t : R) : Prop :=
  let tfuzz := FUZZ_FACTOR * cv_uround cv_mem
               * (Rabs (cv_tn cv_mem) + Rabs (cv_hu cv_mem)) in
  let tfuzz := if Rlt_dec (cv_hu cv_mem) 0 then - tfuzz else tfuzz in
  let tp := cv_tn cv_mem - cv_hu cv_mem - tfuzz in
  let tn1 := cv_tn cv_mem + tfuzz in
  Rmin tp tn1 <= t <= Rmax tp tn1.

(** Order 2, one component, last step [hu = 2] ending at [tn = 1]. *)
Definition dky_example : CVodeMem :=
  CVodeMem_zero
    <| cv_q := 2%Z |> <| cv_qmax := 5%Z |> <| cv_L := 3%Z |>
    <| cv_h := 2 |> <| cv_hu := 2 |> <| cv_tn := 1 |>
    <| cv_uround := 1 / 1000000 |>
    <| cv_zn := [[1]; [2]; [3]; [0]; [0]; [0]] |>.

(** ** Error weights and initialization *)

(** [a[i][k]] and the assignment [a[i][k] = v] on an array of rows of
    reals ([ssdat]). *)
Definition real2_at (a : list (list R)) (i k : Z) : R :=
  real_at (nth (Z.to_nat i) a []) k.

Definition real2_set (a : list (list R)) (i k : Z) (v : R) : list (list R) :=
  <[Z.to_nat i := <[Z.to_nat k := v]> (nth (Z.to_nat i) a [])]> a.

(** [CVEwtSetSS], [CVEwtSetSV], [CVEwtSet]: the result is the flag and the
    memory, in which [tempv] holds the intermediate vector and, on
    success, [ewt] the weights. *)
Definition CVEwtSetSS (cv_mem : CVodeMem) (ycur : N_Vector) : bool * CVodeMem :=
  let rtoli := cv_reltol cv_mem in
  let atoli := atol_scalar (cv_abstol cv_mem) in
  let cv_mem := cv_mem <| cv_tempv := N_VAbs ycur |> in
  let cv_mem := cv_mem <| cv_tempv := N_VScale rtoli (cv_tempv cv_mem) |> in
  let cv_mem := cv_mem <| cv_tempv := N_VAddConst (cv_tempv cv_mem) atoli |> in
  if Rle_dec (N_VMin (cv_tempv cv_mem)) ZERO then (false, cv_mem)
  else (true, cv_mem <| cv_ewt := N_VInv (cv_tempv cv_mem) |>).

Definition CVEwtSetSV (cv_mem : CVodeMem) (ycur : N_Vector) : bool * CVodeMem :=
  let rtoli := cv_reltol cv_mem in
  let cv_mem := cv_mem <| cv_tempv := N_VAbs ycur |> in
  let cv_mem :=
    cv_mem <| cv_tempv := N_VLinearSum rtoli (cv_tempv cv_mem)
                            ONE (atol_vector (cv_abstol cv_mem)) |> in
  if Rle_dec (N_VMin (cv_tempv cv_mem)) ZERO then (false, cv_mem)
  else (true, cv_mem <| cv_ewt := N_VInv (cv_tempv cv_mem) |>).

Definition CVEwtSet (cv_mem : CVodeMem) (ycur : N_Vector) : bool * CVodeMem :=
  match cv_itol cv_mem with
  | SS => CVEwtSetSS cv_mem ycur
  | SV => CVEwtSetSV cv_mem ycur
  end.

(** [CVFreeVectors]: the vectors of the integrator are released. *)
Definition CVFreeVectors (cv_mem : CVodeMem) : CVodeMem :=
  cv_mem <| cv_ewt := [] |> <| cv_acor := [] |> <| cv_tempv := [] |>
    <| cv_ftemp := [] |> <| cv_zn := [] |>.

(** [CVodeMalloc].  [None] stands for a NULL argument ([cvode_mem], [f],
    [y0], [reltol], [abstol]) or for an [itol] that is neither [SS] nor
    [SV].  [CVAllocVectors] allocates through the vector module and is a
    parameter: it returns [None] when an allocation fails.  The result is
    the flag, the messages written and the memory after the call. *)
Definition CVodeMalloc (CVAllocVectors : CVodeMem -> option CVodeMem)
    (cvode_mem : option CVodeMem) (f : option (R -> N_Vector -> N_Vector))
    (t0 : R) (y0 : option N_Vector) (itol : option itol_t)
    (reltol : option R) (abstol : option abstol_t)
    : cvm_flag * list cvm_message * option CVodeMem :=
  match cvode_mem with
  | None => (CVM_NO_MEM, [MSG_CVM_NO_MEM], None)
  | Some cv_mem =>
  match y0 with
  | None => (CVM_ILL_INPUT, [MSG_Y0_NULL], Some cv_mem)
  | Some y0 =>
  match itol with
  | None => (CVM_ILL_INPUT, [MSG_BAD_ITOL], Some cv_mem)
  | Some itol =>
  match f with
  | None => (CVM_ILL_INPUT, [MSG_F_NULL], Some cv_mem)
  | Some f =>
  match reltol with
  | None => (CVM_ILL_INPUT, [MSG_RELTOL_NULL], Some cv_mem)
  | Some reltol =>
  if Rlt_dec reltol ZERO then (CVM_ILL_INPUT, [MSG_BAD_RELTOL], Some cv_mem)
  else
  match abstol with
  | None => (CVM_ILL_INPUT, [MSG_ABSTOL_NULL], Some cv_mem)
  | Some abstol =>
  let neg_abstol :=
    match itol with
    | SS => if Rlt_dec (atol_scalar abstol) ZERO then true else false
    | SV => if Rlt_dec (N_VMin (atol_vector abstol)) ZERO then true else false
    end in
  if neg_abstol then (CVM_ILL_INPUT, [MSG_BAD_ABSTOL], Some cv_mem)
  else
  match CVAllocVectors cv_mem with
  | None => (CVM_MEM_FAIL, [MSG_MEM_FAIL], Some cv_mem)
  | Some cv_mem =>
    let cv_mem := cv_mem <| cv_itol := itol |> <| cv_reltol := reltol |>
                    <| cv_abstol := abstol |> in
    let '(ewtsetOK, cv_mem) := CVEwtSet cv_mem y0 in
    if negb ewtsetOK then
      (CVM_ILL_INPUT, [MSG_BAD_EWT], Some (CVFreeVectors cv_mem))
    else
      let cv_mem := cv_mem <| cv_tn := t0 |> in
      let cv_mem := cv_mem <| cv_q := 1%Z |> <| cv_L := 2%Z |> in
      let cv_mem := cv_mem <| cv_qwait := cv_L cv_mem |>
                      <| cv_etamax := ETAMX1 |> in
      let cv_mem := cv_mem <| cv_qu := 0%Z |> <| cv_hu := ZERO |>
                      <| cv_tolsf := ONE |> in
      let cv_mem := cv_mem <| cv_forceSetup := false |> in
      let cv_mem := cv_mem <| cv_zn := vec_set (cv_zn cv_mem) 0 (N_VScale ONE y0) |> in
      let cv_mem := cv_mem <| cv_nst := 0%Z |> <| cv_nfe := 0%Z |>
                      <| cv_ncfn := 0%Z |> <| cv_netf := 0%Z |>
                      <| cv_nni := 0%Z |> <| cv_nsetups := 0%Z |>
                      <| cv_nhnil := 0%Z |> <| cv_nstlp := 0%Z |>
                      <| cv_nscon := 0%Z |> in
      let cv_mem := cv_mem <| cv_nor := 0%Z |> in
      let cv_mem :=
        for_upto 1 5 (fun i =>
          for_upto 1 3 (fun k s =>
            s <| cv_ssdat := real2_set (cv_ssdat s) (i - 1) (k - 1) ZERO |>))
          cv_mem in
      let cv_mem := cv_mem <| cv_quad := false |> <| cv_sensi := false |> in
      (CVM_SUCCESS, [], Some (cv_mem <| cv_MallocDone := true |>))
  end end end end end end end.

(** The intermediate vector of the weight construction in the words of
    the spec: component [k] of [rtol * |y| + atol]. *)
Definition ewt_tol (cv_mem : CVodeMem) (ycur : N_Vector) (k : nat) : R :=
  cv_reltol cv_mem * Rabs (nth k ycur 0)
  + match cv_itol cv_mem with
    | SS => atol_scalar (cv_abstol cv_mem)
    | SV => nth k (atol_vector (cv_abstol cv_mem)) 0
    end.

(** An allocation that succeeds with vectors of [N] components. *)
Definition alloc_example (N : nat) (cv_mem : CVodeMem) : option CVodeMem :=
  let v := replicate N 0 in
  Some (cv_mem <| cv_ewt := v |> <| cv_acor := v |> <| cv_tempv := v |>
          <| cv_ftemp := v |>
          <| cv_zn := replicate (Z.to_nat (cv_qmax cv_mem + 1)) v |>).

(** Tolerances in SV mode on two components, the second with a zero
    absolute tolerance. *)
Definition ewt_example : CVodeMem :=
  CVodeMem_zero <| cv_ewt := [0; 0] |> <| cv_acor := [0; 0] |>
    <| cv_tempv := [0; 0] |> <| cv_ftemp := [0; 0] |> <| cv_zn := [[0; 0]] |>
    <| cv_itol := SV |> <| cv_reltol := 0.5 |> <| cv_abstol := AtolV [1; 0] |>.

(** ** Combined norms *)

Definition CVQuadUpdateNorm (cv_mem : CVodeMem) (old_nrm : R)
    (xQ wQ : N_Vector) : R :=
  let qnrm := N_VWrmsNorm xQ wQ in
  if Rgt_dec old_nrm qnrm then old_nrm else qnrm.

Definition CVSensNorm (cv_mem : CVodeMem) (xS wS : list N_Vector) : R :=
  let nrm := N_VWrmsNorm (vec_at xS 0) (vec_at wS 0) in
  for_upto 1 (cv_Ns cv_mem - 1) (fun is_ nrm =>
    let snrm := N_VWrmsNorm (vec_at xS is_) (vec_at wS is_) in
    if Rgt_dec snrm nrm then snrm else nrm) nrm.

Definition CVSensUpdateNorm (cv_mem : CVodeMem) (old_nrm : R)
    (xS wS : list N_Vector) : R :=
  let snrm := CVSensNorm cv_mem xS wS in
  if Rgt_dec old_nrm snrm then old_nrm else snrm.

(** ** Routines that call the user's right-hand sides

    [f] and [fQ] map [(t, y)] to the derivative; [fS] maps
    [(Ns, t, y, ydot, yS)] to the array of sensitivity derivatives; [fS1]
    maps [(Ns, t, y, ydot, is, yS[is])] to one of them.  The work vectors
    passed to them are not modelled, and neither is the counter [nfeS]
    that the difference quotient routines [CVSensRhsDQ] and
    [CVSensRhs1DQ], the defaults that [CVodeCreate] installs, advance by
    the number of their evaluations of [f]: it is not a member of
    [CVodeMemRec]. *)
Section UserFunctions.
Variable f : R -> N_Vector -> N_Vector.
Variable fQ : R -> N_Vector -> N_Vector.
Variable fS : Z -> R -> N_Vector -> N_Vector -> list N_Vector -> list N_Vector.
Variable fS1 : Z -> R -> N_Vector -> N_Vector -> Z -> N_Vector -> N_Vector.

(** [CVSensRhs]: the result is the array [fScur] after the call and the
    memory with the counter [nfSe] advanced. *)
Definition CVSensRhs (cv_mem : CVodeMem) (time : R) (ycur fcur : N_Vector)
    (yScur fScur : list N_Vector) : list N_Vector * CVodeMem :=
  if decide (cv_ifS cv_mem = ALLSENS) then
    (fS (cv_Ns cv_mem) time ycur fcur yScur,
     cv_mem <| cv_nfSe := (cv_nfSe cv_mem + 1)%Z |>)
  else
    for_upto 0 (cv_Ns cv_mem - 1) (fun is_ st =>
      let '(fScur, s) := st in
      (vec_set fScur is_
         (fS1 (cv_Ns s) time ycur fcur is_ (vec_at yScur is_)),
       s <| cv_nfSe := (cv_nfSe s + 1)%Z |>)) (fScur, cv_mem).

(** ** The initial step size: [CVUpperBoundH0], [CVYddNorm], [CVHin] *)

Definition CVUpperBoundH0 (cv_mem : CVodeMem) (tdist : R) : R * CVodeMem :=
  let vectorAtol := bool_decide (cv_itol cv_mem = SV) in
  (* temp1 = tempv, temp2 = acor *)
  let cv_mem := cv_mem <| cv_tempv := N_VAbs (vec_at (cv_zn cv_mem) 0) |> in
  let cv_mem := cv_mem <| cv_acor := N_VAbs (vec_at (cv_zn cv_mem) 1) |> in
  let cv_mem :=
    if vectorAtol then
      cv_mem <| cv_tempv := N_VLinearSum HUB_FACTOR (cv_tempv cv_mem)
                              ONE (atol_vector (cv_abstol cv_mem)) |>
    else
      let atoli := atol_scalar (cv_abstol cv_mem) in
      let cv_mem := cv_mem <| cv_tempv := N_VScale HUB_FACTOR (cv_tempv cv_mem) |> in
      cv_mem <| cv_tempv := N_VAddConst (cv_tempv cv_mem) atoli |> in
  let cv_mem := cv_mem <| cv_tempv := N_VDiv (cv_acor cv_mem) (cv_tempv cv_mem) |> in
  let hub_inv := N_VMaxNorm (cv_tempv cv_mem) in
  let '(hub_inv, cv_mem) :=
    if cv_quad cv_mem && bool_decide (cv_errconQ cv_mem = FULL) then
      (* tempQ1 = tempvQ, tempQ2 = acorQ *)
      let cv_mem := cv_mem <| cv_tempvQ := N_VAbs (vec_at (cv_znQ cv_mem) 0) |> in
      let cv_mem := cv_mem <| cv_acorQ := N_VAbs (vec_at (cv_znQ cv_mem) 1) |> in
      let cv_mem :=
        if vectorAtol then
          cv_mem <| cv_tempvQ := N_VLinearSum HUB_FACTOR (cv_tempvQ cv_mem)
                                   ONE (atol_vector (cv_abstolQ cv_mem)) |>
        else
          let atoli := atol_scalar (cv_abstolQ cv_mem) in
          let cv_mem := cv_mem <| cv_tempvQ := N_VScale HUB_FACTOR (cv_tempvQ cv_mem) |> in
          cv_mem <| cv_tempvQ := N_VAddConst (cv_tempvQ cv_mem) atoli |> in
      let cv_mem := cv_mem <| cv_tempvQ := N_VDiv (cv_acorQ cv_mem) (cv_tempvQ cv_mem) |> in
      let hubQ_inv := N_VMaxNorm (cv_tempvQ cv_mem) in
      ((if Rgt_dec hubQ_inv hub_inv then hubQ_inv else hub_inv), cv_mem)
    else (hub_inv, cv_mem) in
  let '(hub_inv, cv_mem) :=
    if cv_sensi cv_mem && bool_decide (cv_errcon cv_mem = FULL) then
      let atolSV := match cv_abstolS cv_mem with
                    | Some a => atolS_vectors a | None => [] end in
      let atolSS := match cv_abstolS cv_mem with
                    | Some a => atolS_scalars a | None => [] end in
      for_upto 0 (cv_Ns cv_mem - 1) (fun is_ st =>
        let '(hub_inv, s) := st in
        let s := s <| cv_tempv := N_VAbs (sens_at (cv_znS s) 0 is_) |> in
        let s := s <| cv_acor := N_VAbs (sens_at (cv_znS s) 1 is_) |> in
        let s :=
          if vectorAtol then
            s <| cv_tempv := N_VLinearSum HUB_FACTOR (cv_tempv s)
                               ONE (vec_at atolSV is_) |>
          else
            let s := s <| cv_tempv := N_VScale HUB_FACTOR (cv_tempv s) |> in
            s <| cv_tempv := N_VAddConst (cv_tempv s) (real_at atolSS is_) |> in
        let s := s <| cv_tempv := N_VDiv (cv_acor s) (cv_tempv s) |> in
        let hubS_inv := N_VMaxNorm (cv_tempv s) in
        ((if Rgt_dec hubS_inv hub_inv then hubS_inv else hub_inv), s))
        (hub_inv, cv_mem)
    else (hub_inv, cv_mem) in
  let hub := HUB_FACTOR * tdist in
  let hub := if Rgt_dec (hub * hub_inv) ONE then ONE / hub_inv else hub in
  (hub, cv_mem).

Definition CVYddNorm (cv_mem : CVodeMem) (hg : R) : R * CVodeMem :=
  let full := cv_sensi cv_mem && bool_decide (cv_errcon cv_mem = FULL) in
  let fullQ := cv_quad cv_mem && bool_decide (cv_errconQ cv_mem = FULL) in
  let cv_mem :=
    cv_mem <| cv_y := N_VLinearSum hg (vec_at (cv_zn cv_mem) 1)
                        ONE (vec_at (cv_zn cv_mem) 0) |> in
  let cv_mem :=
    if full then
      for_upto 0 (cv_Ns cv_mem - 1) (fun is_ s =>
        s <| cv_yS := vec_set (cv_yS s) is_
               (N_VLinearSum hg (sens_at (cv_znS s) 1 is_)
                             ONE (sens_at (cv_znS s) 0 is_)) |>) cv_mem
    else cv_mem in
  let cv_mem := cv_mem <| cv_tempv := f (cv_tn cv_mem + hg) (cv_y cv_mem) |> in
  let cv_mem := cv_mem <| cv_nfe := (cv_nfe cv_mem + 1)%Z |> in
  let cv_mem :=
    if fullQ then
      let cv_mem := cv_mem <| cv_tempvQ := fQ (cv_tn cv_mem + hg) (cv_y cv_mem) |> in
      cv_mem <| cv_nfQe := (cv_nfQe cv_mem + 1)%Z |>
    else cv_mem in
  let cv_mem :=
    if full then
      let '(fScur, cv_mem) :=
        CVSensRhs cv_mem (cv_tn cv_mem + hg) (cv_y cv_mem) (cv_tempv cv_mem)
          (cv_yS cv_mem) (cv_tempvS cv_mem) in
      cv_mem <| cv_tempvS := fScur |>
    else cv_mem in
  let cv_mem :=
    cv_mem <| cv_tempv := N_VLinearSum ONE (cv_tempv cv_mem)
                            (- ONE) (vec_at (cv_zn cv_mem) 1) |> in
  let cv_mem := cv_mem <| cv_tempv := N_VScale (ONE / hg) (cv_tempv cv_mem) |> in
  let cv_mem :=
    if fullQ then
      let cv_mem :=
        cv_mem <| cv_tempvQ := N_VLinearSum ONE (cv_tempvQ cv_mem)
                                 (- ONE) (vec_at (cv_znQ cv_mem) 1) |> in
      cv_mem <| cv_tempvQ := N_VScale (ONE / hg) (cv_tempvQ cv_mem) |>
    else cv_mem in
  let cv_mem :=
    if full then
      for_upto 0 (cv_Ns cv_mem - 1) (fun is_ s =>
        let s := s <| cv_tempvS := vec_set (cv_tempvS s) is_
                        (N_VLinearSum ONE (vec_at (cv_tempvS s) is_)
                           (- ONE) (sens_at (cv_znS s) 1 is_)) |> in
        s <| cv_tempvS := vec_set (cv_tempvS s) is_
               (N_VScale (ONE / hg) (vec_at (cv_tempvS s) is_)) |>) cv_mem
    else cv_mem in
  let yddnrm := N_VWrmsNorm (cv_tempv cv_mem) (cv_ewt cv_mem) in
  let yddnrm :=
    if fullQ
    then CVQuadUpdateNorm cv_mem yddnrm (cv_tempvQ cv_mem) (cv_ewtQ cv_mem)
    else yddnrm in
  let yddnrm :=
    if full
    then CVSensUpdateNorm cv_mem yddnrm (cv_tempvS cv_mem) (cv_ewtS cv_mem)
    else yddnrm in
  (yddnrm, cv_mem).

(** The loop of [CVHin]; [fuel] bounds the number of iterations, the
    result is [hnew] and the memory, [None] when the fuel runs out. *)
Fixpoint CVHin_loop (fuel : nat) (count : Z) (sign : Z) (hub hg : R)
    (cv_mem : CVodeMem) : option (R * CVodeMem) :=
  match fuel with
  | O => None
  | S fuel' =>
    let hgs := hg * IZR sign in
    let '(yddnrm, cv_mem) := CVYddNorm cv_mem hgs in
    let hnew := if Rgt_dec (yddnrm * hub * hub) TWO
                then RSqrt (TWO / yddnrm) else RSqrt (hg * hub) in
    let count := (count + 1)%Z in
    if (count >=? MAX_ITERS)%Z then Some (hnew, cv_mem)
    else
      let hrat := hnew / hg in
      if bool_decide (hrat > HALF) && bool_decide (hrat < TWO)
      then Some (hnew, cv_mem)
      else if (count >=? 2)%Z && bool_decide (hrat > TWO) then Some (hg, cv_mem)
      else CVHin_loop fuel' count sign hub hnew cv_mem
  end.

(** [CVHin]: [Some (flag, memory)], [None] only if the loop ran out of
    fuel. *)
Definition CVHin (fuel : nat) (cv_mem : CVodeMem) (tout : R)
    : option (bool * CVodeMem) :=
  let tdiff := tout - cv_tn cv_mem in
  if Req_dec_T tdiff ZERO then Some (false, cv_mem)
  else
    let sign := if Rgt_dec tdiff ZERO then 1%Z else (-1)%Z in
    let tdist := ABS tdiff in
    let tround := cv_uround cv_mem * MAX (ABS (cv_tn cv_mem)) (ABS tout) in
    if Rlt_dec tdist (TWO * tround) then Some (false, cv_mem)
    else
      let hlb := HLB_FACTOR * tround in
      let '(hub, cv_mem) := CVUpperBoundH0 cv_mem tdist in
      let hg := RSqrt (hlb * hub) in
      if Rlt_dec hub hlb then
        let hg := if (sign =? -1)%Z then - hg else hg in
        Some (true, cv_mem <| cv_h := hg |>)
      else
        match CVHin_loop fuel 0 sign hub hg cv_mem with
        | None => None
        | Some (hnew, cv_mem) =>
          let h0 := H_BIAS * hnew in
          let h0 := if Rlt_dec h0 hlb then hlb else h0 in
          let h0 := if Rgt_dec h0 hub then hub else h0 in
          let h0 := if (sign =? -1)%Z then - h0 else h0 in
          Some (true, cv_mem <| cv_h := h0 |>)
        end.
End UserFunctions.

(** Right-hand sides used in the examples: [y' = y], no quadrature or
    sensitivity contribution. *)
Definition f_example : R -> N_Vector -> N_Vector := fun _ y => y.
Definition fS_example : Z -> R -> N_Vector -> N_Vector -> list N_Vector -> list N_Vector :=
  fun _ _ _ _ yS => yS.
Definition fS1_example : Z -> R -> N_Vector -> N_Vector -> Z -> N_Vector -> N_Vector :=
  fun _ _ _ _ _ yS => yS.

(** First call at [t0 = 0] with one component [y0 = 1], [h y' = 1]. *)
Definition hin_example : CVodeMem :=
  CVodeMem_zero <| cv_uround := 1 / 1000000 |> <| cv_q := 1%Z |>
    <| cv_qmax := 5%Z |> <| cv_L := 2%Z |> <| cv_tn := 0 |>
    <| cv_itol := SS |> <| cv_reltol := 0.001 |> <| cv_abstol := AtolS 0.001 |>
    <| cv_zn := [[1]; [1]; [0]; [0]; [0]; [0]] |>
    <| cv_ewt := [1] |> <| cv_tempv := [0] |> <| cv_acor := [0] |>
    <| cv_y := [0] |> <| cv_ftemp := [0] |>.

(** ** Change of order: [CVAdjustOrder], [CVAdjustAdams], [CVAdjustBDF] *)

(** [l[i] = v] for an [int] index. *)
Definition real_set (a : list R) (i : Z) (v : R) : list R :=
  <[Z.to_nat i := v]> a.

(** [CVAdjustAdams]: on an increase the new column [zn[L]] is set to zero;
    on a decrease the coefficients [l] are built from [tau] and each
    [zn[j]], [2 <= j < q], is adjusted by a multiple of [zn[q]].  The
    local variable [hsum] is carried through the loop. *)
Definition CVAdjustAdams (cv_mem : CVodeMem) (deltaq : Z) : CVodeMem :=
  if (deltaq =? 1)%Z then
    let cv_mem :=
      cv_mem <| cv_zn := vec_set (cv_zn cv_mem) (cv_L cv_mem)
                           (N_VConst ZERO (vec_at (cv_zn cv_mem) (cv_L cv_mem))) |> in
    let cv_mem :=
      if cv_quad cv_mem then
        cv_mem <| cv_znQ := vec_set (cv_znQ cv_mem) (cv_L cv_mem)
                              (N_VConst ZERO (vec_at (cv_znQ cv_mem) (cv_L cv_mem))) |>
      else cv_mem in
    if cv_sensi cv_mem then
      for_upto 0 (cv_Ns cv_mem - 1) (fun is_ s =>
        s <| cv_znS := sens_set (cv_znS s) (cv_L s) is_
               (N_VConst ZERO (sens_at (cv_znS s) (cv_L s) is_)) |>) cv_mem
    else cv_mem
  else
    let cv_mem :=
      for_upto 0 (cv_qmax cv_mem) (fun i s =>
        s <| cv_l := real_set (cv_l s) i ZERO |>) cv_mem in
    let cv_mem := cv_mem <| cv_l := real_set (cv_l cv_mem) 1 ONE |> in
    let hsum := ZERO in
    let '(hsum, cv_mem) :=
      for_upto 1 (cv_q cv_mem - 2) (fun j st =>
        let '(hsum, s) := st in
        let hsum := hsum + real_at (cv_tau s) j in
        let xi := hsum / cv_hscale s in
        let s :=
          for_downto (j + 1) 1 (fun i s =>
            s <| cv_l := real_set (cv_l s) i
                   (real_at (cv_l s) i * xi + real_at (cv_l s) (i - 1)) |>) s in
        (hsum, s)) (hsum, cv_mem) in
    let cv_mem :=
      for_upto 1 (cv_q cv_mem - 2) (fun j s =>
        s <| cv_l := real_set (cv_l s) (j + 1)
               (IZR (cv_q s) * (real_at (cv_l s) j / IZR (j + 1))) |>) cv_mem in
    let cv_mem :=
      for_upto 2 (cv_q cv_mem - 1) (fun j s =>
        s <| cv_zn := vec_set (cv_zn s) j
               (N_VLinearSum (- real_at (cv_l s) j) (vec_at (cv_zn s) (cv_q s))
                             ONE (vec_at (cv_zn s) j)) |>) cv_mem in
    let cv_mem :=
      if cv_quad cv_mem then
        for_upto 2 (cv_q cv_mem - 1) (fun j s =>
          s <| cv_znQ := vec_set (cv_znQ s) j
                 (N_VLinearSum (- real_at (cv_l s) j) (vec_at (cv_znQ s) (cv_q s))
                               ONE (vec_at (cv_znQ s) j)) |>) cv_mem
      else cv_mem in
    if cv_sensi cv_mem then
      for_upto 0 (cv_Ns cv_mem - 1) (fun is_ =>
        for_upto 2 (cv_q cv_mem - 1) (fun j s =>
          s <| cv_znS := sens_set (cv_znS s) j is_
                 (N_VLinearSum (- real_at (cv_l s) j)
                               (sens_at (cv_znS s) (cv_q s) is_)
                               ONE (sens_at (cv_znS s) j is_)) |>)) cv_mem
    else cv_mem.

(** [CVIncreaseBDF]: the new column [zn[L]] is [A1 * zn[qmax]] and each
    [zn[j]], [2 <= j <= q], is adjusted by a multiple of it.  The loop
    carries the local variables [hsum], [prod], [alpha0], [alpha1] and
    [xiold]. *)
Definition CVIncreaseBDF (cv_mem : CVodeMem) : CVodeMem :=
  let cv_mem :=
    for_upto 0 (cv_qmax cv_mem) (fun i s =>
      s <| cv_l := real_set (cv_l s) i ZERO |>) cv_mem in
  let cv_mem := cv_mem <| cv_l := real_set (cv_l cv_mem) 2 ONE |> in
  let alpha1 := ONE in
  let prod := ONE in
  let xiold := ONE in
  let alpha0 := - ONE in
  let hsum := cv_hscale cv_mem in
  let '(hsum, prod, alpha0, alpha1, xiold, cv_mem) :=
    if (cv_q cv_mem >? 1)%Z then
      for_upto 1 (cv_q cv_mem - 1) (fun j st =>
        let '(hsum, prod, alpha0, alpha1, xiold, s) := st in
        let hsum := hsum + real_at (cv_tau s) (j + 1) in
        let xi := hsum / cv_hscale s in
        let prod := prod * xi in
        let alpha0 := alpha0 - ONE / IZR (j + 1) in
        let alpha1 := alpha1 + ONE / xi in
        let s :=
          for_downto (j + 2) 2 (fun i s =>
            s <| cv_l := real_set (cv_l s) i
                   (real_at (cv_l s) i * xiold + real_at (cv_l s) (i - 1)) |>) s in
        let xiold := xi in
        (hsum, prod, alpha0, alpha1, xiold, s))
        (hsum, prod, alpha0, alpha1, xiold, cv_mem)
    else (hsum, prod, alpha0, alpha1, xiold, cv_mem) in
  let A1 := (- alpha0 - alpha1) / prod in
  let cv_mem :=
    cv_mem <| cv_zn := vec_set (cv_zn cv_mem) (cv_L cv_mem)
                         (N_VScale A1 (vec_at (cv_zn cv_mem) (cv_qmax cv_mem))) |> in
  let cv_mem :=
    for_upto 2 (cv_q cv_mem) (fun j s =>
      s <| cv_zn := vec_set (cv_zn s) j
             (N_VLinearSum (real_at (cv_l s) j) (vec_at (cv_zn s) (cv_L s))
                           ONE (vec_at (cv_zn s) j)) |>) cv_mem in
  let cv_mem :=
    if cv_quad cv_mem then
      let cv_mem :=
        cv_mem <| cv_znQ := vec_set (cv_znQ cv_mem) (cv_L cv_mem)
                              (N_VScale A1 (vec_at (cv_znQ cv_mem) (cv_qmax cv_mem))) |> in
      for_upto 2 (cv_q cv_mem) (fun j s =>
        s <| cv_znQ := vec_set (cv_znQ s) j
               (N_VLinearSum (real_at (cv_l s) j) (vec_at (cv_znQ s) (cv_L s))
                             ONE (vec_at (cv_znQ s) j)) |>) cv_mem
    else cv_mem in
  if cv_sensi cv_mem then
    for_upto 0 (cv_Ns cv_mem - 1) (fun is_ s =>
      let s :=
        s <| cv_znS := sens_set (cv_znS s) (cv_L s) is_
               (N_VScale A1 (sens_at (cv_znS s) (cv_qmax s) is_)) |> in
      for_upto 2 (cv_q s) (fun j s =>
        s <| cv_znS := sens_set (cv_znS s) j is_
               (N_VLinearSum (real_at (cv_l s) j) (sens_at (cv_znS s) (cv_L s) is_)
                             ONE (sens_at (cv_znS s) j is_)) |>) s) cv_mem
  else cv_mem.

(** [CVDecreaseBDF]: each [zn[j]], [2 <= j < q], is adjusted by a multiple
    of [zn[q]]. *)
Definition CVDecreaseBDF (cv_mem : CVodeMem) : CVodeMem :=
  let cv_mem :=
    for_upto 0 (cv_qmax cv_mem) (fun i s =>
      s <| cv_l := real_set (cv_l s) i ZERO |>) cv_mem in
  let cv_mem := cv_mem <| cv_l := real_set (cv_l cv_mem) 2 ONE |> in
  let hsum := ZERO in
  let '(hsum, cv_mem) :=
    for_upto 1 (cv_q cv_mem - 2) (fun j st =>
      let '(hsum, s) := st in
      let hsum := hsum + real_at (cv_tau s) j in
      let xi := hsum / cv_hscale s in
      let s :=
        for_downto (j + 2) 2 (fun i s =>
          s <| cv_l := real_set (cv_l s) i
                 (real_at (cv_l s) i * xi + real_at (cv_l s) (i - 1)) |>) s in
      (hsum, s)) (hsum, cv_mem) in
  let cv_mem :=
    for_upto 2 (cv_q cv_mem - 1) (fun j s =>
      s <| cv_zn := vec_set (cv_zn s) j
             (N_VLinearSum (- real_at (cv_l s) j) (vec_at (cv_zn s) (cv_q s))
                           ONE (vec_at (cv_zn s) j)) |>) cv_mem in
  let cv_mem :=
    if cv_quad cv_mem then
      for_upto 2 (cv_q cv_mem - 1) (fun j s =>
        s <| cv_znQ := vec_set (cv_znQ s) j
               (N_VLinearSum (- real_at (cv_l s) j) (vec_at (cv_znQ s) (cv_q s))
                             ONE (vec_at (cv_znQ s) j)) |>) cv_mem
    else cv_mem in
  if cv_sensi cv_mem then
    for_upto 0 (cv_Ns cv_mem - 1) (fun is_ =>
      for_upto 2 (cv_q cv_mem - 1) (fun j s =>
        s <| cv_znS := sens_set (cv_znS s) j is_
               (N_VLinearSum (- real_at (cv_l s) j)
                             (sens_at (cv_znS s) (cv_q s) is_)
                             ONE (sens_at (cv_znS s) j is_)) |>)) cv_mem
  else cv_mem.

(** [CVAdjustBDF]: [deltaq] is [+1] or [-1]; for any other value the
    [switch] does nothing. *)
Definition CVAdjustBDF (cv_mem : CVodeMem) (deltaq : Z) : CVodeMem :=
  if (deltaq =? 1)%Z then CVIncreaseBDF cv_mem
  else if (deltaq =? -1)%Z then CVDecreaseBDF cv_mem
  else cv_mem.

(** [CVAdjustOrder]: nothing is done for a decrease at order 2. *)
Definition CVAdjustOrder (cv_mem : CVodeMem) (deltaq : Z) : CVodeMem :=
  if (cv_q cv_mem =? 2)%Z && negb (deltaq =? 1)%Z then cv_mem
  else
    match cv_lmm cv_mem with
    | ADAMS => CVAdjustAdams cv_mem deltaq
    | BDF => CVAdjustBDF cv_mem deltaq
    end.

(** ** The local error test: [CVDoErrorTest] *)

(** The values the routine leaves in [*nflagPtr], [*kflagPtr], [*nefPtr],
    [*dsmPtr], its return value and the memory. *)
Record error_test_result := mkErrorTest {
  et_passed : bool;
  et_nflag : Z;
  et_kflag : Z;
  et_nef : Z;
  et_dsm : R;
  et_mem : CVodeMem
}.

Section ErrorTest.
Variable f : R -> N_Vector -> N_Vector.
Variable fQ : R -> N_Vector -> N_Vector.
Variable fS : Z -> R -> N_Vector -> N_Vector -> list N_Vector -> list N_Vector.
Variable fS1 : Z -> R -> N_Vector -> N_Vector -> Z -> N_Vector -> N_Vector.

Definition CVDoErrorTest (cv_mem : CVodeMem) (nflag kflag : Z) (saved_t : R)
    (nef : Z) : error_test_result :=
  let dsm := cv_acnrm cv_mem / real_at (cv_tq cv_mem) 2 in
  if Rle_dec dsm ONE then mkErrorTest true nflag kflag nef dsm cv_mem
  else
    let nef := (nef + 1)%Z in
    let cv_mem := cv_mem <| cv_netf := (cv_netf cv_mem + 1)%Z |> in
    let nflag := PREV_ERR_FAIL in
    let cv_mem := CVRestore cv_mem saved_t in
    if bool_decide (ABS (cv_h cv_mem) <= cv_hmin cv_mem * ONEPSM)
       || (nef =? cv_maxnef cv_mem)%Z
    then mkErrorTest false nflag REP_ERR_FAIL nef dsm cv_mem
    else
      let cv_mem := cv_mem <| cv_etamax := ONE |> in
      if (nef <=? MXNEF1)%Z then
        let cv_mem :=
          cv_mem <| cv_eta := ONE / (RPowerR (BIAS2 * dsm) (ONE / IZR (cv_L cv_mem))
                                     + ADDON) |> in
        let cv_mem :=
          cv_mem <| cv_eta := MAX ETAMIN (MAX (cv_eta cv_mem)
                                (cv_hmin cv_mem / ABS (cv_h cv_mem))) |> in
        let cv_mem :=
          if (nef >=? SMALL_NEF)%Z
          then cv_mem <| cv_eta := MIN (cv_eta cv_mem) ETAMXF |>
          else cv_mem in
        mkErrorTest false nflag kflag nef dsm (CVRescale cv_mem)
      else if (cv_q cv_mem >? 1)%Z then
        let cv_mem :=
          cv_mem <| cv_eta := MAX ETAMIN (cv_hmin cv_mem / ABS (cv_h cv_mem)) |> in
        let cv_mem := CVAdjustOrder cv_mem (-1) in
        let cv_mem := cv_mem <| cv_L := cv_q cv_mem |> in
        let cv_mem := cv_mem <| cv_q := (cv_q cv_mem - 1)%Z |> in
        let cv_mem := cv_mem <| cv_qwait := cv_L cv_mem |> in
        mkErrorTest false nflag kflag nef dsm (CVRescale cv_mem)
      else
        let cv_mem :=
          cv_mem <| cv_eta := MAX ETAMIN (cv_hmin cv_mem / ABS (cv_h cv_mem)) |> in
        let cv_mem := cv_mem <| cv_h := cv_h cv_mem * cv_eta cv_mem |> in
        let cv_mem := cv_mem <| cv_hscale := cv_h cv_mem |> in
        let cv_mem := cv_mem <| cv_qwait := LONG_WAIT |> in
        let cv_mem := cv_mem <| cv_nscon := 0%Z |> in
        let cv_mem :=
          cv_mem <| cv_tempv := f (cv_tn cv_mem) (vec_at (cv_zn cv_mem) 0) |> in
        let cv_mem := cv_mem <| cv_nfe := (cv_nfe cv_mem + 1)%Z |> in
        let cv_mem :=
          cv_mem <| cv_zn := vec_set (cv_zn cv_mem) 1
                               (N_VScale (cv_h cv_mem) (cv_tempv cv_mem)) |> in
        let cv_mem :=
          if cv_quad cv_mem then
            let cv_mem :=
              cv_mem <| cv_tempvQ := fQ (cv_tn cv_mem) (vec_at (cv_zn cv_mem) 0) |> in
            let cv_mem := cv_mem <| cv_nfQe := (cv_nfQe cv_mem + 1)%Z |> in
            cv_mem <| cv_znQ := vec_set (cv_znQ cv_mem) 1
                                  (N_VScale (cv_h cv_mem) (cv_tempvQ cv_mem)) |>
          else cv_mem in
        let cv_mem :=
          if cv_sensi cv_mem then
            let '(fScur, cv_mem) :=
              CVSensRhs fS fS1 cv_mem (cv_tn cv_mem) (vec_at (cv_zn cv_mem) 0)
                (cv_tempv cv_mem) (nth 0 (cv_znS cv_mem) []) (cv_tempvS cv_mem) in
            let cv_mem := cv_mem <| cv_tempvS := fScur |> in
            for_upto 0 (cv_Ns cv_mem - 1) (fun is_ s =>
              s <| cv_znS := sens_set (cv_znS s) 1 is_
                     (N_VScale (cv_h s) (vec_at (cv_tempvS s) is_)) |>) cv_mem
          else cv_mem in
        mkErrorTest false nflag kflag nef dsm cv_mem.
End ErrorTest.

(** [r] is [cv_mem] after the assignments of [CVRestore]: [tn = saved_t]
    and the subtractions [a[j-1] = a[j-1] - a[j]] of the loop nest on [zn],
    on [znQ] when quadratures are active and on [znS] when sensitivities
    are active. *)
Definition restored_history (cv_mem r : CVodeMem) (saved_t : R) : Prop :=
  cv_tn r = saved_t
  /\ cv_zn r = nord_loops [] vsub (cv_q cv_mem) (cv_zn cv_mem)
  /\ cv_znQ r = (if cv_quad cv_mem
                 then nord_loops [] vsub (cv_q cv_mem) (cv_znQ cv_mem)
                 else cv_znQ cv_mem)
  /\ cv_znS r = (if cv_sensi cv_mem
                 then sens_loops vsub (cv_Ns cv_mem) (cv_q cv_mem) (cv_znS cv_mem)
                 else cv_znS cv_mem).

(** The history of [r] is the one of [s] with column [j] multiplied by
    [eta^j] for [j = 1..q], where [q] is the order of [s]; [znQ] and
    [znS[.][is]], [is < Ns], only when quadratures or sensitivities are
    active. *)
Definition rescaled_history (eta : R) (s r : CVodeMem) : Prop :=
  (forall j, vec_at (cv_zn r) j
     = if decide (1 <= j <= cv_q s)%Z
       then N_VScale (eta ^ Z.to_nat j) (vec_at (cv_zn s) j)
       else vec_at (cv_zn s) j)
  /\ (forall j, vec_at (cv_znQ r) j
        = if decide (cv_quad s = true /\ (1 <= j <= cv_q s)%Z)
          then N_VScale (eta ^ Z.to_nat j) (vec_at (cv_znQ s) j)
          else vec_at (cv_znQ s) j)
  /\ (forall j is_, (0 <= is_)%Z ->
        sens_at (cv_znS r) j is_
        = if decide (cv_sensi s = true /\ (1 <= j <= cv_q s)%Z
                     /\ (is_ < cv_Ns s)%Z)
          then N_VScale (eta ^ Z.to_nat j) (sens_at (cv_znS s) j is_)
          else sens_at (cv_znS s) j is_).

(** A memory at the error test: order 2 of at most 2 with [h = hscale = 1],
    [acnrm / tq[2] = 4], the default [maxnef] and no minimum step. *)
Definition errtest_example : CVodeMem :=
  history_example
    <| cv_hscale := 1 |> <| cv_acnrm := 4 |> <| cv_tq := [0; 1; 1; 1; 1; 1] |>
    <| cv_maxnef := MXNEF |> <| cv_hmin := 0 |> <| cv_netf := 2%Z |>.

(** * Further routines of cvodes.c *)

(** ** The remaining optional inputs of the integrator *)

(** [CVodeResetIterType]: [iter] is [None] when the integer passed is
    neither [FUNCTIONAL] nor [NEWTON]. *)
Definition CVodeResetIterType (cvode_mem : option CVodeMem)
    (iter : option iter_t) : cvs_flag * option CVodeMem :=
  match cvode_mem with
  | None => (CVS_NO_MEM, None)
  | Some cv_mem =>
    match iter with
    | None => (CVS_ILL_INPUT, Some cv_mem)
    | Some iter => (SUCCESS, Some (cv_mem <| cv_iter := iter |>))
    end
  end.

Definition CVodeSetMaxNumSteps (cvode_mem : option CVodeMem) (mxsteps : Z)
    : cvs_flag * option CVodeMem :=
  match cvode_mem with
  | None => (CVS_NO_MEM, None)
  | Some cv_mem =>
    if (mxsteps <=? 0)%Z then (CVS_ILL_INPUT, Some cv_mem)
    else (SUCCESS, Some (cv_mem <| cv_mxstep := mxsteps |>))
  end.

Definition CVodeSetMaxHnilWarns (cvode_mem : option CVodeMem) (mxhnil : Z)
    : cvs_flag * option CVodeMem :=
  match cvode_mem with
  | None => (CVS_NO_MEM, None)
  | Some cv_mem => (SUCCESS, Some (cv_mem <| cv_mxhnil := mxhnil |>))
  end.

Definition CVodeSetStabLimDet (cvode_mem : option CVodeMem) (sldet : bool)
    : cvs_flag * option CVodeMem :=
  match cvode_mem with
  | None => (CVS_NO_MEM, None)
  | Some cv_mem =>
    if bool_decide (cv_lmm cv_mem <> BDF) then (CVS_ILL_INPUT, Some cv_mem)
    else (SUCCESS, Some (cv_mem <| cv_sldeton := sldet |>))
  end.

Definition CVodeSetInitStep (cvode_mem : option CVodeMem) (hin : R)
    : cvs_flag * option CVodeMem :=
  match cvode_mem with
  | None => (CVS_NO_MEM, None)
  | Some cv_mem => (SUCCESS, Some (cv_mem <| cv_hin := hin |>))
  end.

Definition CVodeSetMinStep (cvode_mem : option CVodeMem) (hmin : R)
    : cvs_flag * option CVodeMem :=
  match cvode_mem with
  | None => (CVS_NO_MEM, None)
  | Some cv_mem =>
    if Rle_dec hmin 0 then (CVS_ILL_INPUT, Some cv_mem)
    else if Rgt_dec (hmin * cv_hmax_inv cv_mem) ONE
    then (CVS_ILL_INPUT, Some cv_mem)
    else (SUCCESS, Some (cv_mem <| cv_hmin := hmin |>))
  end.

Definition CVodeSetMaxStep (cvode_mem : option CVodeMem) (hmax : R)
    : cvs_flag * option CVodeMem :=
  match cvode_mem with
  | None => (CVS_NO_MEM, None)
  | Some cv_mem =>
    if Rle_dec hmax 0 then (CVS_ILL_INPUT, Some cv_mem)
    else
      let hmax_inv := ONE / hmax in
      if Rgt_dec (hmax_inv * cv_hmin cv_mem) ONE
      then (CVS_ILL_INPUT, Some cv_mem)
      else (SUCCESS, Some (cv_mem <| cv_hmax_inv := hmax_inv |>))
  end.

Definition CVodeSetMaxConvFails (cvode_mem : option CVodeMem) (maxncf : Z)
    : cvs_flag * option CVodeMem :=
  match cvode_mem with
  | None => (CVS_NO_MEM, None)
  | Some cv_mem => (SUCCESS, Some (cv_mem <| cv_maxncf := maxncf |>))
  end.

Definition CVodeSetNonlinConvCoef (cvode_mem : option CVodeMem) (nlscoef : R)
    : cvs_flag * option CVodeMem :=
  match cvode_mem with
  | None => (CVS_NO_MEM, None)
  | Some cv_mem => (SUCCESS, Some (cv_mem <| cv_nlscoef := nlscoef |>))
  end.

(** A call of one of the optional input routines with its argument, and a
    sequence of such calls on one handle. *)
Inductive optional_input :=
  | ResetIterType (iter : option iter_t)
  | SetMaxOrd (maxord : Z)
  | SetMaxNumSteps (mxsteps : Z)
  | SetMaxHnilWarns (mxhnil : Z)
  | SetStabLimDet (sldet : bool)
  | SetInitStep (hin : R)
  | SetMinStep (hmin : R)
  | SetMaxStep (hmax : R)
  | SetMaxErrTestFails (maxnef : Z)
  | SetMaxConvFails (maxncf : Z)
  | SetMaxNonlinIters (maxcor : Z)
  | SetNonlinConvCoef (nlscoef : R).

Definition optional_input_call (c : optional_input)
    (cvode_mem : option CVodeMem) : cvs_flag * option CVodeMem :=
  match c with
  | ResetIterType iter => CVodeResetIterType cvode_mem iter
  | SetMaxOrd maxord => CVodeSetMaxOrd cvode_mem maxord
  | SetMaxNumSteps mxsteps => CVodeSetMaxNumSteps cvode_mem mxsteps
  | SetMaxHnilWarns mxhnil => CVodeSetMaxHnilWarns cvode_mem mxhnil
  | SetStabLimDet sldet => CVodeSetStabLimDet cvode_mem sldet
  | SetInitStep hin => CVodeSetInitStep cvode_mem hin
  | SetMinStep hmin => CVodeSetMinStep cvode_mem hmin
  | SetMaxStep hmax => CVodeSetMaxStep cvode_mem hmax
  | SetMaxErrTestFails maxnef => CVodeSetMaxErrTestFails cvode_mem maxnef
  | SetMaxConvFails maxncf => CVodeSetMaxConvFails cvode_mem maxncf
  | SetMaxNonlinIters maxcor => CVodeSetMaxNonlinIters cvode_mem maxcor
  | SetNonlinConvCoef nlscoef => CVodeSetNonlinConvCoef cvode_mem nlscoef
  end.

Fixpoint optional_input_calls (cs : list optional_input) (cv_mem : CVodeMem)
    : CVodeMem :=
  match cs with
  | [] => cv_mem
  | c :: rest =>
    match snd (optional_input_call c (Some cv_mem)) with
    | Some cv_mem' => optional_input_calls rest cv_mem'
    | None => cv_mem
    end
  end.

(** The memory of [created_example], and a BDF handle created the same
    way. *)
Definition created_memory (lmm : lmm_t) (iter : iter_t) : CVodeMem :=
  CVodeMem_zero <| cv_lmm := lmm |> <| cv_iter := iter |>
    <| cv_qmax := match lmm with ADAMS => 12%Z | BDF => 5%Z end |>
    <| cv_mxstep := 500%Z |>
    <| cv_mxhnil := 10%Z |> <| cv_maxcor := 3%Z |> <| cv_maxnef := 7%Z |>
    <| cv_maxncf := 10%Z |> <| cv_nlscoef := 0.1 |>
    <| cv_uround := 1 / 1000000 |> <| cv_ifS := ONESENS |>
    <| cv_maxcorS := 3%Z |>.

(** ** The arrays that [CVRescale] computes

    One iteration of the loop of [CVRescale] on the memory, and its effect
    on each history array: [rescale_step] is [N_VScale(factor, z[j], z[j])],
    [rescale_row] the loop over the sensitivity index on [znS[j]]. *)
Definition CVRescale_body (j : Z) (fs : R * CVodeMem) : R * CVodeMem :=
  let '(factor, s) := fs in
  let s := s <| cv_zn := vec_set (cv_zn s) j
                   (N_VScale factor (vec_at (cv_zn s) j)) |> in
  let s :=
    if cv_quad s then
      s <| cv_znQ := vec_set (cv_znQ s) j
              (N_VScale factor (vec_at (cv_znQ s) j)) |>
    else s in
  let s :=
    if cv_sensi s then
      for_upto 0 (cv_Ns s - 1) (fun is_ s =>
        s <| cv_znS := sens_set (cv_znS s) j is_
                (N_VScale factor (sens_at (cv_znS s) j is_)) |>) s
    else s in
  (factor * cv_eta s, s).

Definition rescale_step (factor : R) (j : Z) (z : list N_Vector)
    : list N_Vector :=
  vec_set z j (N_VScale factor (vec_at z j)).

Definition rescale_row (factor : R) (j Ns : Z) (zS : list (list N_Vector))
    : list (list N_Vector) :=
  for_upto 0 (Ns - 1) (fun is_ zS =>
    sens_set zS j is_ (N_VScale factor (sens_at zS j is_))) zS.

(** The columns [1..n] scaled by the powers of [eta]. *)
Definition rescale_cols (eta : R) (n : nat) (z : list N_Vector)
    : list N_Vector :=
  for_up n 1 (fun j z => rescale_step (eta ^ Z.to_nat j) j z) z.

Definition rescale_rows (eta : R) (n : nat) (Ns : Z)
    (zS : list (list N_Vector)) : list (list N_Vector) :=
  for_up n 1 (fun j zS => rescale_row (eta ^ Z.to_nat j) j Ns zS) zS.

(** An order-2 history with one quadrature and one sensitivity, to be
    rescaled by [eta = 1/2]. *)
Definition rescale_example : CVodeMem :=
  history_example <| cv_eta := 1 / 2 |> <| cv_hscale := 1 |>.

(** ** The nonlinear solver: [CVNls], [CVNlsFunctional], [CVNlsNewton],
    [CVNewtonIteration]

    The endless loops of these routines ([loop { ... }]) leave through a
    [return]; one pass through the body yields either the value returned
    ([inl]) or the local variables and the memory with which the next pass
    starts ([inr]), and the loop repeats the pass while [fuel] lasts
    ([None] when it runs out).

    The linear solver is a parameter: [LS] is its memory ([lmem]);
    [lsetup ls cv_mem convfail ypred fpred] returns [ier], the value
    stored through [&jcur] and the new memory; [lsolve ls cv_mem b weight
    ycur fcur] returns [ret], the contents of [b] after the call and the
    new memory.  The solver is taken to write nothing else; the work
    vectors [vtemp1], [vtemp2], [vtemp3] handed to [lsetup] ([acor], [y],
    [tempv]) are overwritten by the integrator before it reads them
    again and are not modelled. *)
Section NonlinearSolver.
Variable f : R -> N_Vector -> N_Vector.
Variable fS : Z -> R -> N_Vector -> N_Vector -> list N_Vector -> list N_Vector.
Variable fS1 : Z -> R -> N_Vector -> N_Vector -> Z -> N_Vector -> N_Vector.
Variable LS : Type.
Variable lsetup : LS -> CVodeMem -> convfail_t -> N_Vector -> N_Vector
                  -> Z * bool * LS.
Variable lsolve : LS -> CVodeMem -> N_Vector -> N_Vector -> N_Vector
                  -> N_Vector -> Z * N_Vector * LS.

(** [CVSensRhs(cv_mem, time, ycur, fcur, yScur, fScur, wrk1, wrk2)] with
    the result stored in [tempvS], respectively in [ftempS]. *)
Definition sens_rhs_tempvS (cv_mem : CVodeMem) (ycur fcur : N_Vector)
    (yScur : list N_Vector) : CVodeMem :=
  let '(fScur, cv_mem) :=
    CVSensRhs fS fS1 cv_mem (cv_tn cv_mem) ycur fcur yScur
      (cv_tempvS cv_mem) in
  cv_mem <| cv_tempvS := fScur |>.

Definition sens_rhs_ftempS (cv_mem : CVodeMem) (ycur fcur : N_Vector)
    (yScur : list N_Vector) : CVodeMem :=
  let '(fScur, cv_mem) :=
    CVSensRhs fS fS1 cv_mem (cv_tn cv_mem) ycur fcur yScur
      (cv_ftempS cv_mem) in
  cv_mem <| cv_ftempS := fScur |>.

(** The convergence test has succeeded: [acnrm] is set. *)
Definition nls_set_acnrm (do_sensi_sim : bool) (m : Z) (del delS : R)
    (cv_mem : CVodeMem) : CVodeMem :=
  if (m =? 0)%Z then
    if do_sensi_sim && bool_decide (cv_errcon cv_mem = FULL)
    then cv_mem <| cv_acnrm := delS |>
    else cv_mem <| cv_acnrm := del |>
  else
    let cv_mem :=
      cv_mem <| cv_acnrm := N_VWrmsNorm (cv_acor cv_mem) (cv_ewt cv_mem) |> in
    if do_sensi_sim && bool_decide (cv_errcon cv_mem = FULL)
    then cv_mem <| cv_acnrm := CVSensUpdateNorm cv_mem (cv_acnrm cv_mem)
                                 (cv_acorS cv_mem) (cv_ewtS cv_mem) |>
    else cv_mem.

(** One pass through the loop of [CVNlsFunctional]; [m] and [Delp] are
    the local variables of the routine. *)
Definition CVNlsFunctional_pass (do_sensi_sim : bool) (m : Z) (Delp : R)
    (cv_mem : CVodeMem) : (Z * CVodeMem) + (Z * R * CVodeMem) :=
  let cv_mem := cv_mem <| cv_nni := (cv_nni cv_mem + 1)%Z |> in
  (* correct y directly from the last f value *)
  let cv_mem :=
    cv_mem <| cv_tempv := N_VLinearSum (cv_h cv_mem) (cv_tempv cv_mem)
                            (- ONE) (vec_at (cv_zn cv_mem) 1) |> in
  let cv_mem :=
    cv_mem <| cv_tempv := N_VScale (cv_rl1 cv_mem) (cv_tempv cv_mem) |> in
  let cv_mem :=
    cv_mem <| cv_y := N_VLinearSum ONE (vec_at (cv_zn cv_mem) 0)
                        ONE (cv_tempv cv_mem) |> in
  let cv_mem :=
    if do_sensi_sim then
      for_upto 0 (cv_Ns cv_mem - 1) (fun is_ s =>
        let s := s <| cv_tempvS := vec_set (cv_tempvS s) is_
                        (N_VLinearSum (cv_h s) (vec_at (cv_tempvS s) is_)
                           (- ONE) (sens_at (cv_znS s) 1 is_)) |> in
        let s := s <| cv_tempvS := vec_set (cv_tempvS s) is_
                        (N_VScale (cv_rl1 s) (vec_at (cv_tempvS s) is_)) |> in
        s <| cv_yS := vec_set (cv_yS s) is_
               (N_VLinearSum ONE (sens_at (cv_znS s) 0 is_)
                  ONE (vec_at (cv_tempvS s) is_)) |>) cv_mem
    else cv_mem in
  (* norm of the current correction *)
  let cv_mem :=
    cv_mem <| cv_acor := N_VLinearSum ONE (cv_tempv cv_mem)
                           (- ONE) (cv_acor cv_mem) |> in
  let cv_mem :=
    if do_sensi_sim then
      for_upto 0 (cv_Ns cv_mem - 1) (fun is_ s =>
        s <| cv_acorS := vec_set (cv_acorS s) is_
               (N_VLinearSum ONE (vec_at (cv_tempvS s) is_)
                  (- ONE) (vec_at (cv_acorS s) is_)) |>) cv_mem
    else cv_mem in
  let del := N_VWrmsNorm (cv_acor cv_mem) (cv_ewt cv_mem) in
  let delS := CVSensUpdateNorm cv_mem del (cv_acorS cv_mem) (cv_ewtS cv_mem) in
  let cv_mem := cv_mem <| cv_acor := N_VScale ONE (cv_tempv cv_mem) |> in
  let cv_mem :=
    if do_sensi_sim then
      for_upto 0 (cv_Ns cv_mem - 1) (fun is_ s =>
        s <| cv_acorS := vec_set (cv_acorS s) is_
               (N_VScale ONE (vec_at (cv_tempvS s) is_)) |>) cv_mem
    else cv_mem in
  (* test for convergence *)
  let Del := if do_sensi_sim then delS else del in
  let cv_mem :=
    if (m >? 0)%Z
    then cv_mem <| cv_crate := MAX (CRDOWN * cv_crate cv_mem) (Del / Delp) |>
    else cv_mem in
  let dcon := Del * MIN ONE (cv_crate cv_mem) / real_at (cv_tq cv_mem) 4 in
  if Rle_dec dcon ONE then
    inl (SOLVED, nls_set_acnrm do_sensi_sim m del delS cv_mem)
  else
    (* stop at maxcor iterations or if the iteration seems to diverge *)
    let m := (m + 1)%Z in
    if (m =? cv_maxcor cv_mem)%Z
       || ((m >=? 2)%Z && bool_decide (Del > RDIV * Delp))
    then inl (CONV_FAIL, cv_mem)
    else
      (* save the norm of the correction, evaluate f, and loop again *)
      let Delp := Del in
      let cv_mem := cv_mem <| cv_tempv := f (cv_tn cv_mem) (cv_y cv_mem) |> in
      let cv_mem := cv_mem <| cv_nfe := (cv_nfe cv_mem + 1)%Z |> in
      let cv_mem :=
        if do_sensi_sim
        then sens_rhs_tempvS cv_mem (cv_y cv_mem) (cv_tempv cv_mem)
               (cv_yS cv_mem)
        else cv_mem in
      inr (m, Delp, cv_mem).

Fixpoint CVNlsFunctional_loop (fuel : nat) (do_sensi_sim : bool) (m : Z)
    (Delp : R) (cv_mem : CVodeMem) : option (Z * CVodeMem) :=
  match fuel with
  | O => None
  | S fuel' =>
    match CVNlsFunctional_pass do_sensi_sim m Delp cv_mem with
    | inl result => Some result
    | inr (m, Delp, cv_mem) =>
        CVNlsFunctional_loop fuel' do_sensi_sim m Delp cv_mem
    end
  end.

(** [CVNlsFunctional].  [Delp] is not initialised in C; it is assigned
    before the first pass that reads it, and starts as zero here. *)
Definition CVNlsFunctional (fuel : nat) (cv_mem : CVodeMem)
    : option (Z * CVodeMem) :=
  let do_sensi_sim :=
    cv_sensi cv_mem && bool_decide (cv_ism cv_mem = SIMULTANEOUS) in
  (* initialize the counter and evaluate f at the predicted y *)
  let cv_mem := cv_mem <| cv_crate := ONE |> in
  let m := 0%Z in
  let cv_mem :=
    cv_mem <| cv_tempv := f (cv_tn cv_mem) (vec_at (cv_zn cv_mem) 0) |> in
  let cv_mem := cv_mem <| cv_nfe := (cv_nfe cv_mem + 1)%Z |> in
  let cv_mem :=
    if do_sensi_sim
    then sens_rhs_tempvS cv_mem (vec_at (cv_zn cv_mem) 0) (cv_tempv cv_mem)
           (nth 0 (cv_znS cv_mem) [])
    else cv_mem in
  (* initialize the correction to zero *)
  let cv_mem := cv_mem <| cv_acor := N_VConst ZERO (cv_acor cv_mem) |> in
  let cv_mem :=
    if do_sensi_sim then
      for_upto 0 (cv_Ns cv_mem - 1) (fun is_ s =>
        s <| cv_acorS := vec_set (cv_acorS s) is_
               (N_VConst ZERO (vec_at (cv_acorS s) is_)) |>) cv_mem
    else cv_mem in
  CVNlsFunctional_loop fuel do_sensi_sim m 0 cv_mem.

(** What [CVNewtonIteration] returns after a recoverable failure. *)
Definition newton_recoverable (cv_mem : CVodeMem) : Z :=
  if negb (cv_jcur cv_mem) && cv_setupNonNull cv_mem then TRY_AGAIN
  else CONV_FAIL.

(** The loop that solves the sensitivity systems,
    [for (is = 0; is < Ns; is++) { ret = lsolve(cv_mem, bS[is], ...); ... }]
    with [bS = tempvS]: the result is the value returned from inside the
    loop, if any. *)
Fixpoint newton_sens_solves (n : nat) (is_ : Z) (ls : LS) (cv_mem : CVodeMem)
    : option Z * LS * CVodeMem :=
  match n with
  | O => (None, ls, cv_mem)
  | S n' =>
    let '(ret, b, ls) :=
      lsolve ls cv_mem (vec_at (cv_tempvS cv_mem) is_)
        (vec_at (cv_ewtS cv_mem) is_) (cv_y cv_mem) (cv_ftemp cv_mem) in
    let cv_mem := cv_mem <| cv_tempvS := vec_set (cv_tempvS cv_mem) is_ b |> in
    if (ret <? 0)%Z then (Some SOLVE_FAIL_UNREC, ls, cv_mem)
    else if (ret >? 0)%Z then (Some (newton_recoverable cv_mem), ls, cv_mem)
    else newton_sens_solves n' (is_ + 1)%Z ls cv_mem
  end.

(** The sensitivity systems of one Newton pass: the residuals are formed
    in [tempvS], then each system is solved. *)
Definition newton_sens_systems (ls : LS) (cv_mem : CVodeMem)
    : option Z * LS * CVodeMem :=
  let cv_mem :=
    for_upto 0 (cv_Ns cv_mem - 1) (fun is_ s =>
      let s := s <| cv_tempvS := vec_set (cv_tempvS s) is_
                      (N_VLinearSum (cv_rl1 s) (sens_at (cv_znS s) 1 is_)
                         ONE (vec_at (cv_acorS s) is_)) |> in
      s <| cv_tempvS := vec_set (cv_tempvS s) is_
             (N_VLinearSum (cv_gamma s) (vec_at (cv_ftempS s) is_)
                (- ONE) (vec_at (cv_tempvS s) is_)) |>) cv_mem in
  newton_sens_solves (Z.to_nat (cv_Ns cv_mem)) 0 ls cv_mem.

(** One pass through the loop of [CVNewtonIteration]. *)
Definition CVNewtonIteration_pass (do_sensi_sim : bool) (m : Z) (Delp : R)
    (ls : LS) (cv_mem : CVodeMem)
    : (Z * LS * CVodeMem) + (Z * R * LS * CVodeMem) :=
  (* evaluate the residual of the nonlinear system *)
  let cv_mem :=
    cv_mem <| cv_tempv := N_VLinearSum (cv_rl1 cv_mem) (vec_at (cv_zn cv_mem) 1)
                            ONE (cv_acor cv_mem) |> in
  let cv_mem :=
    cv_mem <| cv_tempv := N_VLinearSum (cv_gamma cv_mem) (cv_ftemp cv_mem)
                            (- ONE) (cv_tempv cv_mem) |> in
  (* call the lsolve function; b = tempv *)
  let '(ret, b, ls) :=
    lsolve ls cv_mem (cv_tempv cv_mem) (cv_ewt cv_mem) (cv_y cv_mem)
      (cv_ftemp cv_mem) in
  let cv_mem := cv_mem <| cv_tempv := b |> in
  let cv_mem := cv_mem <| cv_nni := (cv_nni cv_mem + 1)%Z |> in
  if (ret <? 0)%Z then inl (SOLVE_FAIL_UNREC, ls, cv_mem)
  else if (ret >? 0)%Z then inl (newton_recoverable cv_mem, ls, cv_mem)
  else
    (* solve the sensitivity linear systems *)
    let '(early, ls, cv_mem) :=
      if do_sensi_sim then newton_sens_systems ls cv_mem
      else (None, ls, cv_mem) in
    match early with
    | Some flag => inl (flag, ls, cv_mem)
    | None =>
      (* norm of the correction; add the correction to acor and y *)
      let del := N_VWrmsNorm (cv_tempv cv_mem) (cv_ewt cv_mem) in
      let cv_mem :=
        cv_mem <| cv_acor := N_VLinearSum ONE (cv_acor cv_mem)
                               ONE (cv_tempv cv_mem) |> in
      let cv_mem :=
        cv_mem <| cv_y := N_VLinearSum ONE (vec_at (cv_zn cv_mem) 0)
                            ONE (cv_acor cv_mem) |> in
      let delS :=
        CVSensUpdateNorm cv_mem del (cv_tempvS cv_mem) (cv_ewtS cv_mem) in
      let cv_mem :=
        if do_sensi_sim then
          for_upto 0 (cv_Ns cv_mem - 1) (fun is_ s =>
            let s := s <| cv_acorS := vec_set (cv_acorS s) is_
                            (N_VLinearSum ONE (vec_at (cv_acorS s) is_)
                               ONE (vec_at (cv_tempvS s) is_)) |> in
            s <| cv_yS := vec_set (cv_yS s) is_
                   (N_VLinearSum ONE (sens_at (cv_znS s) 0 is_)
                      ONE (vec_at (cv_acorS s) is_)) |>) cv_mem
        else cv_mem in
      (* test for convergence *)
      let Del := if do_sensi_sim then delS else del in
      let cv_mem :=
        if (m >? 0)%Z
        then cv_mem <| cv_crate := MAX (CRDOWN * cv_crate cv_mem) (Del / Delp) |>
        else cv_mem in
      let dcon := Del * MIN ONE (cv_crate cv_mem) / real_at (cv_tq cv_mem) 4 in
      if Rle_dec dcon ONE then
        let cv_mem := nls_set_acnrm do_sensi_sim m del delS cv_mem in
        let cv_mem := cv_mem <| cv_jcur := false |> in
        inl (SOLVED, ls, cv_mem)
      else
        let m := (m + 1)%Z in
        let cv_mem := cv_mem <| cv_mnewt := m |> in
        if (m =? cv_maxcor cv_mem)%Z
           || ((m >=? 2)%Z && bool_decide (Del > RDIV * Delp))
        then inl (newton_recoverable cv_mem, ls, cv_mem)
        else
          (* save the norm of the correction, evaluate f, and loop again *)
          let Delp := Del in
          let cv_mem :=
            cv_mem <| cv_ftemp := f (cv_tn cv_mem) (cv_y cv_mem) |> in
          let cv_mem := cv_mem <| cv_nfe := (cv_nfe cv_mem + 1)%Z |> in
          let cv_mem :=
            if do_sensi_sim
            then sens_rhs_ftempS cv_mem (cv_y cv_mem) (cv_ftemp cv_mem)
                   (cv_yS cv_mem)
            else cv_mem in
          inr (m, Delp, ls, cv_mem)
    end.

Fixpoint CVNewtonIteration_loop (fuel : nat) (do_sensi_sim : bool) (m : Z)
    (Delp : R) (ls : LS) (cv_mem : CVodeMem) : option (Z * LS * CVodeMem) :=
  match fuel with
  | O => None
  | S fuel' =>
    match CVNewtonIteration_pass do_sensi_sim m Delp ls cv_mem with
    | inl result => Some result
    | inr (m, Delp, ls, cv_mem) =>
        CVNewtonIteration_loop fuel' do_sensi_sim m Delp ls cv_mem
    end
  end.

Definition CVNewtonIteration (fuel : nat) (ls : LS) (cv_mem : CVodeMem)
    : option (Z * LS * CVodeMem) :=
  let do_sensi_sim :=
    cv_sensi cv_mem && bool_decide (cv_ism cv_mem = SIMULTANEOUS) in
  let m := 0%Z in
  let cv_mem := cv_mem <| cv_mnewt := m |> in
  CVNewtonIteration_loop fuel do_sensi_sim m 0 ls cv_mem.

(** The call of [lsetup] in [CVNlsNewton], made if [callSetup] is set, and
    the assignments that follow it; [ier] is only read after a call and is
    zero here otherwise. *)
Definition newton_setup (callSetup : bool) (convfail : convfail_t) (ls : LS)
    (cv_mem : CVodeMem) : Z * LS * CVodeMem :=
  if callSetup then
    let '(ier, jcur, ls) :=
      lsetup ls cv_mem convfail (vec_at (cv_zn cv_mem) 0) (cv_ftemp cv_mem) in
    let cv_mem := cv_mem <| cv_jcur := jcur |> in
    let cv_mem := cv_mem <| cv_nsetups := (cv_nsetups cv_mem + 1)%Z |> in
    let cv_mem := cv_mem <| cv_forceSetup := false |> in
    let cv_mem := cv_mem <| cv_gamrat := ONE |> in
    let cv_mem := cv_mem <| cv_gammap := cv_gamma cv_mem |> in
    let cv_mem := cv_mem <| cv_crate := ONE |> in
    let cv_mem := cv_mem <| cv_crateS := ONE |> in
    let cv_mem := cv_mem <| cv_nstlp := cv_nst cv_mem |> in
    (ier, ls, cv_mem)
  else (0%Z, ls, cv_mem).

(** One pass through the loop of [CVNlsNewton]; [callSetup] and
    [convfail] are the local variables, [fuel] bounds the passes of the
    Newton iteration that is called. *)
Definition CVNlsNewton_pass (fuel : nat) (do_sensi_sim callSetup : bool)
    (convfail : convfail_t) (ls : LS) (cv_mem : CVodeMem)
    : option ((Z * LS * CVodeMem) + (bool * convfail_t * LS * CVodeMem)) :=
  let cv_mem :=
    cv_mem <| cv_ftemp := f (cv_tn cv_mem) (vec_at (cv_zn cv_mem) 0) |> in
  let cv_mem := cv_mem <| cv_nfe := (cv_nfe cv_mem + 1)%Z |> in
  let cv_mem :=
    if do_sensi_sim
    then sens_rhs_ftempS cv_mem (vec_at (cv_zn cv_mem) 0) (cv_ftemp cv_mem)
           (nth 0 (cv_znS cv_mem) [])
    else cv_mem in
  let '(ier, ls, cv_mem) := newton_setup callSetup convfail ls cv_mem in
  (* return if lsetup failed *)
  if (ier <? 0)%Z then Some (inl (SETUP_FAIL_UNREC, ls, cv_mem))
  else if (ier >? 0)%Z then Some (inl (CONV_FAIL, ls, cv_mem))
  else
    (* set acor to zero and load the prediction into y *)
    let cv_mem := cv_mem <| cv_acor := N_VConst ZERO (cv_acor cv_mem) |> in
    let cv_mem := cv_mem <| cv_y := N_VScale ONE (vec_at (cv_zn cv_mem) 0) |> in
    let cv_mem :=
      if do_sensi_sim then
        for_upto 0 (cv_Ns cv_mem - 1) (fun is_ s =>
          let s := s <| cv_acorS := vec_set (cv_acorS s) is_
                          (N_VConst ZERO (vec_at (cv_acorS s) is_)) |> in
          s <| cv_yS := vec_set (cv_yS s) is_
                 (N_VScale ONE (sens_at (cv_znS s) 0 is_)) |>) cv_mem
      else cv_mem in
    (* do the Newton iteration *)
    match CVNewtonIteration fuel ls cv_mem with
    | None => None
    | Some (ier, ls, cv_mem) =>
      if negb (ier =? TRY_AGAIN)%Z then Some (inl (ier, ls, cv_mem))
      else Some (inr (true, FAIL_BAD_J, ls, cv_mem))
    end.

Fixpoint CVNlsNewton_loop (passes fuel : nat) (do_sensi_sim callSetup : bool)
    (convfail : convfail_t) (ls : LS) (cv_mem : CVodeMem)
    : option (Z * LS * CVodeMem) :=
  match passes with
  | O => None
  | S passes' =>
    match CVNlsNewton_pass fuel do_sensi_sim callSetup convfail ls cv_mem with
    | None => None
    | Some (inl result) => Some result
    | Some (inr (callSetup, convfail, ls, cv_mem)) =>
        CVNlsNewton_loop passes' fuel do_sensi_sim callSetup convfail ls cv_mem
    end
  end.

(** [CVNlsNewton]: [passes] bounds the attempts at the Newton iteration,
    [fuel] the passes of each attempt. *)
Definition CVNlsNewton (passes fuel : nat) (ls : LS) (cv_mem : CVodeMem)
    (nflag : Z) : option (Z * LS * CVodeMem) :=
  let do_sensi_sim :=
    cv_sensi cv_mem && bool_decide (cv_ism cv_mem = SIMULTANEOUS) in
  (* set flag convfail, input to lsetup for its evaluation decision *)
  let convfail :=
    if (nflag =? FIRST_CALL)%Z || (nflag =? PREV_ERR_FAIL)%Z
    then NO_FAILURES else FAIL_OTHER in
  (* decide whether or not to call the setup routine (if one exists) *)
  let '(callSetup, convfail, cv_mem) :=
    if cv_setupNonNull cv_mem then
      let callSetup :=
        (nflag =? PREV_CONV_FAIL)%Z || (nflag =? PREV_ERR_FAIL)%Z
        || (cv_nst cv_mem =? 0)%Z
        || (cv_nst cv_mem >=? cv_nstlp cv_mem + MSBP)%Z
        || bool_decide (ABS (cv_gamrat cv_mem - ONE) > DGMAX) in
      if cv_forceSetup cv_mem then (true, FAIL_OTHER, cv_mem)
      else (callSetup, convfail, cv_mem)
    else
      let cv_mem := cv_mem <| cv_crate := ONE |> in
      let cv_mem := cv_mem <| cv_crateS := ONE |> in
      (false, convfail, cv_mem) in
  CVNlsNewton_loop passes fuel do_sensi_sim callSetup convfail ls cv_mem.

(** [CVNls]: the iteration chosen by [iter]. *)
Definition CVNls (passes fuel : nat) (ls : LS) (cv_mem : CVodeMem) (nflag : Z)
    : option (Z * LS * CVodeMem) :=
  match cv_iter cv_mem with
  | FUNCTIONAL =>
    match CVNlsFunctional fuel cv_mem with
    | Some (flag, cv_mem) => Some (flag, ls, cv_mem)
    | None => None
    end
  | NEWTON => CVNlsNewton passes fuel ls cv_mem nflag
  end.
End NonlinearSolver.

(** The vectors and the counter that only the sensitivity part of the
    nonlinear solver writes, replaced by given values; [sens_rest] forgets
    them. *)
Definition with_sens_work (s : CVodeMem)
    (tempvS yS acorS ftempS : list N_Vector) (nfSe : Z) : CVodeMem :=
  s <| cv_tempvS := tempvS |> <| cv_yS := yS |> <| cv_acorS := acorS |>
    <| cv_ftempS := ftempS |> <| cv_nfSe := nfSe |>.

Definition sens_rest (s : CVodeMem) : CVodeMem :=
  with_sens_work s [] [] [] [] 0.

(** The members that the corrector iterations ([CVNlsFunctional],
    [CVNewtonIteration]) write, taken from [w]; every other member is the
    one of [s]. *)
Definition iter_written (w s : CVodeMem) : CVodeMem :=
  s <| cv_tempv := cv_tempv w |> <| cv_y := cv_y w |>
    <| cv_acor := cv_acor w |> <| cv_ftemp := cv_ftemp w |>
    <| cv_tempvS := cv_tempvS w |> <| cv_yS := cv_yS w |>
    <| cv_acorS := cv_acorS w |> <| cv_ftempS := cv_ftempS w |>
    <| cv_nfSe := cv_nfSe w |> <| cv_nfe := cv_nfe w |>
    <| cv_nni := cv_nni w |> <| cv_crate := cv_crate w |>
    <| cv_acnrm := cv_acnrm w |> <| cv_mnewt := cv_mnewt w |>
    <| cv_jcur := cv_jcur w |>.

(** The members that [CVNlsNewton] writes: those of the iteration and
    those assigned around a call of [lsetup]. *)
Definition nls_written (w s : CVodeMem) : CVodeMem :=
  (iter_written w s)
    <| cv_crateS := cv_crateS w |>
    <| cv_nsetups := cv_nsetups w |> <| cv_forceSetup := cv_forceSetup w |>
    <| cv_gamrat := cv_gamrat w |> <| cv_gammap := cv_gammap w |>
    <| cv_nstlp := cv_nstlp w |>.

(** The Nordsieck arrays, the step size, the order and the time of [s']
    are those of [s]. *)
Definition history_kept (s s' : CVodeMem) : Prop :=
  cv_zn s' = cv_zn s /\ cv_znQ s' = cv_znQ s /\ cv_znS s' = cv_znS s
  /\ cv_h s' = cv_h s /\ cv_q s' = cv_q s /\ cv_tn s' = cv_tn s.

(** A created integrator with one sensitivity, corrected simultaneously
    with the states. *)
Definition sim_example (lmm : lmm_t) (iter : iter_t) : CVodeMem :=
  (created_memory lmm iter) <| cv_sensi := true |> <| cv_Ns := 1%Z |>
    <| cv_ism := SIMULTANEOUS |>.

(** A linear solver without memory: every solve succeeds and leaves [b]
    as it is; the setup succeeds and reports current Jacobian data. *)
Definition lsetup_example (ls : unit) (cv_mem : CVodeMem)
    (convfail : convfail_t) (ypred fpred : N_Vector) : Z * bool * unit :=
  (0%Z, true, ls).

Definition lsolve_example (ls : unit) (cv_mem : CVodeMem)
    (b weight ycur fcur : N_Vector) : Z * N_Vector * unit :=
  (0%Z, b, ls).

(** The members assigned after a call of [lsetup]: as the call leaves
    them when [called] is set, as in [s] otherwise. *)
Definition setup_state (called : bool) (s s' : CVodeMem) : Prop :=
  if called
  then cv_gamrat s' = ONE /\ cv_gammap s' = cv_gamma s
       /\ cv_nstlp s' = cv_nst s /\ cv_forceSetup s' = false
  else cv_gamrat s' = cv_gamrat s /\ cv_gammap s' = cv_gammap s
       /\ cv_nstlp s' = cv_nstlp s /\ cv_forceSetup s' = cv_forceSetup s.

Definition after_setup (called : bool) (s s' : CVodeMem) : Prop :=
  cv_nsetups s' = (cv_nsetups s + (if called then 1 else 0))%Z
  /\ setup_state called s s'.

(** The decision of [CVNlsNewton] to call [lsetup] before the first
    Newton iteration. *)
Definition newton_callSetup (cv_mem : CVodeMem) (nflag : Z) : bool :=
  cv_setupNonNull cv_mem
  && (cv_forceSetup cv_mem
      || (nflag =? PREV_CONV_FAIL)%Z || (nflag =? PREV_ERR_FAIL)%Z
      || (cv_nst cv_mem =? 0)%Z
      || (cv_nst cv_mem >=? cv_nstlp cv_mem + MSBP)%Z
      || bool_decide (ABS (cv_gamrat cv_mem - ONE) > DGMAX)).

(** * Binary64 arithmetic

    [realtype] as the C compiler has it: the IEEE 754 binary64 format of
    [double], every operation rounded to nearest.  The module embeds
    [CVPredict], [CVRestore] and the head of [CVDoErrorTest] (up to the
    return with [REP_ERR_FAIL]) on a memory that holds the members these
    routines read or write. *)
Module Binary64.
#[local] Set Warnings "-inexact-float".

Definition realtype := PrimFloat.float.
Definition N_Vector := list realtype.

Definition ONE : realtype := 1%float.
Definition ONEPSM : realtype := 1.000001%float.
Definition ABS (x : realtype) : realtype := PrimFloat.abs x.

(** Modelled from the spec: [N_VLinearSum] (nvector module, not among the
    sources): [linear_sum(a, x, b, y, z)] is [z := a*x + b*y], each product
    and the sum rounded.  For [a], [b] in [{1, -1}] the products are exact
    and the component is the rounded sum or difference. *)
Definition N_VLinearSum (a : realtype) (x : N_Vector) (b : realtype)
    (y : N_Vector) : N_Vector :=
  zip_with (fun xi yi => (a * xi + b * yi)%float) x y.

Definition vec_at (a : list N_Vector) (j : Z) : N_Vector := nth (Z.to_nat j) a [].
Definition real_at (a : list realtype) (j : Z) : realtype :=
  nth (Z.to_nat j) a 0%float.
Definition vec_set (a : list N_Vector) (j : Z) (v : N_Vector) : list N_Vector :=
  <[Z.to_nat j := v]> a.
Definition sens_at (a : list (list N_Vector)) (j is_ : Z) : N_Vector :=
  vec_at (nth (Z.to_nat j) a []) is_.
Definition sens_set (a : list (list N_Vector)) (j is_ : Z) (v : N_Vector)
    : list (list N_Vector) :=
  <[Z.to_nat j := <[Z.to_nat is_ := v]> (nth (Z.to_nat j) a [])]> a.

Record CVodeMemRec := mkCVodeMem {
  cv_tn : realtype;
  cv_h : realtype;
  cv_hmin : realtype;
  cv_q : Z;
  cv_zn : list N_Vector;
  cv_quad : bool;
  cv_znQ : list N_Vector;
  cv_sensi : bool;
  cv_Ns : Z;
  cv_znS : list (list N_Vector);
  cv_acnrm : realtype;
  cv_tq : list realtype;
  cv_netf : Z;
  cv_maxnef : Z
}.

Definition CVodeMem := CVodeMemRec.

#[global] Instance set_cv_tn : Setter cv_tn := fun v s =>
  mkCVodeMem v (cv_h s) (cv_hmin s) (cv_q s) (cv_zn s) (cv_quad s) (cv_znQ s)
    (cv_sensi s) (cv_Ns s) (cv_znS s) (cv_acnrm s) (cv_tq s) (cv_netf s)
    (cv_maxnef s).
#[global] Instance set_cv_zn : Setter cv_zn := fun v s =>
  mkCVodeMem (cv_tn s) (cv_h s) (cv_hmin s) (cv_q s) v (cv_quad s) (cv_znQ s)
    (cv_sensi s) (cv_Ns s) (cv_znS s) (cv_acnrm s) (cv_tq s) (cv_netf s)
    (cv_maxnef s).
#[global] Instance set_cv_znQ : Setter cv_znQ := fun v s =>
  mkCVodeMem (cv_tn s) (cv_h s) (cv_hmin s) (cv_q s) (cv_zn s) (cv_quad s) v
    (cv_sensi s) (cv_Ns s) (cv_znS s) (cv_acnrm s) (cv_tq s) (cv_netf s)
    (cv_maxnef s).
#[global] Instance set_cv_znS : Setter cv_znS := fun v s =>
  mkCVodeMem (cv_tn s) (cv_h s) (cv_hmin s) (cv_q s) (cv_zn s) (cv_quad s)
    (cv_znQ s) (cv_sensi s) (cv_Ns s) v (cv_acnrm s) (cv_tq s) (cv_netf s)
    (cv_maxnef s).
#[global] Instance set_cv_netf : Setter cv_netf := fun v s =>
  mkCVodeMem (cv_tn s) (cv_h s) (cv_hmin s) (cv_q s) (cv_zn s) (cv_quad s)
    (cv_znQ s) (cv_sensi s) (cv_Ns s) (cv_znS s) (cv_acnrm s) (cv_tq s) v
    (cv_maxnef s).

(** [CVPredict]: [tn += h], then the additions on [zn], on [znQ] when
    quadratures are active and on every [znS[.][is]] when sensitivities
    are active. *)
Definition CVPredict (cv_mem : CVodeMem) : CVodeMem :=
  let q := cv_q cv_mem in
  let cv_mem := cv_mem <| cv_tn := (cv_tn cv_mem + cv_h cv_mem)%float |> in
  let cv_mem :=
    for_upto 1 q (fun k =>
      for_downto q k (fun j s =>
        s <| cv_zn := vec_set (cv_zn s) (j - 1)
               (N_VLinearSum ONE (vec_at (cv_zn s) (j - 1))
                             ONE (vec_at (cv_zn s) j)) |>)) cv_mem in
  let cv_mem :=
    if cv_quad cv_mem then
      for_upto 1 q (fun k =>
        for_downto q k (fun j s =>
          s <| cv_znQ := vec_set (cv_znQ s) (j - 1)
                 (N_VLinearSum ONE (vec_at (cv_znQ s) (j - 1))
                               ONE (vec_at (cv_znQ s) j)) |>)) cv_mem
    else cv_mem in
  if cv_sensi cv_mem then
    for_upto 0 (cv_Ns cv_mem - 1) (fun is_ =>
      for_upto 1 q (fun k =>
        for_downto q k (fun j s =>
          s <| cv_znS := sens_set (cv_znS s) (j - 1) is_
                 (N_VLinearSum ONE (sens_at (cv_znS s) (j - 1) is_)
                               ONE (sens_at (cv_znS s) j is_)) |>))) cv_mem
  else cv_mem.

(** [CVRestore]: [tn = saved_t], then the same loops with subtraction. *)
Definition CVRestore (cv_mem : CVodeMem) (saved_t : realtype) : CVodeMem :=
  let q := cv_q cv_mem in
  let cv_mem := cv_mem <| cv_tn := saved_t |> in
  let cv_mem :=
    for_upto 1 q (fun k =>
      for_downto q k (fun j s =>
        s <| cv_zn := vec_set (cv_zn s) (j - 1)
               (N_VLinearSum ONE (vec_at (cv_zn s) (j - 1))
                             (- ONE)%float (vec_at (cv_zn s) j)) |>)) cv_mem in
  let cv_mem :=
    if cv_quad cv_mem then
      for_upto 1 q (fun k =>
        for_downto q k (fun j s =>
          s <| cv_znQ := vec_set (cv_znQ s) (j - 1)
                 (N_VLinearSum ONE (vec_at (cv_znQ s) (j - 1))
                               (- ONE)%float (vec_at (cv_znQ s) j)) |>)) cv_mem
    else cv_mem in
  if cv_sensi cv_mem then
    for_upto 0 (cv_Ns cv_mem - 1) (fun is_ =>
      for_upto 1 q (fun k =>
        for_downto q k (fun j s =>
          s <| cv_znS := sens_set (cv_znS s) (j - 1) is_
                 (N_VLinearSum ONE (sens_at (cv_znS s) (j - 1) is_)
                               (- ONE)%float (sens_at (cv_znS s) j is_)) |>))) cv_mem
  else cv_mem.

(** The values [CVDoErrorTest] leaves in [*nflagPtr], [*kflagPtr],
    [*nefPtr], [*dsmPtr], its return value and the memory. *)
Record error_test_result := mkErrorTest {
  et_passed : bool;
  et_nflag : Z;
  et_kflag : Z;
  et_nef : Z;
  et_dsm : realtype;
  et_mem : CVodeMem
}.

(** [CVDoErrorTest] up to the test for a repeated failure: [inl] is a
    return of the routine (the test passed, or [kflag = REP_ERR_FAIL]);
    [inr] carries [nflag], [nef], [dsm] and the restored memory to the
    choice of the next step size, which this module does not embed. *)
Definition CVDoErrorTest (cv_mem : CVodeMem) (nflag kflag : Z)
    (saved_t : realtype) (nef : Z)
    : error_test_result + Z * Z * realtype * CVodeMem :=
  let dsm := (cv_acnrm cv_mem / real_at (cv_tq cv_mem) 2)%float in
  if (dsm <=? ONE)%float then inl (mkErrorTest true nflag kflag nef dsm cv_mem)
  else
    let nef := (nef + 1)%Z in
    let cv_mem := cv_mem <| cv_netf := (cv_netf cv_mem + 1)%Z |> in
    let nflag := PREV_ERR_FAIL in
    let cv_mem := CVRestore cv_mem saved_t in
    if (ABS (cv_h cv_mem) <=? cv_hmin cv_mem * ONEPSM)%float
       || (nef =? cv_maxnef cv_mem)%Z
    then inl (mkErrorTest false nflag REP_ERR_FAIL nef dsm cv_mem)
    else inr (nflag, nef, dsm, cv_mem).

(** Order 2, one component, the columns 0.1, 0.2 and 0.3. *)
Definition history_example : CVodeMem :=
  mkCVodeMem 0%float 1%float 0%float 2%Z
    [[0.1%float]; [0.2%float]; [0.3%float]] false [] false 0%Z []
    0%float [] 0%Z 7%Z.

(** Order 1, [zn[0] = 2^-60] and [zn[1] = 1], before the predictor; the
    error test that follows fails with [acnrm / tq[2] = 2]. *)
Definition errtest_example : CVodeMem :=
  mkCVodeMem 0%float 1%float 0%float 1%Z
    [[0x1p-60%float]; [1%float]] false [] false 0%Z []
    2%float [0%float; 1%float; 1%float; 1%float; 1%float; 1%float] 0%Z 7%Z.
End Binary64.

(** ** Members kept by the routines of the error test *)

(** What neither routine touches in the binary64 memory: the order, the
    flags, the number of columns and the top column [q] of each array. *)
Definition top_kept (b b' : Binary64.CVodeMem) : Prop :=
  Binary64.cv_q b' = Binary64.cv_q b
  /\ Binary64.cv_quad b' = Binary64.cv_quad b
  /\ Binary64.cv_sensi b' = Binary64.cv_sensi b
  /\ Binary64.cv_Ns b' = Binary64.cv_Ns b
  /\ length (Binary64.cv_zn b') = length (Binary64.cv_zn b)
  /\ Binary64.vec_at (Binary64.cv_zn b') (Binary64.cv_q b)
     = Binary64.vec_at (Binary64.cv_zn b) (Binary64.cv_q b)
  /\ Binary64.vec_at (Binary64.cv_znQ b') (Binary64.cv_q b)
     = Binary64.vec_at (Binary64.cv_znQ b) (Binary64.cv_q b)
  /\ forall is_,
       Binary64.sens_at (Binary64.cv_znS b') (Binary64.cv_q b) is_
       = Binary64.sens_at (Binary64.cv_znS b) (Binary64.cv_q b) is_.


(** [CVAdjustOrder] with [deltaq = -1] writes the coefficients [l] and the
    columns [2..q-1] of the history arrays, and nothing else:
    [adjust_written w s] is [s] with these members taken from [w]. *)
Definition adjust_written (w s : CVodeMem) : CVodeMem :=
  s <| cv_l := cv_l w |> <| cv_zn := cv_zn w |> <| cv_znQ := cv_znQ w |>
    <| cv_znS := cv_znS w |>.

Definition low_columns_kept (s s' : CVodeMem) : Prop :=
  (forall j, (0 <= j <= 1)%Z -> vec_at (cv_zn s') j = vec_at (cv_zn s) j)
  /\ (forall j, (0 <= j <= 1)%Z -> vec_at (cv_znQ s') j = vec_at (cv_znQ s) j)
  /\ (forall j is_, (0 <= j <= 1)%Z ->
        sens_at (cv_znS s') j is_ = sens_at (cv_znS s) j is_).

Definition decrease_inv (s s' : CVodeMem) : Prop :=
  adjust_written s' s = s' /\ low_columns_kept s s'.


(** The end of [CVDoErrorTest] at order 1, after [nscon = 0]: the
    right-hand sides are evaluated and [zn[1]], [znQ[1]], [znS[1]] are
    reloaded. *)
Definition restart_tail (f fQ : R -> N_Vector -> N_Vector)
    (fS : Z -> R -> N_Vector -> N_Vector -> list N_Vector -> list N_Vector)
    (fS1 : Z -> R -> N_Vector -> N_Vector -> Z -> N_Vector -> N_Vector)
    (cv_mem : CVodeMem) : CVodeMem :=
  let cv_mem :=
    cv_mem <| cv_tempv := f (cv_tn cv_mem) (vec_at (cv_zn cv_mem) 0) |> in
  let cv_mem := cv_mem <| cv_nfe := (cv_nfe cv_mem + 1)%Z |> in
  let cv_mem :=
    cv_mem <| cv_zn := vec_set (cv_zn cv_mem) 1
                         (N_VScale (cv_h cv_mem) (cv_tempv cv_mem)) |> in
  let cv_mem :=
    if cv_quad cv_mem then
      let cv_mem :=
        cv_mem <| cv_tempvQ := fQ (cv_tn cv_mem) (vec_at (cv_zn cv_mem) 0) |> in
      let cv_mem := cv_mem <| cv_nfQe := (cv_nfQe cv_mem + 1)%Z |> in
      cv_mem <| cv_znQ := vec_set (cv_znQ cv_mem) 1
                            (N_VScale (cv_h cv_mem) (cv_tempvQ cv_mem)) |>
    else cv_mem in
  let cv_mem :=
    if cv_sensi cv_mem then
      let '(fScur, cv_mem) :=
        CVSensRhs fS fS1 cv_mem (cv_tn cv_mem) (vec_at (cv_zn cv_mem) 0)
          (cv_tempv cv_mem) (nth 0 (cv_znS cv_mem) []) (cv_tempvS cv_mem) in
      let cv_mem := cv_mem <| cv_tempvS := fScur |> in
      for_upto 0 (cv_Ns cv_mem - 1) (fun is_ s =>
        s <| cv_znS := sens_set (cv_znS s) 1 is_
               (N_VScale (cv_h s) (vec_at (cv_tempvS s) is_)) |>) cv_mem
    else cv_mem in
  cv_mem.

(** The members the restart leaves alone, and the first column. *)
Definition restart_kept (s s' : CVodeMem) : Prop :=
  cv_tn s' = cv_tn s /\ cv_netf s' = cv_netf s /\ cv_eta s' = cv_eta s
  /\ cv_etamax s' = cv_etamax s /\ cv_q s' = cv_q s /\ cv_h s' = cv_h s
  /\ cv_hscale s' = cv_hscale s /\ cv_qwait s' = cv_qwait s
  /\ cv_nscon s' = cv_nscon s
  /\ vec_at (cv_znQ s') 0 = vec_at (cv_znQ s) 0
  /\ (forall is_, sens_at (cv_znS s') 0 is_ = sens_at (cv_znS s) 0 is_).


(** * Properties *)

(** ** Loops *)

Section Loops.
Context {S : Type}.
Implicit Types (body : Z -> S -> S) (s : S).

Lemma for_up_last n k body s :
  for_up (Datatypes.S n) k body s = body (k + Z.of_nat n)%Z (for_up n k body s).
Proof.
  revert k s. induction n as [|n IH]; intros k s.
  - simpl. now rewrite Z.add_0_r.
  - change (for_up (Datatypes.S (Datatypes.S n)) k body s)
      with (for_up (Datatypes.S n) (k + 1)%Z body (body k s)).
    rewrite IH. simpl for_up at 2.
    f_equal. lia.
Qed.

Lemma for_down_last n j body s :
  for_down (Datatypes.S n) j body s = body (j - Z.of_nat n)%Z (for_down n j body s).
Proof.
  revert j s. induction n as [|n IH]; intros j s.
  - simpl. now rewrite Z.sub_0_r.
  - change (for_down (Datatypes.S (Datatypes.S n)) j body s)
      with (for_down (Datatypes.S n) (j - 1)%Z body (body j s)).
    rewrite IH. simpl for_down at 2.
    f_equal. lia.
Qed.

(** A transformation that commutes with every iteration commutes with
    the loop. *)
Lemma for_up_commute (g : S -> S) n k body s :
  (forall i s', (k <= i < k + Z.of_nat n)%Z -> body i (g s') = g (body i s')) ->
  for_up n k body (g s) = g (for_up n k body s).
Proof.
  revert k s. induction n as [|n IH]; intros k s H; [reflexivity|].
  simpl. rewrite H by lia. apply IH. intros i s' Hi. apply H. lia.
Qed.

Lemma for_down_commute (g : S -> S) n j body s :
  (forall i s', (j - Z.of_nat n < i <= j)%Z -> body i (g s') = g (body i s')) ->
  for_down n j body (g s) = g (for_down n j body s).
Proof.
  revert j s. induction n as [|n IH]; intros j s H; [reflexivity|].
  simpl. rewrite H by lia. apply IH. intros i s' Hi. apply H. lia.
Qed.

Lemma for_up_ext n k body body' s :
  (forall i s', (k <= i < k + Z.of_nat n)%Z -> body i s' = body' i s') ->
  for_up n k body s = for_up n k body' s.
Proof.
  revert k s. induction n as [|n IH]; intros k s H; [reflexivity|].
  simpl. rewrite H by lia. apply IH. intros i s' Hi. apply H. lia.
Qed.

Lemma for_down_ext n j body body' s :
  (forall i s', (j - Z.of_nat n < i <= j)%Z -> body i s' = body' i s') ->
  for_down n j body s = for_down n j body' s.
Proof.
  revert j s. induction n as [|n IH]; intros j s H; [reflexivity|].
  simpl. rewrite H by lia. apply IH. intros i s' Hi. apply H. lia.
Qed.

(** An invariant kept by every iteration is kept by the loop. *)
Lemma for_up_inv (P : S -> Prop) n k body s :
  (forall i s', (k <= i < k + Z.of_nat n)%Z -> P s' -> P (body i s')) ->
  P s -> P (for_up n k body s).
Proof.
  revert k s. induction n as [|n IH]; intros k s H Hs; [exact Hs|].
  simpl. apply IH.
  - intros i s' Hi. apply H. lia.
  - apply H; [lia | exact Hs].
Qed.

Lemma for_down_inv (P : S -> Prop) n j body s :
  (forall i s', (j - Z.of_nat n < i <= j)%Z -> P s' -> P (body i s')) ->
  P s -> P (for_down n j body s).
Proof.
  revert j s. induction n as [|n IH]; intros j s H Hs; [exact Hs|].
  simpl. apply IH.
  - intros i s' Hi. apply H. lia.
  - apply H; [lia | exact Hs].
Qed.
End Loops.

(** A map between two state spaces that follows every iteration follows
    the loop. *)
Lemma for_up_map {S T} (h : S -> T) n k body body' s :
  (forall i s', h (body i s') = body' i (h s')) ->
  h (for_up n k body s) = for_up n k body' (h s).
Proof.
  intros H. revert k s. induction n as [|n IH]; intros k s; [reflexivity|].
  simpl. now rewrite IH, H.
Qed.

Lemma for_down_map {S T} (h : S -> T) n j body body' s :
  (forall i s', h (body i s') = body' i (h s')) ->
  h (for_down n j body s) = for_down n j body' (h s).
Proof.
  intros H. revert j s. induction n as [|n IH]; intros j s; [reflexivity|].
  simpl. now rewrite IH, H.
Qed.

(** ** The predict/restore loop nest on an array *)

Lemma nth_insert_ne {A} (l : list A) (i j : nat) (x d : A) :
  i <> j -> nth i (<[j := x]> l) d = nth i l d.
Proof. intros H. rewrite !nth_lookup, list_lookup_insert_ne; auto. Qed.

Lemma nth_insert_eq {A} (l : list A) (i : nat) (x d : A) :
  (i < length l)%nat -> nth i (<[i := x]> l) d = x.
Proof. intros H. rewrite nth_lookup, list_lookup_insert_eq; auto. Qed.

Lemma insert_nth_id {A} (l : list A) (i : nat) (d : A) :
  <[i := nth i l d]> l = l.
Proof.
  apply list_insert_id'. intros H.
  rewrite nth_lookup. destruct (l !! i) eqn:E; [reflexivity|].
  apply lookup_ge_None in E. lia.
Qed.

Section NordsieckLoops.
Context {V : Type} (d : V).
Implicit Types (op : V -> V -> V) (z : list V).

Lemma nord_step_commute op i j z :
  (1 <= i)%Z -> (1 <= j)%Z -> (i + 2 <= j \/ j + 2 <= i)%Z ->
  nord_step d op i (nord_step d op j z) = nord_step d op j (nord_step d op i z).
Proof.
  intros Hi Hj Hij. unfold nord_step.
  rewrite !nth_insert_ne by lia.
  apply list_insert_insert_ne. lia.
Qed.

Lemma nord_step_length op j z : length (nord_step d op j z) = length z.
Proof. unfold nord_step. apply length_insert. Qed.

Variable q : Z.

(** The pass of level [k = q - m + 1] (descending [j]), the same steps in
    ascending order, and the last [n] levels of the nest. *)
Definition pass_down op (m : nat) z := for_down m q (nord_step d op) z.
Definition pass_up op (m : nat) z := for_up m (q - Z.of_nat m + 1) (nord_step d op) z.
Definition levels op (n : nat) z :=
  for_up n (q - Z.of_nat n + 1) (fun k => for_downto q k (nord_step d op)) z.

Lemma levels_succ op n z :
  levels op (S n) z = levels op n (pass_down op (S n) z).
Proof.
  unfold levels, pass_down, for_downto.
  change (for_up (S n) ?k ?b z) with (for_up n (k + 1)%Z b (b k z)).
  replace (q - Z.of_nat (S n) + 1 + 1)%Z with (q - Z.of_nat n + 1)%Z by lia.
  replace (Z.to_nat (q - (q - Z.of_nat (S n) + 1) + 1)) with (S n) by lia.
  reflexivity.
Qed.

Lemma pass_up_succ op m z :
  pass_up op (S m) z = pass_up op m (nord_step d op (q - Z.of_nat m) z).
Proof.
  unfold pass_up.
  change (for_up (S m) ?k ?b z) with (for_up m (k + 1)%Z b (b k z)).
  replace (q - Z.of_nat (S m) + 1 + 1)%Z with (q - Z.of_nat m + 1)%Z by lia.
  replace (q - Z.of_nat (S m) + 1)%Z with (q - Z.of_nat m)%Z by lia.
  reflexivity.
Qed.

Lemma pass_down_succ op m z :
  pass_down op (S m) z = nord_step d op (q - Z.of_nat m) (pass_down op m z).
Proof. unfold pass_down. apply for_down_last. Qed.

(** A step below the levels commutes with them. *)
Lemma levels_commute op n i z :
  (1 <= i)%Z -> (i + 2 <= q - Z.of_nat n + 1)%Z ->
  levels op n (nord_step d op i z) = nord_step d op i (levels op n z).
Proof.
  intros Hi Hn. unfold levels.
  apply for_up_commute. intros k s' Hk.
  unfold for_downto. apply for_down_commute. intros j s'' Hj.
  apply nord_step_commute; lia.
Qed.

(** Moving the pass of level [k] across the levels above it reverses
    the order of its steps. *)
Lemma levels_pass op n z :
  (Z.of_nat (S n) <= q)%Z ->
  levels op n (pass_down op (S n) z) = pass_up op (S n) (levels op n z).
Proof.
  revert z. induction n as [|n IH]; intros z Hn.
  - unfold levels, pass_down, pass_up.
    change (Z.of_nat 1) with 1%Z. change (Z.of_nat 0) with 0%Z.
    replace (q - 1 + 1)%Z with q by lia. reflexivity.
  - rewrite pass_down_succ, levels_succ.
    rewrite IH by lia.
    rewrite levels_commute by lia.
    rewrite <- levels_succ.
    now rewrite (pass_up_succ op (S n)).
Qed.

(** Restoring after predicting: the hypotheses on [op] and [opi]. *)
Variable shape : V -> Prop.
Variables op opi : V -> V -> V.
Hypothesis op_shape : forall a b, shape a -> shape b -> shape (op a b).
Hypothesis op_cancel : forall a b, shape a -> shape b -> opi (op a b) b = a.

Definition hist_ok z := Forall shape z /\ (Z.to_nat q < length z)%nat.

Lemma hist_ok_nth z j :
  hist_ok z -> (0 <= j <= q)%Z -> shape (nth (Z.to_nat j) z d).
Proof.
  intros [Hs Hl] Hj. rewrite Forall_lookup in Hs.
  destruct (nth_lookup_or_length z (Z.to_nat j) d) as [E|E]; [|lia].
  exact (Hs _ _ E).
Qed.

Lemma nord_step_ok j z :
  hist_ok z -> (1 <= j <= q)%Z -> hist_ok (nord_step d op j z).
Proof.
  intros Hz Hj. split.
  - unfold nord_step. apply Forall_insert; [apply Hz|].
    apply op_shape; apply hist_ok_nth; auto; lia.
  - rewrite nord_step_length. apply Hz.
Qed.

Lemma nord_step_cancel j z :
  hist_ok z -> (1 <= j <= q)%Z ->
  nord_step d opi j (nord_step d op j z) = z.
Proof.
  intros Hz Hj. unfold nord_step.
  rewrite nth_insert_eq by (destruct Hz; lia).
  rewrite nth_insert_ne by lia.
  rewrite op_cancel by (apply hist_ok_nth; auto; lia).
  rewrite list_insert_insert_eq. apply insert_nth_id.
Qed.

Lemma pass_up_ok m z :
  hist_ok z -> (Z.of_nat m <= q)%Z -> hist_ok (pass_up op m z).
Proof.
  intros Hz Hm. unfold pass_up. apply for_up_inv; [|exact Hz].
  intros i s' Hi Hs'. apply nord_step_ok; auto. lia.
Qed.

Lemma levels_ok n z :
  hist_ok z -> (Z.of_nat n <= q)%Z -> hist_ok (levels op n z).
Proof.
  intros Hz Hn. unfold levels. apply for_up_inv; [|exact Hz].
  intros k s' Hk Hs'. unfold for_downto. apply for_down_inv; [|exact Hs'].
  intros j s'' Hj Hs''. apply nord_step_ok; auto. lia.
Qed.

Lemma pass_cancel m z :
  hist_ok z -> (Z.of_nat m <= q)%Z ->
  pass_down opi m (pass_up op m z) = z.
Proof.
  revert z. induction m as [|m IH]; intros z Hz Hm; [reflexivity|].
  rewrite pass_up_succ, pass_down_succ.
  rewrite IH by (try apply nord_step_ok; auto; lia).
  apply nord_step_cancel; auto. lia.
Qed.

Lemma levels_cancel n z :
  hist_ok z -> (Z.of_nat n <= q)%Z ->
  levels opi n (levels op n z) = z.
Proof.
  revert z. induction n as [|n IH]; intros z Hz Hn; [reflexivity|].
  rewrite (levels_succ op), (levels_succ opi).
  rewrite (levels_pass op n z) by lia.
  rewrite pass_cancel by (try apply levels_ok; auto; lia).
  apply IH; auto. lia.
Qed.

Lemma nord_loops_levels o z : nord_loops d o q z = levels o (Z.to_nat q) z.
Proof.
  unfold nord_loops, levels, for_upto.
  destruct (Z_le_gt_dec q 0) as [H|H].
  - replace (Z.to_nat (q - 1 + 1)) with 0%nat by lia.
    replace (Z.to_nat q) with 0%nat by lia. reflexivity.
  - replace (q - Z.of_nat (Z.to_nat q) + 1)%Z with 1%Z by lia.
    now replace (q - 1 + 1)%Z with q by lia.
Qed.

(** The restore loops undo the predict loops. *)
Lemma nord_loops_cancel z :
  hist_ok z -> nord_loops d opi q (nord_loops d op q z) = z.
Proof.
  intros Hz. rewrite !nord_loops_levels.
  destruct (Z_le_gt_dec q 0) as [H|H].
  - replace (Z.to_nat q) with 0%nat by lia. reflexivity.
  - apply levels_cancel; auto. lia.
Qed.
End NordsieckLoops.

(** ** Loops that assign one member of the integrator memory *)

Section MemberLoops.
Context {E : Type} (get : CVodeMem -> E) (set : E -> CVodeMem -> CVodeMem).
Hypothesis get_set : forall v s, get (set v s) = v.
Hypothesis set_set : forall v w s, set v (set w s) = set v s.
Hypothesis set_get : forall s, set (get s) s = s.

Lemma for_up_member n k (g : Z -> E -> E) s :
  for_up n k (fun i s => set (g i (get s)) s) s = set (for_up n k g (get s)) s.
Proof.
  revert k s. induction n as [|n IH]; intros k s; simpl.
  - now rewrite set_get.
  - now rewrite IH, get_set, set_set.
Qed.

Lemma for_down_member n j (g : Z -> E -> E) s :
  for_down n j (fun i s => set (g i (get s)) s) s = set (for_down n j g (get s)) s.
Proof.
  revert j s. induction n as [|n IH]; intros j s; simpl.
  - now rewrite set_get.
  - now rewrite IH, get_set, set_set.
Qed.

(** The loop nest of the predictor on one member. *)
Lemma nest_member (g : Z -> E -> E) q s :
  for_upto 1 q (fun k => for_downto q k (fun j s => set (g j (get s)) s)) s
  = set (for_upto 1 q (fun k => for_downto q k g) (get s)) s.
Proof.
  unfold for_upto.
  rewrite <- (for_up_member _ _ (fun k => for_downto q k g)).
  apply for_up_ext. intros k s' _. unfold for_downto.
  apply for_down_member.
Qed.
End MemberLoops.

Lemma zn_get_set v s : cv_zn (s <| cv_zn := v |>) = v.
Proof. reflexivity. Qed.
Lemma zn_set_set v w (s : CVodeMem) : s <| cv_zn := w |> <| cv_zn := v |> = s <| cv_zn := v |>.
Proof. reflexivity. Qed.
Lemma zn_set_get (s : CVodeMem) : s <| cv_zn := cv_zn s |> = s.
Proof. now destruct s. Qed.

Lemma znQ_get_set v s : cv_znQ (s <| cv_znQ := v |>) = v.
Proof. reflexivity. Qed.
Lemma znQ_set_set v w (s : CVodeMem) : s <| cv_znQ := w |> <| cv_znQ := v |> = s <| cv_znQ := v |>.
Proof. reflexivity. Qed.
Lemma znQ_set_get (s : CVodeMem) : s <| cv_znQ := cv_znQ s |> = s.
Proof. now destruct s. Qed.

Lemma znS_get_set v s : cv_znS (s <| cv_znS := v |>) = v.
Proof. reflexivity. Qed.
Lemma znS_set_set v w (s : CVodeMem) : s <| cv_znS := w |> <| cv_znS := v |> = s <| cv_znS := v |>.
Proof. reflexivity. Qed.
Lemma znS_set_get (s : CVodeMem) : s <| cv_znS := cv_znS s |> = s.
Proof. now destruct s. Qed.

(** The three loop nests of [CVPredict] and [CVRestore], as operations on
    the arrays [zn], [znQ] and [znS]. *)

Lemma zn_nest c q s :
  for_upto 1 q (fun k => for_downto q k (fun j s =>
    s <| cv_zn := vec_set (cv_zn s) (j - 1)
           (N_VLinearSum ONE (vec_at (cv_zn s) (j - 1)) c (vec_at (cv_zn s) j)) |>)) s
  = s <| cv_zn := nord_loops [] (fun a b => N_VLinearSum ONE a c b) q (cv_zn s) |>.
Proof.
  exact (nest_member cv_zn (setter cv_zn) zn_get_set zn_set_set zn_set_get
           (nord_step [] (fun a b => N_VLinearSum ONE a c b)) q s).
Qed.

Lemma znQ_nest c q s :
  for_upto 1 q (fun k => for_downto q k (fun j s =>
    s <| cv_znQ := vec_set (cv_znQ s) (j - 1)
           (N_VLinearSum ONE (vec_at (cv_znQ s) (j - 1)) c (vec_at (cv_znQ s) j)) |>)) s
  = s <| cv_znQ := nord_loops [] (fun a b => N_VLinearSum ONE a c b) q (cv_znQ s) |>.
Proof.
  exact (nest_member cv_znQ (setter cv_znQ) znQ_get_set znQ_set_set znQ_set_get
           (nord_step [] (fun a b => N_VLinearSum ONE a c b)) q s).
Qed.

Lemma znS_nest c Ns q s :
  for_upto 0 (Ns - 1) (fun is_ =>
    for_upto 1 q (fun k => for_downto q k (fun j s =>
      s <| cv_znS := sens_set (cv_znS s) (j - 1) is_
             (N_VLinearSum ONE (sens_at (cv_znS s) (j - 1) is_)
                           c (sens_at (cv_znS s) j is_)) |>))) s
  = s <| cv_znS := sens_loops (fun a b => N_VLinearSum ONE a c b) Ns q (cv_znS s) |>.
Proof.
  unfold sens_loops, for_upto at 1 3.
  rewrite <- (for_up_member cv_znS (setter cv_znS) znS_get_set znS_set_set znS_set_get).
  apply for_up_ext. intros is_ s' _.
  exact (nest_member cv_znS (setter cv_znS) znS_get_set znS_set_set znS_set_get
           (nord_step [] (sens_op (fun a b => N_VLinearSum ONE a c b) is_)) q s').
Qed.

(** ** [CVRestore] undoes [CVPredict] *)

Lemma vsub_vadd (N : nat) (a b : N_Vector) :
  length a = N -> length b = N -> vsub (vadd a b) b = a.
Proof.
  intros Ha Hb. subst N. revert b Hb.
  induction a as [|x a IH]; intros [|y b] Hb; simpl in *; try discriminate; auto.
  unfold vsub, vadd, N_VLinearSum in *. simpl. f_equal.
  - unfold ONE. lra.
  - apply IH. lia.
Qed.

Lemma vadd_length (N : nat) (a b : N_Vector) :
  length a = N -> length b = N -> length (vadd a b) = N.
Proof.
  intros Ha Hb. unfold vadd, N_VLinearSum. rewrite length_zip_with. lia.
Qed.

Lemma nord_step_map {V W} (pr : V -> W) d d' op op' j z :
  pr d = d' -> (forall a b, pr (op a b) = op' (pr a) (pr b)) ->
  map pr (nord_step d op j z) = nord_step d' op' j (map pr z).
Proof.
  intros Hd Hop. unfold nord_step.
  change (map pr) with (fmap (M:=list) pr).
  rewrite list_fmap_insert, Hop.
  change (fmap (M:=list) pr) with (map pr).
  subst d'. now rewrite !map_nth.
Qed.

Lemma nord_loops_map {V W} (pr : V -> W) d d' op op' q z :
  pr d = d' -> (forall a b, pr (op a b) = op' (pr a) (pr b)) ->
  map pr (nord_loops d op q z) = nord_loops d' op' q (map pr z).
Proof.
  intros Hd Hop. unfold nord_loops, for_upto.
  apply for_up_map. intros k s'. unfold for_downto.
  apply for_down_map. intros j s''. now apply nord_step_map.
Qed.

Lemma nord_loops_fst {V} (d : V) q z : nord_loops d (fun a _ => a) q z = z.
Proof.
  unfold nord_loops, for_upto. apply for_up_inv with (P := fun z' => z' = z); auto.
  intros k s' _ ->. unfold for_downto.
  apply for_down_inv with (P := fun z' => z' = z); auto.
  intros j s'' _ ->. unfold nord_step. apply insert_nth_id.
Qed.

(** Column [is0] of [znS] after the loop nest of sensitivity [is_]. *)
Lemma sens_column_same op i i0 q z :
  (forall b, op [] b = []) -> Z.to_nat i = Z.to_nat i0 ->
  map (fun row => vec_at row i0) (nord_loops [] (sens_op op i) q z)
  = nord_loops [] op q (map (fun row => vec_at row i0) z).
Proof.
  intros Hop Hi. apply nord_loops_map.
  - unfold vec_at. now destruct (Z.to_nat i0).
  - intros a b. unfold sens_op, vec_at. rewrite Hi.
    destruct (Nat.lt_ge_cases (Z.to_nat i0) (length a)) as [H|H].
    + now rewrite nth_insert_eq.
    + rewrite list_insert_ge by lia.
      rewrite (nth_overflow a) by lia. now rewrite Hop.
Qed.

Lemma sens_column_other op i i0 q z :
  Z.to_nat i <> Z.to_nat i0 ->
  map (fun row => vec_at row i0) (nord_loops [] (sens_op op i) q z)
  = map (fun row => vec_at row i0) z.
Proof.
  intros Hi.
  rewrite (nord_loops_map (fun row => vec_at row i0) [] [] _ (fun a _ => a)).
  - apply nord_loops_fst.
  - unfold vec_at. now destruct (Z.to_nat i0).
  - intros a b. unfold sens_op, vec_at. now rewrite nth_insert_ne.
Qed.

Lemma sens_loops_column op Ns q i0 z :
  (forall b, op [] b = []) -> (0 <= i0 < Ns)%Z ->
  map (fun row => vec_at row i0) (sens_loops op Ns q z)
  = nord_loops [] op q (map (fun row => vec_at row i0) z).
Proof.
  intros Hop Hi0. unfold sens_loops, for_upto.
  assert (G : forall n k z', (0 <= k)%Z ->
    map (fun row => vec_at row i0)
      (for_up n k (fun is_ => nord_loops [] (sens_op op is_) q) z')
    = if decide (k <= i0 < k + Z.of_nat n)%Z
      then nord_loops [] op q (map (fun row => vec_at row i0) z')
      else map (fun row => vec_at row i0) z').
  { induction n as [|n IH]; intros k z' Hk.
    - simpl. destruct (decide _); [lia | reflexivity].
    - rewrite for_up_last.
      destruct (decide (k + Z.of_nat n = i0)%Z) as [E|E].
      + rewrite sens_column_same by (auto; lia). rewrite IH by lia.
        destruct (decide (k <= i0 < k + Z.of_nat n)%Z); [lia|].
        destruct (decide (k <= i0 < k + Z.of_nat (S n))%Z); [reflexivity | lia].
      + rewrite sens_column_other by lia. rewrite IH by lia.
        destruct (decide (k <= i0 < k + Z.of_nat n)%Z);
          destruct (decide (k <= i0 < k + Z.of_nat (S n))%Z); auto; lia. }
  rewrite G by lia. destruct (decide _); [reflexivity | lia].
Qed.

Lemma sens_loops_length op Ns q z : length (sens_loops op Ns q z) = length z.
Proof.
  unfold sens_loops, for_upto.
  apply for_up_inv with (P := fun z' => length z' = length z); auto.
  intros i s' _ Hs'. unfold nord_loops, for_upto.
  apply for_up_inv with (P := fun z' => length z' = length z); auto.
  intros k s'' _ Hs''. unfold for_downto.
  apply for_down_inv with (P := fun z' => length z' = length z); auto.
  intros j s3 _ Hs3. now rewrite nord_step_length.
Qed.

Lemma sens_at_column z j i : sens_at z j i = nth (Z.to_nat j) (map (fun row => vec_at row i) z) [].
Proof.
  assert (E : vec_at [] i = []) by (unfold vec_at; now destruct (Z.to_nat i)).
  pose proof (map_nth (fun row => vec_at row i) z [] (Z.to_nat j)) as H.
  cbv beta in H. rewrite E in H. unfold sens_at. now rewrite H.
Qed.

Lemma sens_column_ok N Ns q i0 z :
  (0 <= i0 < Ns)%Z -> (Z.to_nat q < length z)%nat ->
  Forall (sens_row_ok N Ns) z ->
  hist_ok q (fun v => length v = N) (map (fun row => vec_at row i0) z).
Proof.
  intros Hi Hq Hz. split.
  - apply Forall_forall. intros v Hv.
    apply list_elem_of_In, in_map_iff in Hv. destruct Hv as (row & <- & Hrow).
    rewrite Forall_forall in Hz. apply list_elem_of_In, Hz in Hrow.
    destruct Hrow as [Hl Hall]. unfold vec_at.
    rewrite Forall_lookup in Hall.
    destruct (nth_lookup_or_length row (Z.to_nat i0) []) as [E|E]; [|lia].
    exact (Hall _ _ E).
  - now rewrite length_map.
Qed.

Lemma CVPredict_members s :
  CVPredict s =
  let s1 := s <| cv_tn := cv_tn s + cv_h s |>
              <| cv_zn := nord_loops [] vadd (cv_q s) (cv_zn s) |> in
  let s2 := if cv_quad s
            then s1 <| cv_znQ := nord_loops [] vadd (cv_q s) (cv_znQ s) |>
            else s1 in
  if cv_sensi s
  then s2 <| cv_znS := sens_loops vadd (cv_Ns s) (cv_q s) (cv_znS s) |>
  else s2.
Proof.
  unfold CVPredict. cbv zeta. rewrite zn_nest.
  change (cv_quad (_ <| cv_zn := _ |>)) with (cv_quad s).
  destruct (cv_quad s).
  - rewrite znQ_nest.
    change (cv_sensi (_ <| cv_znQ := _ |>)) with (cv_sensi s).
    destruct (cv_sensi s); [|reflexivity].
    rewrite znS_nest. reflexivity.
  - change (cv_sensi (_ <| cv_zn := _ |>)) with (cv_sensi s).
    destruct (cv_sensi s); [|reflexivity].
    rewrite znS_nest. reflexivity.
Qed.

Lemma CVRestore_members s saved_t :
  CVRestore s saved_t =
  let s1 := s <| cv_tn := saved_t |>
              <| cv_zn := nord_loops [] vsub (cv_q s) (cv_zn s) |> in
  let s2 := if cv_quad s
            then s1 <| cv_znQ := nord_loops [] vsub (cv_q s) (cv_znQ s) |>
            else s1 in
  if cv_sensi s
  then s2 <| cv_znS := sens_loops vsub (cv_Ns s) (cv_q s) (cv_znS s) |>
  else s2.
Proof.
  unfold CVRestore. cbv zeta. rewrite zn_nest.
  change (cv_quad (_ <| cv_zn := _ |>)) with (cv_quad s).
  destruct (cv_quad s).
  - rewrite znQ_nest.
    change (cv_sensi (_ <| cv_znQ := _ |>)) with (cv_sensi s).
    destruct (cv_sensi s); [|reflexivity].
    rewrite znS_nest. reflexivity.
  - change (cv_sensi (_ <| cv_zn := _ |>)) with (cv_sensi s).
    destruct (cv_sensi s); [|reflexivity].
    rewrite znS_nest. reflexivity.
Qed.

(** The members a restore after a predict depends on. *)
Lemma vec_hist_ok N q qmax (z : list N_Vector) :
  (1 <= q <= qmax)%Z -> length z = Z.to_nat (qmax + 1) ->
  Forall (fun v => length v = N) z ->
  hist_ok q (fun v => length v = N) z.
Proof. intros Hq Hl Hz. split; [exact Hz | unfold N_Vector in *; lia]. Qed.

Lemma vec_loops_cancel N q qmax (z : list N_Vector) :
  (1 <= q <= qmax)%Z -> length z = Z.to_nat (qmax + 1) ->
  Forall (fun v => length v = N) z ->
  nord_loops [] vsub q (nord_loops [] vadd q z) = z.
Proof.
  intros Hq Hl Hz.
  apply (nord_loops_cancel [] q (fun v => length v = N) vadd vsub).
  - intros a b. apply vadd_length.
  - intros a b. apply vsub_vadd.
  - eapply vec_hist_ok; eauto.
Qed.

Lemma sens_loops_cancel N Ns q qmax (z : list (list N_Vector)) j i :
  (1 <= q <= qmax)%Z -> length z = Z.to_nat (qmax + 1) ->
  Forall (sens_row_ok N Ns) z -> (0 <= i < Ns)%Z ->
  sens_at (sens_loops vsub Ns q (sens_loops vadd Ns q z)) j i = sens_at z j i.
Proof.
  intros Hq Hl Hz Hi. rewrite !sens_at_column. f_equal.
  rewrite !sens_loops_column by auto.
  apply (nord_loops_cancel [] q (fun v => length v = N) vadd vsub).
  - intros a b. apply vadd_length.
  - intros a b. apply vsub_vadd.
  - apply (sens_column_ok N Ns); auto. lia.
Qed.

(** *** The same routines on binary64 numbers *)

(** An invariant kept by every assignment of the loop nest
    [for (k = 1; k <= q; k++) for (j = q; j >= k; j--)] is kept by the
    nest; the assignments have [1 <= j <= q]. *)
Lemma nest_inv {S : Type} (P : S -> Prop) q (body : Z -> S -> S) s :
  (forall j s', (1 <= j <= q)%Z -> P s' -> P (body j s')) ->
  P s -> P (for_upto 1 q (fun k => for_downto q k body) s).
Proof.
  intros H Hs. unfold for_upto. apply for_up_inv; [|exact Hs].
  intros k s' Hk Hs'. unfold for_downto. apply for_down_inv; [|exact Hs'].
  intros j s'' Hj. apply H. lia.
Qed.

Lemma top_kept_refl b : top_kept b b.
Proof. unfold top_kept. auto 10. Qed.

Lemma top_kept_tn b s t :
  top_kept b s -> top_kept b (s <| Binary64.cv_tn := t |>).
Proof. intros H. exact H. Qed.

Lemma top_kept_zn b s j v :
  (1 <= j <= Binary64.cv_q b)%Z -> top_kept b s ->
  top_kept b (s <| Binary64.cv_zn :=
                     Binary64.vec_set (Binary64.cv_zn s) (j - 1) v |>).
Proof.
  intros Hj (Hq & Hquad & Hsens & HNs & Hl & Hz & HzQ & HzS).
  unfold top_kept. cbn. unfold Binary64.vec_set, Binary64.vec_at in *.
  rewrite length_insert, nth_insert_ne by lia. auto 10.
Qed.

Lemma top_kept_znQ b s j v :
  (1 <= j <= Binary64.cv_q b)%Z -> top_kept b s ->
  top_kept b (s <| Binary64.cv_znQ :=
                     Binary64.vec_set (Binary64.cv_znQ s) (j - 1) v |>).
Proof.
  intros Hj (Hq & Hquad & Hsens & HNs & Hl & Hz & HzQ & HzS).
  unfold top_kept. cbn. unfold Binary64.vec_set, Binary64.vec_at in *.
  rewrite nth_insert_ne by lia. auto 10.
Qed.

Lemma top_kept_znS b s j is_ v :
  (1 <= j <= Binary64.cv_q b)%Z -> top_kept b s ->
  top_kept b (s <| Binary64.cv_znS :=
                     Binary64.sens_set (Binary64.cv_znS s) (j - 1) is_ v |>).
Proof.
  intros Hj (Hq & Hquad & Hsens & HNs & Hl & Hz & HzQ & HzS).
  unfold top_kept. cbn. repeat (split; [assumption|]).
  intros i. rewrite <- HzS. unfold Binary64.sens_set, Binary64.sens_at.
  rewrite nth_insert_ne by lia. reflexivity.
Qed.

Lemma b64_CVPredict_top b : top_kept b (Binary64.CVPredict b).
Proof.
  unfold Binary64.CVPredict. cbv zeta.
  set (s1 := for_upto 1 (Binary64.cv_q b) _ _).
  assert (H1 : top_kept b s1).
  { apply nest_inv; [|apply top_kept_tn, top_kept_refl].
    intros j s' Hj Hs'. apply top_kept_zn; assumption. }
  clearbody s1.
  set (s2 := if Binary64.cv_quad s1 then _ else _).
  assert (H2 : top_kept b s2).
  { unfold s2. destruct (Binary64.cv_quad s1); [|exact H1].
    apply nest_inv; [|exact H1].
    intros j s' Hj Hs'. apply top_kept_znQ; assumption. }
  clearbody s2.
  destruct (Binary64.cv_sensi s2); [|exact H2].
  unfold for_upto at 1. apply for_up_inv; [|exact H2].
  intros i s' _ Hs'. apply nest_inv; [|exact Hs'].
  intros j s'' Hj Hs''. apply top_kept_znS; assumption.
Qed.

Lemma b64_CVRestore_top b saved_t :
  Binary64.cv_tn (Binary64.CVRestore b saved_t) = saved_t
  /\ top_kept b (Binary64.CVRestore b saved_t).
Proof.
  unfold Binary64.CVRestore. cbv zeta.
  set (P := fun s => Binary64.cv_tn s = saved_t /\ top_kept b s).
  match goal with |- _ /\ top_kept b ?x => change (P x) end.
  assert (Pzn : forall j v s, (1 <= j <= Binary64.cv_q b)%Z -> P s ->
            P (s <| Binary64.cv_zn :=
                      Binary64.vec_set (Binary64.cv_zn s) (j - 1) v |>)).
  { intros j v s Hj [Ht Hs]. split; [exact Ht | now apply top_kept_zn]. }
  assert (PznQ : forall j v s, (1 <= j <= Binary64.cv_q b)%Z -> P s ->
            P (s <| Binary64.cv_znQ :=
                      Binary64.vec_set (Binary64.cv_znQ s) (j - 1) v |>)).
  { intros j v s Hj [Ht Hs]. split; [exact Ht | now apply top_kept_znQ]. }
  assert (PznS : forall j i v s, (1 <= j <= Binary64.cv_q b)%Z -> P s ->
            P (s <| Binary64.cv_znS :=
                      Binary64.sens_set (Binary64.cv_znS s) (j - 1) i v |>)).
  { intros j i v s Hj [Ht Hs]. split; [exact Ht | now apply top_kept_znS]. }
  set (s1 := for_upto 1 (Binary64.cv_q b) _ _).
  assert (H1 : P s1).
  { apply nest_inv.
    - intros j s' Hj Hs'. apply Pzn; assumption.
    - split; [reflexivity | apply top_kept_tn, top_kept_refl]. }
  clearbody s1.
  set (s2 := if Binary64.cv_quad s1 then _ else _).
  assert (H2 : P s2).
  { unfold s2. destruct (Binary64.cv_quad s1); [|exact H1].
    apply nest_inv; [|exact H1].
    intros j s' Hj Hs'. apply PznQ; assumption. }
  clearbody s2.
  destruct (Binary64.cv_sensi s2); [|exact H2].
  unfold for_upto at 1. apply for_up_inv; [|exact H2].
  intros i s' _ Hs'. apply nest_inv; [|exact Hs'].
  intros j s'' Hj Hs''. apply PznS; assumption.
Qed.

Lemma top_kept_trans b s s' :
  top_kept b s -> top_kept s s' -> top_kept b s'.
Proof.
  intros (Hq & Hquad & Hsens & HNs & Hl & Hz & HzQ & HzS)
         (Hq' & Hquad' & Hsens' & HNs' & Hl' & Hz' & HzQ' & HzS').
  rewrite Hq in Hz', HzQ', HzS'.
  unfold top_kept.
  split; [congruence|]. split; [congruence|]. split; [congruence|].
  split; [congruence|]. split; [congruence|]. split; [congruence|].
  split; [congruence|]. intros i. rewrite HzS'. apply HzS.
Qed.




(** ** The maximum order *)

Lemma CVodeSetMaxOrd_le cv_mem maxord :
  (cv_qmax (CVodeSetMaxOrd_calls [maxord] cv_mem) <= cv_qmax cv_mem)%Z.
Proof.
  unfold CVodeSetMaxOrd_calls, CVodeSetMaxOrd.
  destruct (Z.leb_spec maxord 0); cbn [snd]; [lia|].
  destruct (maxord >? cv_qmax cv_mem)%Z eqn:E2; cbn [snd]; [lia|].
  change (cv_qmax (cv_mem <| cv_qmax := maxord |>)) with maxord. lia.
Qed.

Lemma CVodeSetMaxOrd_calls_le ords cv_mem :
  (cv_qmax (CVodeSetMaxOrd_calls ords cv_mem) <= cv_qmax cv_mem)%Z.
Proof.
  revert cv_mem. induction ords as [|maxord ords IH]; intros cv_mem;
    cbn [CVodeSetMaxOrd_calls]; [lia|].
  pose proof (CVodeSetMaxOrd_le cv_mem maxord) as H.
  cbn [CVodeSetMaxOrd_calls] in H.
  destruct (snd (CVodeSetMaxOrd (Some cv_mem) maxord)) as [cv_mem'|]; [|lia].
  specialize (IH cv_mem'). lia.
Qed.

Lemma CVodeCreate_qmax U lmm iter block cv_mem :
  CVodeCreate U (Some lmm) (Some iter) (Some block) = Some cv_mem ->
  cv_qmax cv_mem = match lmm with ADAMS => 12%Z | BDF => 5%Z end.
Proof. intros H. injection H as <-. now destruct lmm. Qed.

(** C10. On a handle returned by [CVodeCreate], after any sequence of
    calls of [CVodeSetMaxOrd]: [qmax] is at most the ceiling of the method
    family (12 for Adams, 5 for BDF); a further call with [maxord <= 0] or
    with [maxord] above the current [qmax] returns the illegal-input flag
    and leaves the memory as it is; any other call succeeds and replaces
    [qmax] by [maxord]; in every case [qmax] after the call is at most
    [qmax] before it. *)
Theorem CVodeSetMaxOrd_never_increases (U : R) (lmm : lmm_t) (iter : iter_t)
    (block cv_mem0 : CVodeMem) (ords : list Z) (maxord : Z)
    (Hcreate : CVodeCreate U (Some lmm) (Some iter) (Some block) = Some cv_mem0) :
  let cv_mem := CVodeSetMaxOrd_calls ords cv_mem0 in
  (cv_qmax cv_mem <= match lmm with ADAMS => 12 | BDF => 5 end)%Z
  /\ ((maxord <= 0 \/ maxord > cv_qmax cv_mem)%Z ->
      CVodeSetMaxOrd (Some cv_mem) maxord = (CVS_ILL_INPUT, Some cv_mem))
  /\ ((0 < maxord <= cv_qmax cv_mem)%Z ->
      CVodeSetMaxOrd (Some cv_mem) maxord
      = (SUCCESS, Some (cv_mem <| cv_qmax := maxord |>)))
  /\ (cv_qmax (CVodeSetMaxOrd_calls [maxord] cv_mem) <= cv_qmax cv_mem)%Z.
Proof.
  intros cv_mem. repeat split.
  - rewrite <- (CVodeCreate_qmax _ _ _ _ _ Hcreate). apply CVodeSetMaxOrd_calls_le.
  - intros H. unfold CVodeSetMaxOrd.
    destruct (maxord <=? 0)%Z eqn:E1; [reflexivity|].
    destruct (maxord >? cv_qmax cv_mem)%Z eqn:E2; [reflexivity | lia].
  - intros H. unfold CVodeSetMaxOrd.
    destruct (maxord <=? 0)%Z eqn:E1; [lia|].
    destruct (maxord >? cv_qmax cv_mem)%Z eqn:E2; [lia | reflexivity].
  - apply CVodeSetMaxOrd_le.
Qed.

Lemma CVodeSetMaxOrd_never_increases_witness :
  let cv_mem0 :=
    (CVodeMem_zero <| cv_qmax := 12%Z |> <| cv_mxstep := 500%Z |>
       <| cv_mxhnil := 10%Z |> <| cv_maxcor := 3%Z |> <| cv_maxnef := 7%Z |>
       <| cv_maxncf := 10%Z |> <| cv_nlscoef := 0.1 |>
       <| cv_uround := 1 / 1000000 |> <| cv_ifS := ONESENS |>
       <| cv_maxcorS := 3%Z |>) in
  let cv_mem := CVodeSetMaxOrd_calls [5; 20; 3]%Z cv_mem0 in
  created_example = Some cv_mem0
  /\ (cv_qmax cv_mem <= 12)%Z
  /\ CVodeSetMaxOrd (Some cv_mem) 4 = (CVS_ILL_INPUT, Some cv_mem)
  /\ CVodeSetMaxOrd (Some cv_mem) 2 = (SUCCESS, Some (cv_mem <| cv_qmax := 2%Z |>)).
Proof.
  intros cv_mem0 cv_mem.
  assert (Hcreate : created_example = Some cv_mem0) by reflexivity.
  split; [exact Hcreate|].
  destruct (CVodeSetMaxOrd_never_increases _ ADAMS FUNCTIONAL CVodeMem_zero
              cv_mem0 [5; 20; 3]%Z 4%Z Hcreate) as (Hle & Hrej & _ & _).
  destruct (CVodeSetMaxOrd_never_increases _ ADAMS FUNCTIONAL CVodeMem_zero
              cv_mem0 [5; 20; 3]%Z 2%Z Hcreate) as (_ & _ & Hacc & _).
  split; [exact Hle|]. split.
  - apply Hrej. right. vm_compute. reflexivity.
  - apply Hacc. vm_compute. split; [reflexivity | discriminate].
Defined.

(** ** The optional outputs of the staggered solver *)

(** C6. On a memory with sensitivities active, both routines return
    [OKAY] and leave the memory of [int] cells as it was, whatever the
    coupling mode: the assignment changes the parameter only, which ends
    as [nniS1] (resp. [ncfnS1]) in the mode [STAGGERED1] and as NULL
    otherwise. *)
Theorem CVodeGetNumStgrSens_writes_nothing (cv_mem : CVodeMem)
    (nSTGR1 : int_ptr) (mem : int_heap)
    (Hsensi : cv_sensi cv_mem = true) :
  CVodeGetNumStgrSensNonlinSolvIters (Some cv_mem) nSTGR1 mem
  = (OKAY, (if decide (cv_ism cv_mem = STAGGERED1) then cv_nniS1 cv_mem else None), mem)
  /\ CVodeGetNumStgrSensNonlinSolvConvFails (Some cv_mem) nSTGR1 mem
  = (OKAY, (if decide (cv_ism cv_mem = STAGGERED1) then cv_ncfnS1 cv_mem else None), mem).
Proof.
  unfold CVodeGetNumStgrSensNonlinSolvIters, CVodeGetNumStgrSensNonlinSolvConvFails.
  rewrite Hsensi. split; reflexivity.
Qed.

Lemma CVodeGetNumStgrSens_writes_nothing_witness :
  let mem : int_heap := fun _ => 7%Z in
  CVodeGetNumStgrSensNonlinSolvIters (Some (sens_example STAGGERED1)) (Some 3%nat) mem
  = (OKAY, Some 10%nat, mem)
  /\ CVodeGetNumStgrSensNonlinSolvConvFails (Some (sens_example STAGGERED)) (Some 3%nat) mem
  = (OKAY, None, mem).
Proof.
  intros mem.
  destruct (CVodeGetNumStgrSens_writes_nothing (sens_example STAGGERED1)
              (Some 3%nat) mem eq_refl) as [H1 _].
  destruct (CVodeGetNumStgrSens_writes_nothing (sens_example STAGGERED)
              (Some 3%nat) mem eq_refl) as [_ H2].
  exact (conj H1 H2).
Defined.

(** The neighbouring routine [CVodeGetNumSensNonlinSolvIters] does write
    through its pointer. *)
Lemma CVodeGetNumSensNonlinSolvIters_writes (mem : int_heap) :
  snd (CVodeGetNumSensNonlinSolvIters (Some (sens_example STAGGERED1))
         (Some 3%nat) mem) 3%nat
  = 5%Z.
Proof. reflexivity. Qed.

(** ** Interpolation *)

Lemma nth_zip_with (f : R -> R -> R) (x y : list R) (i : nat) :
  (i < length x)%nat -> (i < length y)%nat ->
  nth i (zip_with f x y) 0 = f (nth i x 0) (nth i y 0).
Proof.
  revert y i. induction x as [|a x IH]; intros [|b y] [|i] Hx Hy;
    simpl in *; try lia; auto.
  apply IH; lia.
Qed.

Lemma nth_N_VLinearSum a x b y i :
  (i < length x)%nat -> (i < length y)%nat ->
  nth i (N_VLinearSum a x b y) 0 = a * nth i x 0 + b * nth i y 0.
Proof. intros. unfold N_VLinearSum. now rewrite nth_zip_with. Qed.

Lemma nth_N_VScale c x i : nth i (N_VScale c x) 0 = c * nth i x 0.
Proof.
  unfold N_VScale.
  rewrite <- (map_nth (fun xi => c * xi) x 0 i). f_equal. lra.
Qed.

Lemma length_N_VScale c x : length (N_VScale c x) = length x.
Proof. unfold N_VScale. apply length_map. Qed.

Lemma length_N_VLinearSum a x b y :
  length x = length y -> length (N_VLinearSum a x b y) = length x.
Proof. intros H. unfold N_VLinearSum. rewrite length_zip_with. lia. Qed.

Lemma dky_c_loop n j c :
  for_down n j (fun i c => c * IZR i) c = c * IZR (dky_c j n).
Proof.
  revert j c. induction n as [|n IH]; intros j c; simpl.
  - lra.
  - rewrite IH, mult_IZR. lra.
Qed.

Lemma sum_from_ext n a f g :
  (forall j, (a <= j < a + Z.of_nat n)%Z -> f j = g j) ->
  sum_from n a f = sum_from n a g.
Proof.
  revert a. induction n as [|n IH]; intros a H; simpl; [reflexivity|].
  rewrite H by lia. f_equal. apply IH. intros j Hj. apply H. lia.
Qed.

Lemma sum_from_scale n a f c :
  c * sum_from n a f = sum_from n a (fun j => c * f j).
Proof.
  revert a. induction n as [|n IH]; intros a; simpl; [lra|].
  rewrite <- IH. lra.
Qed.

Lemma sum_from_zero n a f :
  (forall j, (a <= j < a + Z.of_nat n)%Z -> f j = 0) -> sum_from n a f = 0.
Proof.
  revert a. induction n as [|n IH]; intros a H; simpl; [reflexivity|].
  rewrite H by lia. rewrite IH; [lra|]. intros j Hj. apply H. lia.
Qed.

Section Horner.
Variables (N : nat) (zn : list N_Vector) (q k : Z) (s : R).
Hypothesis Hk : (0 <= k <= q)%Z.
Hypothesis Hzn : forall j, (0 <= j <= q)%Z -> length (vec_at zn j) = N.

Definition horner_body (j : Z) (dky : N_Vector) : N_Vector :=
  let c := for_downto j (j - k + 1) (fun i c => c * IZR i) ONE in
  if (j =? q)%Z then N_VScale c (vec_at zn q)
  else N_VLinearSum c (vec_at zn j) s dky.

Lemma horner_c j :
  for_downto j (j - k + 1) (fun i c => c * IZR i) ONE = IZR (dky_c j (Z.to_nat k)).
Proof.
  unfold for_downto. rewrite dky_c_loop.
  replace (j - (j - k + 1) + 1)%Z with k by lia. unfold ONE. lra.
Qed.

(** After the iterations [j = q, ..., q - n], [dky] holds the partial
    Horner sum. *)
Lemma horner_loop n dky0 :
  (Z.of_nat n <= q - k)%Z ->
  let dky := for_down (S n) q horner_body dky0 in
  length dky = N /\
  forall i, (i < N)%nat ->
    nth i dky 0 =
    sum_from (S n) (q - Z.of_nat n) (fun j =>
      IZR (dky_c j (Z.to_nat k)) * s ^ Z.to_nat (j - (q - Z.of_nat n))
      * nth i (vec_at zn j) 0).
Proof.
  induction n as [|n IH]; intros Hn.
  - cbn [for_down]. unfold horner_body. cbv zeta. rewrite Z.eqb_refl, horner_c.
    split; [rewrite length_N_VScale; apply Hzn; lia|].
    intros i Hi. rewrite nth_N_VScale. cbn [sum_from].
    replace (q - Z.of_nat 0)%Z with q by lia.
    replace (Z.to_nat (q - q)) with 0%nat by lia. simpl. ring.
  - intros dky. unfold dky. rewrite for_down_last.
    destruct IH as [IHl IHn]; [lia|].
    set (d := for_down (S n) q horner_body dky0) in *.
    assert (Hb : horner_body (q - Z.of_nat (S n)) d
                 = N_VLinearSum (IZR (dky_c (q - Z.of_nat (S n)) (Z.to_nat k)))
                     (vec_at zn (q - Z.of_nat (S n))) s d).
    { unfold horner_body. cbv zeta. rewrite horner_c.
      destruct (Z.eqb_spec (q - Z.of_nat (S n)) q) as [E|E]; [lia | reflexivity]. }
    rewrite Hb.
    assert (Hl : length (vec_at zn (q - Z.of_nat (S n))) = N) by (apply Hzn; lia).
    split; [rewrite length_N_VLinearSum; lia|].
    intros i Hi. rewrite nth_N_VLinearSum by lia.
    rewrite IHn by auto.
    change (sum_from (S (S n)) ?a ?f) with (f a + sum_from (S n) (a + 1)%Z f).
    cbv beta. rewrite Z.sub_diag. change (Z.to_nat 0) with 0%nat.
    replace (q - Z.of_nat (S n) + 1)%Z with (q - Z.of_nat n)%Z by lia.
    rewrite sum_from_scale. simpl pow. f_equal; [ring|].
    apply sum_from_ext. intros j Hj.
    replace (Z.to_nat (j - (q - Z.of_nat (S n))))
      with (S (Z.to_nat (j - (q - Z.of_nat n)))) by lia.
    simpl. ring.
Qed.
End Horner.

Lemma dky_in_range_test cv_mem t :
  dky_in_range cv_mem t ->
  let tfuzz := FUZZ_FACTOR * cv_uround cv_mem
               * (ABS (cv_tn cv_mem) + ABS (cv_hu cv_mem)) in
  let tfuzz := if Rlt_dec (cv_hu cv_mem) ZERO then - tfuzz else tfuzz in
  let tp := cv_tn cv_mem - cv_hu cv_mem - tfuzz in
  let tn1 := cv_tn cv_mem + tfuzz in
  ~ (t - tp) * (t - tn1) > ZERO.
Proof.
  unfold dky_in_range, ABS, ZERO. cbv zeta.
  set (tfuzz := if Rlt_dec _ _ then _ else _).
  set (tp := _ - _ - tfuzz). set (tn1 := _ + tfuzz).
  unfold Rmin, Rmax. destruct (Rle_dec tp tn1); intros [H1 H2]; nra.
Qed.

Lemma dky_tn_in_range cv_mem :
  0 <= cv_uround cv_mem -> dky_in_range cv_mem (cv_tn cv_mem).
Proof.
  intros Hu. unfold dky_in_range. cbv zeta.
  assert (H0 : 0 <= FUZZ_FACTOR * cv_uround cv_mem
                    * (Rabs (cv_tn cv_mem) + Rabs (cv_hu cv_mem))).
  { pose proof (Rabs_pos (cv_tn cv_mem)). pose proof (Rabs_pos (cv_hu cv_mem)).
    unfold FUZZ_FACTOR. apply Rmult_le_pos; [|lra]. lra. }
  set (f := FUZZ_FACTOR * _ * _) in *.
  unfold Rmin, Rmax.
  destruct (Rlt_dec (cv_hu cv_mem) 0); destruct (Rle_dec _ _); lra.
Qed.

Lemma RPowerI_neg h k : (0 < k)%Z -> RPowerI h (- k) = / (h ^ Z.to_nat k).
Proof.
  intros Hk. unfold RPowerI, ONE.
  destruct (Z.ltb_spec (- k) 0); [|lia].
  replace (Z.abs_nat (- k)) with (Z.to_nat k) by lia.
  unfold Rdiv. ring.
Qed.



(** ** Error weights *)

Lemma fold_Rmin_pos r a :
  0 < fold_left Rmin r a <-> 0 < a /\ Forall (fun v => 0 < v) r.
Proof.
  revert a. induction r as [|b r IH]; intros a; simpl.
  - split; [intros H; split; [exact H | constructor] | intros [H _]; exact H].
  - rewrite IH. unfold Rmin. destruct (Rle_dec a b); split.
    + intros [Ha Hr]. split; [exact Ha|]. constructor; [lra | exact Hr].
    + intros [Ha Hr]. inversion Hr; subst. split; assumption.
    + intros [Hb Hr]. split; [lra|]. constructor; assumption.
    + intros [Ha Hr]. inversion Hr; subst. split; assumption.
Qed.

Lemma N_VMin_pos (x : N_Vector) :
  x <> [] -> (~ N_VMin x <= ZERO <-> Forall (fun v => 0 < v) x).
Proof.
  intros Hx. destruct x as [|a r]; [contradiction|].
  unfold N_VMin, ZERO. rewrite Forall_cons, <- fold_Rmin_pos. lra.
Qed.

Lemma Forall_nth_R (P : R -> Prop) (x : list R) :
  Forall P x <-> forall k, (k < length x)%nat -> P (nth k x 0).
Proof.
  rewrite Forall_lookup. split.
  - intros H k Hk. destruct (nth_lookup_or_length x k 0) as [E|E]; [|lia].
    exact (H _ _ E).
  - intros H k v E. rewrite <- (nth_lookup_Some _ _ 0 _ E).
    apply H. now apply lookup_lt_Some in E.
Qed.

(** The contents of [tempv] when the positivity test is made. *)
Definition ewt_tempv (cv_mem : CVodeMem) (ycur : N_Vector) : N_Vector :=
  match cv_itol cv_mem with
  | SS => N_VAddConst (N_VScale (cv_reltol cv_mem) (N_VAbs ycur))
            (atol_scalar (cv_abstol cv_mem))
  | SV => N_VLinearSum (cv_reltol cv_mem) (N_VAbs ycur)
            ONE (atol_vector (cv_abstol cv_mem))
  end.

Lemma CVEwtSet_eq cv_mem ycur :
  CVEwtSet cv_mem ycur =
  if Rle_dec (N_VMin (ewt_tempv cv_mem ycur)) ZERO
  then (false, cv_mem <| cv_tempv := ewt_tempv cv_mem ycur |>)
  else (true, cv_mem <| cv_tempv := ewt_tempv cv_mem ycur |>
                     <| cv_ewt := N_VInv (ewt_tempv cv_mem ycur) |>).
Proof.
  unfold CVEwtSet, ewt_tempv, CVEwtSetSS, CVEwtSetSV.
  destruct (cv_itol cv_mem); cbv zeta;
    cbn [setter set_cv_tempv cv_tempv cv_reltol cv_abstol];
    destruct (Rle_dec _ ZERO); reflexivity.
Qed.

Lemma ewt_tempv_length cv_mem (ycur : N_Vector) :
  (cv_itol cv_mem = SV -> length (atol_vector (cv_abstol cv_mem)) = length ycur) ->
  length (ewt_tempv cv_mem ycur) = length ycur.
Proof.
  intros H. unfold ewt_tempv.
  destruct (cv_itol cv_mem).
  - unfold N_VAddConst, N_VScale, N_VAbs. now rewrite !length_map.
  - unfold N_VLinearSum, N_VAbs. rewrite length_zip_with, length_map, H by auto. lia.
Qed.

Lemma map_nth_R (g : R -> R) (x : list R) k :
  (k < length x)%nat -> nth k (map g x) 0 = g (nth k x 0).
Proof.
  intros Hk. rewrite (nth_indep _ 0 (g 0)) by (now rewrite length_map).
  apply map_nth.
Qed.

Lemma ewt_tempv_nth cv_mem (ycur : N_Vector) k :
  (cv_itol cv_mem = SV -> length (atol_vector (cv_abstol cv_mem)) = length ycur) ->
  (k < length ycur)%nat ->
  nth k (ewt_tempv cv_mem ycur) 0 = ewt_tol cv_mem ycur k.
Proof.
  intros H Hk. unfold ewt_tempv, ewt_tol.
  destruct (cv_itol cv_mem).
  - unfold N_VAddConst, N_VScale, N_VAbs.
    rewrite !map_nth_R by (rewrite ?length_map; auto). reflexivity.
  - rewrite nth_N_VLinearSum
      by (unfold N_VAbs; rewrite ?length_map, ?H; auto).
    unfold N_VAbs. rewrite map_nth_R by auto. unfold ONE. ring.
Qed.

(** C4. For a current solution [ycur] with at least one component (and, in
    SV mode, an absolute-tolerance vector of the same length):
    [CVEwtSet] returns TRUE exactly when every component
    [rtol * |ycur[k]| + atol[k]] of the intermediate vector is strictly
    positive; on TRUE every weight is [1 / (rtol * |ycur[k]| + atol[k])]
    and strictly positive; on FALSE the caller [CVodeMalloc] writes the
    message [MSG_BAD_EWT], frees the vectors and returns the
    illegal-input flag. *)
Theorem CVEwtSet_positive_weights (cv_mem : CVodeMem) (ycur : N_Vector)
    (Hne : ycur <> [])
    (Hsv : cv_itol cv_mem = SV ->
           length (atol_vector (cv_abstol cv_mem)) = length ycur) :
  let ok := fst (CVEwtSet cv_mem ycur) in
  let cv_mem' := snd (CVEwtSet cv_mem ycur) in
  (ok = true <-> forall k, (k < length ycur)%nat -> 0 < ewt_tol cv_mem ycur k)
  /\ (ok = true ->
      length (cv_ewt cv_mem') = length ycur
      /\ forall k, (k < length ycur)%nat ->
           nth k (cv_ewt cv_mem') 0 = 1 / ewt_tol cv_mem ycur k
           /\ 0 < nth k (cv_ewt cv_mem') 0)
  /\ (ok = false ->
      forall CVAllocVectors cv_mem0 cv_mem1 f t0,
        CVAllocVectors cv_mem0 = Some cv_mem1 ->
        cv_mem1 <| cv_itol := cv_itol cv_mem |>
                <| cv_reltol := cv_reltol cv_mem |>
                <| cv_abstol := cv_abstol cv_mem |> = cv_mem ->
        0 <= cv_reltol cv_mem ->
        0 <= match cv_itol cv_mem with
             | SS => atol_scalar (cv_abstol cv_mem)
             | SV => N_VMin (atol_vector (cv_abstol cv_mem))
             end ->
        CVodeMalloc CVAllocVectors (Some cv_mem0) (Some f) t0 (Some ycur)
          (Some (cv_itol cv_mem)) (Some (cv_reltol cv_mem))
          (Some (cv_abstol cv_mem))
        = (CVM_ILL_INPUT, [MSG_BAD_EWT], Some (CVFreeVectors cv_mem'))).
Proof.
  cbv zeta.
  assert (Hlen := ewt_tempv_length cv_mem ycur Hsv).
  assert (Hpos : ~ N_VMin (ewt_tempv cv_mem ycur) <= ZERO <->
                 forall k, (k < length ycur)%nat -> 0 < ewt_tol cv_mem ycur k).
  { rewrite N_VMin_pos, Forall_nth_R, Hlen.
    - split; intros H k Hk; specialize (H k Hk);
        now rewrite ewt_tempv_nth in * by auto.
    - intros E. rewrite E in Hlen. destruct ycur; [contradiction | discriminate]. }
  rewrite CVEwtSet_eq.
  destruct (Rle_dec (N_VMin (ewt_tempv cv_mem ycur)) ZERO) as [Hle|Hgt];
    cbn [fst snd]; split; [| split | | split].
  - split; [discriminate|]. intros H. exfalso. exact (proj2 Hpos H Hle).
  - discriminate.
  - intros _ alloc cv_mem0 cv_mem1 f t0 Halloc Hmem Hr Ha.
    unfold CVodeMalloc.
    destruct (Rlt_dec (cv_reltol cv_mem) ZERO) as [?|_]; [unfold ZERO in *; lra|].
    assert (Hn : match cv_itol cv_mem with
                 | SS => if Rlt_dec (atol_scalar (cv_abstol cv_mem)) ZERO
                         then true else false
                 | SV => if Rlt_dec (N_VMin (atol_vector (cv_abstol cv_mem))) ZERO
                         then true else false
                 end = false).
    { destruct (cv_itol cv_mem); destruct (Rlt_dec _ ZERO); auto;
        unfold ZERO in *; lra. }
    rewrite Hn, Halloc. cbv zeta. rewrite Hmem, CVEwtSet_eq.
    destruct (Rle_dec _ ZERO); [reflexivity | contradiction].
  - split; [intros _; exact (proj1 Hpos Hgt) | reflexivity].
  - intros _. cbn [setter set_cv_ewt cv_ewt].
    split; [unfold N_VInv; now rewrite length_map, Hlen|].
    intros k Hk. unfold N_VInv. rewrite map_nth_R by (now rewrite Hlen).
    rewrite ewt_tempv_nth by auto. unfold ONE.
    pose proof (proj1 Hpos Hgt k Hk) as Hk'.
    split; [reflexivity|]. apply Rdiv_lt_0_compat; lra.
  - discriminate.
Qed.

Lemma CVEwtSet_positive_weights_witness :
  (fst (CVEwtSet ewt_example [2; 4]) = true
   /\ nth 1 (cv_ewt (snd (CVEwtSet ewt_example [2; 4]))) 0
      = 1 / ewt_tol ewt_example [2; 4] 1)
  /\ (fst (CVEwtSet ewt_example [2; 0]) = false
      /\ fst (fst (CVodeMalloc (alloc_example 2) (Some CVodeMem_zero)
                     (Some (fun _ y => y)) 0 (Some [2; 0]) (Some SV)
                     (Some 0.5) (Some (AtolV [1; 0]))))
         = CVM_ILL_INPUT).
Proof.
  assert (Hsv : forall y : N_Vector, length y = 2%nat ->
            cv_itol ewt_example = SV ->
            length (atol_vector (cv_abstol ewt_example)) = length y)
    by (intros y -> _; reflexivity).
  destruct (CVEwtSet_positive_weights ewt_example [2; 4] ltac:(discriminate)
              (Hsv [2; 4] eq_refl)) as (Hiff & Hw & _).
  destruct (CVEwtSet_positive_weights ewt_example [2; 0] ltac:(discriminate)
              (Hsv [2; 0] eq_refl)) as (Hiff0 & _ & Hfail).
  assert (Hok : fst (CVEwtSet ewt_example [2; 4]) = true).
  { apply Hiff. intros k Hk. unfold ewt_tol. simpl in Hk.
    destruct k as [|[|k]]; [| |lia]; simpl;
      rewrite ?(Rabs_right 2), ?(Rabs_right 4) by lra; lra. }
  assert (Hbad : fst (CVEwtSet ewt_example [2; 0]) = false).
  { destruct (fst (CVEwtSet ewt_example [2; 0])) eqn:E; [|reflexivity].
    destruct Hiff0 as [H _]. specialize (H eq_refl 1%nat ltac:(simpl; lia)).
    unfold ewt_tol in H. simpl in H. rewrite Rabs_R0 in H. lra. }
  assert (Hr : 0 <= cv_reltol ewt_example) by (simpl; lra).
  assert (Ha : 0 <= match cv_itol ewt_example with
                    | SS => atol_scalar (cv_abstol ewt_example)
                    | SV => N_VMin (atol_vector (cv_abstol ewt_example))
                    end).
  { simpl. unfold Rmin. destruct (Rle_dec 1 0); lra. }
  pose proof (Hfail Hbad (alloc_example 2) CVodeMem_zero
                (CVodeMem_zero <| cv_ewt := [0; 0] |> <| cv_acor := [0; 0] |>
                   <| cv_tempv := [0; 0] |> <| cv_ftemp := [0; 0] |>
                   <| cv_zn := [[0; 0]] |>) (fun _ y => y) 0
                eq_refl eq_refl Hr Ha) as HM.
  split.
  - split; [exact Hok|]. exact (proj1 (proj2 (Hw Hok) 1%nat ltac:(simpl; lia))).
  - split; [exact Hbad|].
    exact (f_equal (fun r => fst (fst r)) HM).
Defined.

(** ** The initial step size *)

Lemma MAX_Rmax a b : MAX a b = Rmax a b.
Proof.
  unfold MAX, Rmax. destruct (Rgt_dec a b), (Rle_dec a b); lra.
Qed.

Section InitialStep.
Variable f : R -> N_Vector -> N_Vector.
Variable fQ : R -> N_Vector -> N_Vector.
Variable fS : Z -> R -> N_Vector -> N_Vector -> list N_Vector -> list N_Vector.
Variable fS1 : Z -> R -> N_Vector -> N_Vector -> Z -> N_Vector -> N_Vector.

(** The loop of [CVHin] ends within [MAX_ITERS] iterations. *)
Lemma CVHin_loop_total fuel count sign hub hg cv_mem :
  (count < MAX_ITERS)%Z -> (MAX_ITERS - count <= Z.of_nat fuel)%Z ->
  exists r, CVHin_loop f fQ fS fS1 fuel count sign hub hg cv_mem = Some r.
Proof.
  revert count hg cv_mem. induction fuel as [|fuel IH]; intros count hg cv_mem Hc Hf.
  - lia.
  - cbn [CVHin_loop]. cbv zeta.
    destruct (CVYddNorm f fQ fS fS1 cv_mem (hg * IZR sign)) as [yddnrm cv_mem1].
    destruct (Z.geb_spec (count + 1) MAX_ITERS) as [?|Hlt]; [eauto|].
    destruct (bool_decide _ && bool_decide _); [eauto|].
    destruct ((count + 1 >=? 2)%Z && bool_decide _); [eauto|].
    apply IH; lia.
Qed.

(** C9 (as amended). With a positive unit roundoff, [CVHin] returns;
    it returns FALSE exactly when [tout = tn] or
    [|tout - tn| < 2 * uround * max(|tn|, |tout|)]; and when it returns
    TRUE with [hlb <= hub], where [hlb = 100 * tround] and [hub] is the
    bound computed by [CVUpperBoundH0], the magnitude of the step [h] is
    [0.5 * hnew] clipped into [[hlb, hub]], [hnew] being the value the
    iteration ends with, and [h] has the sign of [tout - tn]. *)
Theorem CVHin_initial_step (cv_mem : CVodeMem) (tout : R)
    (Hu : 0 < cv_uround cv_mem) :
  let tdist := Rabs (tout - cv_tn cv_mem) in
  let tround := cv_uround cv_mem * Rmax (Rabs (cv_tn cv_mem)) (Rabs tout) in
  let hlb := 100 * tround in
  let hub := fst (CVUpperBoundH0 cv_mem tdist) in
  let sign := if Rgt_dec (tout - cv_tn cv_mem) 0 then 1%Z else (-1)%Z in
  exists ok cv_mem',
    CVHin f fQ fS fS1 (Z.to_nat MAX_ITERS) cv_mem tout = Some (ok, cv_mem')
    /\ (ok = false <-> tout = cv_tn cv_mem \/ tdist < 2 * tround)
    /\ (ok = true -> hlb <= hub ->
        exists hnew cv_mem'',
          CVHin_loop f fQ fS fS1 (Z.to_nat MAX_ITERS) 0 sign hub
            (RSqrt (hlb * hub)) (snd (CVUpperBoundH0 cv_mem tdist))
          = Some (hnew, cv_mem'')
          /\ Rabs (cv_h cv_mem') = Rmin (Rmax (0.5 * hnew) hlb) hub
          /\ (tout > cv_tn cv_mem -> cv_h cv_mem' > 0)
          /\ (tout < cv_tn cv_mem -> cv_h cv_mem' < 0)).
Proof.
  cbv zeta. unfold CVHin. cbv zeta.
  unfold ZERO, TWO, ABS, HLB_FACTOR, H_BIAS, HALF. rewrite MAX_Rmax.
  set (tdist := Rabs (tout - cv_tn cv_mem)).
  set (tround := cv_uround cv_mem * Rmax (Rabs (cv_tn cv_mem)) (Rabs tout)).
  destruct (Req_dec_T (tout - cv_tn cv_mem) 0) as [E0|N0].
  { exists false, cv_mem. split; [reflexivity|]. split.
    - split; [intros _; left; lra | reflexivity].
    - discriminate. }
  destruct (Rlt_dec tdist (2 * tround)) as [Hclose|Hfar].
  { exists false, cv_mem. split; [reflexivity|]. split.
    - split; [intros _; now right | reflexivity].
    - discriminate. }
  assert (Htr : 0 < tround).
  { unfold tround. apply Rmult_lt_0_compat; [exact Hu|].
    unfold Rmax. destruct (Rle_dec _ _).
    - pose proof (Rabs_pos (cv_tn cv_mem)).
      destruct (Req_dec tout 0) as [->|Hn]; [|now apply Rabs_pos_lt].
      assert (cv_tn cv_mem <> 0) by lra.
      pose proof (Rabs_pos_lt _ H0). rewrite Rabs_R0 in r. lra.
    - pose proof (Rabs_pos tout). lra. }
  destruct (CVUpperBoundH0 cv_mem tdist) as [hub cv_mem1] eqn:EH. cbn [fst snd].
  set (sign := if Rgt_dec (tout - cv_tn cv_mem) 0 then 1%Z else (-1)%Z).
  destruct (Rlt_dec hub (100 * tround)) as [Hcross|Hord].
  { eexists true, _. split; [reflexivity|]. split.
    - split; [discriminate | intros [?|?]; [lra | contradiction]].
    - intros _ H. lra. }
  destruct (CVHin_loop_total (Z.to_nat MAX_ITERS) 0 sign hub
              (RSqrt (100 * tround * hub)) cv_mem1) as [[hnew cv_mem2] EL];
    [unfold MAX_ITERS; lia | unfold MAX_ITERS; lia |].
  rewrite EL. eexists true, _. split; [reflexivity|]. split.
  { split; [discriminate | intros [?|?]; [lra | contradiction]]. }
  intros _ _. exists hnew, cv_mem2. split; [reflexivity|].
  cbn [setter set_cv_h cv_h].
  set (c := Rmin (Rmax (0.5 * hnew) (100 * tround)) hub).
  assert (Hc : 0 < c).
  { unfold c, Rmin, Rmax. destruct (Rle_dec (0.5 * hnew) _); destruct (Rle_dec _ hub); lra. }
  assert (Eclip : (if Rgt_dec (if Rlt_dec (0.5 * hnew) (100 * tround)
                               then 100 * tround else 0.5 * hnew) hub
                   then hub
                   else if Rlt_dec (0.5 * hnew) (100 * tround)
                        then 100 * tround else 0.5 * hnew) = c).
  { unfold c, Rmin, Rmax.
    destruct (Rlt_dec (0.5 * hnew) _); destruct (Rle_dec (0.5 * hnew) _);
      try lra; destruct (Rgt_dec _ hub); destruct (Rle_dec _ hub); lra. }
  rewrite Eclip. unfold sign.
  destruct (Rgt_dec (tout - cv_tn cv_mem) 0) as [Hpos|Hneg]; cbn [Z.eqb Pos.eqb].
  - rewrite Rabs_right by lra. repeat split; lra.
  - rewrite Rabs_left by lra. repeat split; lra.
Qed.
End InitialStep.

(** The claim as stated fails at [t0 = tout = 0]: the routine returns
    FALSE although [|tout - t0| < 2 * uround * max(|t0|, |tout|)] does not
    hold. *)
Lemma CVHin_fails_at_origin :
  CVHin f_example f_example fS_example fS1_example (Z.to_nat MAX_ITERS) hin_example 0
  = Some (false, hin_example)
  /\ ~ Rabs (0 - cv_tn hin_example)
       < 2 * cv_uround hin_example * Rmax (Rabs (cv_tn hin_example)) (Rabs 0).
Proof.
  split.
  - unfold CVHin. cbv zeta.
    destruct (Req_dec_T (0 - cv_tn hin_example) ZERO) as [_|N]; [reflexivity|].
    exfalso. apply N. simpl. unfold ZERO. lra.
  - simpl. rewrite Rminus_diag, Rabs_R0.
    unfold Rmax. destruct (Rle_dec 0 0); lra.
Qed.

Lemma CVHin_initial_step_witness :
  exists ok cv_mem',
    CVHin f_example f_example fS_example fS1_example (Z.to_nat MAX_ITERS)
      hin_example 1 = Some (ok, cv_mem')
    /\ (ok = false <->
        1 = cv_tn hin_example
        \/ Rabs (1 - cv_tn hin_example)
           < 2 * (cv_uround hin_example * Rmax (Rabs (cv_tn hin_example)) (Rabs 1))).
Proof.
  destruct (CVHin_initial_step f_example f_example fS_example fS1_example
              hin_example 1 ltac:(simpl; lra)) as (ok & cv_mem' & E & Hiff & _).
  exists ok, cv_mem'. exact (conj E Hiff).
Defined.

(** ** Auxiliary facts for the local error test *)

Lemma MIN_Rmin a b : MIN a b = Rmin a b.
Proof.
  unfold MIN, Rmin. destruct (Rlt_dec a b), (Rle_dec a b); lra.
Qed.

Lemma RPowerR_pos base e : 0 < base -> RPowerR base e = Rpower base e.
Proof. intros H. unfold RPowerR. destruct (Rle_dec base 0); [lra | reflexivity]. Qed.

(** One [let] of a hypothesis at a time: the bound value becomes a local
    definition, so that the memory terms stay shared. *)
Ltac let1 H :=
  match type of H with
  | context C [let x := ?v in @?b x] =>
      let x' := fresh x in
      pose (x' := v);
      let g := context C [b x'] in
      let g' := eval cbv beta in g in
      change g' in H
  end.

(** ** Optional inputs: what a sequence of calls can and cannot do *)

(** A handle that is not NULL is never reported as missing, and a call
    either succeeds or leaves the handle as it was. *)
Lemma optional_input_call_cases c cv_mem :
  optional_input_call c (Some cv_mem) = (CVS_ILL_INPUT, Some cv_mem)
  \/ exists m, optional_input_call c (Some cv_mem) = (SUCCESS, Some m).
Proof.
  destruct c as [[it|]| | | | | | | | | | |]; cbn;
    repeat match goal with
           | |- context [if ?b then _ else _] => destruct b
           end; eauto.
Qed.

(** X1. An optional input routine that does not return SUCCESS on a handle
    that is not NULL returns the illegal-input flag and leaves every member
    of the integrator memory as it was. *)
Theorem optional_input_failure_unchanged c cv_mem :
  fst (optional_input_call c (Some cv_mem)) <> SUCCESS ->
  optional_input_call c (Some cv_mem) = (CVS_ILL_INPUT, Some cv_mem).
Proof.
  intros H. destruct (optional_input_call_cases c cv_mem) as [E|[m E]].
  - exact E.
  - rewrite E in H. now elim H.
Qed.

Lemma optional_input_failure_unchanged_witness :
  optional_input_call (SetMinStep (-1)) (Some CVodeMem_zero)
  = (CVS_ILL_INPUT, Some CVodeMem_zero).
Proof.
  apply optional_input_failure_unchanged.
  unfold optional_input_call, CVodeSetMinStep.
  destruct (Rle_dec (-1) 0) as [_|H]; [discriminate | exfalso; lra].
Defined.

(** The step-size bounds that [CVodeCreate] installs. *)
Lemma CVodeCreate_members u lmm iter block cv_mem :
  CVodeCreate u lmm iter block = Some cv_mem ->
  cv_hmin cv_mem = 0 /\ cv_hmax_inv cv_mem = 0 /\ cv_sldeton cv_mem = false
  /\ cv_mxstep cv_mem = MXSTEP_DEFAULT /\ Some (cv_lmm cv_mem) = lmm
  /\ Some (cv_iter cv_mem) = iter.
Proof.
  unfold CVodeCreate. destruct lmm, iter, block; try discriminate.
  intros [= <-]. repeat split; reflexivity.
Qed.

Lemma optional_input_calls_inv (P : CVodeMem -> Prop) :
  (forall c s m, P s -> optional_input_call c (Some s) = (SUCCESS, Some m) -> P m) ->
  forall cs s, P s -> P (optional_input_calls cs s).
Proof.
  intros step cs. induction cs as [|c cs IH]; intros s Hs; [exact Hs|].
  cbn [optional_input_calls].
  destruct (optional_input_call_cases c s) as [E|[m E]]; rewrite E; cbn [snd].
  - apply IH, Hs.
  - apply IH, (step c s m Hs E).
Qed.

Ltac optional_input_cases :=
  repeat match goal with
         | H : context [if ?b then _ else _] |- _ =>
             destruct b eqn:?; try discriminate H
         | H : (_, _) = (_, _) |- _ => inversion H; clear H; subst
         end.

(** X2. Whatever optional inputs are given after [CVodeCreate], in any
    order and with any arguments, the minimum step and the reciprocal of
    the maximum step stay non-negative and consistent:
    [hmin * hmax_inv <= 1], that is [hmin <= hmax]. *)
Theorem optional_inputs_step_bounds u lmm iter block cv_mem cs :
  CVodeCreate u lmm iter block = Some cv_mem ->
  let m := optional_input_calls cs cv_mem in
  0 <= cv_hmin m /\ 0 <= cv_hmax_inv m /\ cv_hmin m * cv_hmax_inv m <= 1.
Proof.
  intros Hc m. subst m.
  apply (optional_input_calls_inv
           (fun s => 0 <= cv_hmin s /\ 0 <= cv_hmax_inv s
                     /\ cv_hmin s * cv_hmax_inv s <= 1)).
  - intros c s m (H1 & H2 & H3) E.
    destruct c as [[it|]| | | | | | | | | | |]; cbn in E;
      optional_input_cases; cbn; try (repeat split; assumption).
    + (* CVodeSetMinStep *)
      unfold ONE in *. repeat split; lra.
    + (* CVodeSetMaxStep *)
      unfold ONE in *.
      assert (0 < 1 / hmax) by (apply Rdiv_lt_0_compat; lra).
      repeat split; lra.
  - destruct (CVodeCreate_members _ _ _ _ _ Hc) as (-> & -> & _).
    repeat split; lra.
Qed.

Lemma optional_inputs_step_bounds_witness :
  let m := optional_input_calls [SetMaxStep 2; SetMinStep 3; SetMinStep 1]
             (created_memory BDF NEWTON) in
  0 <= cv_hmin m /\ 0 <= cv_hmax_inv m /\ cv_hmin m * cv_hmax_inv m <= 1.
Proof.
  apply (optional_inputs_step_bounds (1 / 1000000) (Some BDF) (Some NEWTON)
           (Some CVodeMem_zero)).
  reflexivity.
Defined.

(** X3. No optional input changes the multistep method chosen at creation;
    stability limit detection can only be switched on for a BDF
    integrator, and the step limit [mxstep] stays positive. *)
Theorem optional_inputs_keep_method u lmm iter block cv_mem cs :
  CVodeCreate u lmm iter block = Some cv_mem ->
  let m := optional_input_calls cs cv_mem in
  cv_lmm m = cv_lmm cv_mem
  /\ (cv_sldeton m = true -> cv_lmm m = BDF)
  /\ (0 < cv_mxstep m)%Z.
Proof.
  intros Hc m. subst m.
  apply (optional_input_calls_inv
           (fun s => cv_lmm s = cv_lmm cv_mem
                     /\ (cv_sldeton s = true -> cv_lmm s = BDF)
                     /\ (0 < cv_mxstep s)%Z)).
  - intros c s m (H1 & H2 & H3) E.
    destruct c as [[it|]| | | | | | | | | | |]; cbn in E;
      optional_input_cases; cbn; try (repeat split; assumption).
    + (* CVodeSetMaxNumSteps *)
      repeat split; try assumption.
      match goal with H : (_ <=? _)%Z = false |- _ => apply Z.leb_gt in H end.
      lia.
    + (* CVodeSetStabLimDet *)
      repeat split; try assumption. intros _.
      match goal with H : bool_decide _ = false |- _ => rename H into Hb end.
      apply bool_decide_eq_false in Hb.
      destruct (decide (cv_lmm s = BDF)) as [e|ne]; [exact e | tauto].
  - destruct (CVodeCreate_members _ _ _ _ _ Hc) as (_ & _ & -> & -> & _).
    split; [reflexivity|]. split; [discriminate | reflexivity].
Qed.

Lemma optional_inputs_keep_method_witness :
  let m := optional_input_calls
             [SetStabLimDet true; SetMaxNumSteps 0; SetMaxNumSteps 20]
             (created_memory ADAMS FUNCTIONAL) in
  cv_lmm m = ADAMS /\ (cv_sldeton m = true -> cv_lmm m = BDF)
  /\ (0 < cv_mxstep m)%Z.
Proof.
  apply (optional_inputs_keep_method (1 / 1000000) (Some ADAMS) (Some FUNCTIONAL)
           (Some CVodeMem_zero)).
  reflexivity.
Defined.

(** ** [CVodeGetDky]: the checks of the arguments *)

Lemma dky_range_test cv_mem t :
  let tfuzz := FUZZ_FACTOR * cv_uround cv_mem
               * (ABS (cv_tn cv_mem) + ABS (cv_hu cv_mem)) in
  let tfuzz := if Rlt_dec (cv_hu cv_mem) ZERO then - tfuzz else tfuzz in
  let tp := cv_tn cv_mem - cv_hu cv_mem - tfuzz in
  let tn1 := cv_tn cv_mem + tfuzz in
  ~ (t - tp) * (t - tn1) > ZERO <-> dky_in_range cv_mem t.
Proof.
  unfold dky_in_range, ABS, ZERO. cbv zeta.
  set (tfuzz := if Rlt_dec _ _ then _ else _).
  set (tp := _ - _ - tfuzz). set (tn1 := _ + tfuzz).
  unfold Rmin, Rmax. split.
  - intros H. destruct (Rle_dec tp tn1); split; nra.
  - destruct (Rle_dec tp tn1); intros [H1 H2]; nra.
Qed.

(** X4. [CVodeGetDky] returns OKAY exactly when the handle and the output
    vector are not NULL, [0 <= k <= q] and [t] lies in the interval of the
    last step widened by the fuzz; with any other flag the output vector
    is left untouched. *)
Theorem CVodeGetDky_checks cvode_mem t k dky :
  let r := CVodeGetDky cvode_mem t k dky in
  (fst r = OKAY <->
     exists cv_mem dky0, cvode_mem = Some cv_mem /\ dky = Some dky0
       /\ (0 <= k <= cv_q cv_mem)%Z /\ dky_in_range cv_mem t)
  /\ (fst r <> OKAY -> snd r = dky).
Proof.
  cbv zeta. unfold CVodeGetDky.
  destruct cvode_mem as [cv_mem|];
    [|split; [split; [discriminate | intros (? & ? & [=] & _)] | reflexivity]].
  destruct dky as [dky0|];
    [|split; [split; [discriminate | intros (? & ? & _ & [=] & _)] | reflexivity]].
  rewrite Z.gtb_ltb.
  destruct ((k <? 0) || (cv_q cv_mem <? k))%Z eqn:Ek.
  { split; [split; [discriminate|] | reflexivity].
    intros (? & ? & [= <-] & _ & Hk & _).
    apply orb_true_iff in Ek. rewrite !Z.ltb_lt in Ek. lia. }
  apply orb_false_iff in Ek. rewrite !Z.ltb_ge in Ek. destruct Ek as [Ek1 Ek2].
  pose proof (dky_range_test cv_mem t) as Hr. cbv zeta in Hr.
  destruct (Rgt_dec _ ZERO) as [Hbad|Hok].
  { split; [split; [discriminate|] | reflexivity].
    intros (? & ? & [= <-] & _ & _ & Ht). apply Hr in Ht. tauto. }
  assert (Hin : exists m d, Some cv_mem = Some m /\ Some dky0 = Some d
                  /\ (0 <= k <= cv_q m)%Z /\ dky_in_range m t).
  { exists cv_mem, dky0. split; [reflexivity|]. split; [reflexivity|].
    split; [lia|]. apply Hr, Hok. }
  destruct (k =? 0)%Z; cbn [fst snd]; (split; [tauto | intros H; now elim H]).
Qed.

Lemma CVodeGetDky_checks_witness :
  fst (CVodeGetDky (Some dky_example) 1 3 (Some [0])) <> OKAY
  /\ snd (CVodeGetDky (Some dky_example) 1 3 (Some [0])) = Some [0].
Proof.
  destruct (CVodeGetDky_checks (Some dky_example) 1 3 (Some [0])) as [_ H].
  assert (E : fst (CVodeGetDky (Some dky_example) 1 3 (Some [0])) <> OKAY)
    by discriminate.
  exact (conj E (H E)).
Defined.

(** ** [CVRescale]: the history scaled by the powers of [eta] *)

Lemma N_VScale_nil c : N_VScale c [] = [].
Proof. reflexivity. Qed.

(** Scaling a column in place: outside the array nothing is written and
    the column read is empty, so the equation holds for every index. *)
Lemma rescale_step_nth f j z i :
  nth i (rescale_step f j z) []
  = if decide (i = Z.to_nat j) then N_VScale f (nth i z []) else nth i z [].
Proof.
  unfold rescale_step, vec_set, vec_at.
  destruct (decide (i = Z.to_nat j)) as [->|Hne].
  - destruct (le_lt_dec (length z) (Z.to_nat j)) as [Hout|Hin].
    + rewrite list_insert_ge by lia. now rewrite nth_overflow by lia.
    + now rewrite nth_insert_eq.
  - now rewrite nth_insert_ne.
Qed.

Lemma sens_set_nth f j is_ zS i k :
  nth k (nth i (sens_set zS j is_ (N_VScale f (sens_at zS j is_))) []) []
  = if decide (i = Z.to_nat j /\ k = Z.to_nat is_)
    then N_VScale f (nth k (nth i zS []) [])
    else nth k (nth i zS []) [].
Proof.
  unfold sens_set, sens_at, vec_at.
  destruct (decide (i = Z.to_nat j)) as [->|Hi].
  - destruct (le_lt_dec (length zS) (Z.to_nat j)) as [Hout|Hin].
    + rewrite list_insert_ge by lia. rewrite (nth_overflow zS) by lia.
      destruct k; destruct (decide _); reflexivity.
    + rewrite nth_insert_eq by lia.
      destruct (decide (k = Z.to_nat is_)) as [->|Hk].
      * rewrite decide_True by auto.
        destruct (le_lt_dec (length (nth (Z.to_nat j) zS [])) (Z.to_nat is_)).
        -- rewrite list_insert_ge by lia. now rewrite nth_overflow by lia.
        -- now rewrite nth_insert_eq.
      * rewrite decide_False by tauto. now rewrite nth_insert_ne.
  - rewrite decide_False by tauto. now rewrite nth_insert_ne.
Qed.

Lemma rescale_row_nth f j Ns zS i k :
  nth k (nth i (rescale_row f j Ns zS) []) []
  = if decide (i = Z.to_nat j /\ (k < Z.to_nat Ns)%nat)
    then N_VScale f (nth k (nth i zS []) [])
    else nth k (nth i zS []) [].
Proof.
  unfold rescale_row, for_upto.
  replace (Z.to_nat (Ns - 1 - 0 + 1)) with (Z.to_nat Ns) by lia.
  induction (Z.to_nat Ns) as [|n IH].
  - rewrite decide_False by lia. reflexivity.
  - rewrite for_up_last, sens_set_nth, IH.
    replace (Z.to_nat (0 + Z.of_nat n)) with n by lia.
    destruct (decide (i = Z.to_nat j)) as [->|Hi];
      [|rewrite !decide_False by tauto; reflexivity].
    destruct (decide (k = n)) as [->|Hk].
    + rewrite decide_True by auto.
      rewrite (decide_False (P := _ /\ (n < n)%nat)) by lia.
      rewrite decide_True by (split; [auto | lia]). reflexivity.
    + rewrite (decide_False (P := _ /\ k = n)) by tauto.
      destruct (decide (k < n)%nat).
      * rewrite !decide_True by (split; [auto | lia]). reflexivity.
      * rewrite !decide_False by lia. reflexivity.
Qed.

Lemma rescale_cols_nth eta n z i :
  nth i (rescale_cols eta n z) []
  = if decide (1 <= i <= n)%nat then N_VScale (eta ^ i) (nth i z [])
    else nth i z [].
Proof.
  unfold rescale_cols. induction n as [|n IH].
  - rewrite decide_False by lia. reflexivity.
  - rewrite for_up_last, rescale_step_nth, IH.
    replace (Z.to_nat (1 + Z.of_nat n)) with (S n) by lia.
    destruct (decide (i = S n)) as [->|Hi].
    + rewrite decide_False by lia. rewrite decide_True by lia. reflexivity.
    + destruct (decide (1 <= i <= n)%nat).
      * rewrite decide_True by lia. reflexivity.
      * rewrite decide_False by lia. reflexivity.
Qed.

Lemma rescale_rows_nth eta n Ns zS i k :
  nth k (nth i (rescale_rows eta n Ns zS) []) []
  = if decide ((1 <= i <= n)%nat /\ (k < Z.to_nat Ns)%nat)
    then N_VScale (eta ^ i) (nth k (nth i zS []) [])
    else nth k (nth i zS []) [].
Proof.
  unfold rescale_rows. induction n as [|n IH].
  - rewrite decide_False by lia. reflexivity.
  - rewrite for_up_last, rescale_row_nth, IH.
    replace (Z.to_nat (1 + Z.of_nat n)) with (S n) by lia.
    destruct (decide (i = S n)) as [->|Hi].
    + rewrite (decide_False (P := (1 <= S n <= n)%nat /\ _)) by lia.
      destruct (decide (k < Z.to_nat Ns)%nat).
      * rewrite !decide_True by (split; [lia | auto]). reflexivity.
      * rewrite !decide_False by tauto. reflexivity.
    + rewrite (decide_False (P := i = S n /\ _)) by tauto.
      destruct (decide ((1 <= i <= n)%nat /\ (k < Z.to_nat Ns)%nat)).
      * rewrite decide_True by lia. reflexivity.
      * rewrite decide_False by lia. reflexivity.
Qed.

(** One iteration of the loop writes the three arrays and nothing else. *)
Lemma CVRescale_body_members j f s :
  CVRescale_body j (f, s)
  = (f * cv_eta s,
     s <| cv_zn := rescale_step f j (cv_zn s) |>
       <| cv_znQ := if cv_quad s then rescale_step f j (cv_znQ s)
                    else cv_znQ s |>
       <| cv_znS := if cv_sensi s then rescale_row f j (cv_Ns s) (cv_znS s)
                    else cv_znS s |>).
Proof.
  unfold CVRescale_body. cbv zeta.
  set (s1 := s <| cv_zn := _ |>).
  change (cv_quad s1) with (cv_quad s).
  set (s2 := if cv_quad s then _ else s1).
  assert (E2 : s2 = s1 <| cv_znQ := if cv_quad s then rescale_step f j (cv_znQ s)
                                   else cv_znQ s |>).
  { unfold s2. destruct (cv_quad s); [reflexivity|].
    change (cv_znQ s) with (cv_znQ s1). now rewrite znQ_set_get. }
  clearbody s2. subst s2.
  set (s2 := s1 <| cv_znQ := _ |>).
  change (cv_sensi s2) with (cv_sensi s). change (cv_eta s) with (cv_eta s2).
  destruct (cv_sensi s).
  - unfold for_upto.
    rewrite (for_up_member cv_znS (setter cv_znS) znS_get_set znS_set_set
               znS_set_get _ _
               (fun is_ zS => sens_set zS j is_ (N_VScale f (sens_at zS j is_)))).
    reflexivity.
  - change (cv_znS s) with (cv_znS s2). now rewrite znS_set_get.
Qed.

(** The loop of [CVRescale] after [n] iterations. *)
Lemma CVRescale_loop s n :
  for_up n 1 CVRescale_body (cv_eta s, s)
  = (cv_eta s ^ S n,
     s <| cv_zn := rescale_cols (cv_eta s) n (cv_zn s) |>
       <| cv_znQ := if cv_quad s then rescale_cols (cv_eta s) n (cv_znQ s)
                    else cv_znQ s |>
       <| cv_znS := if cv_sensi s
                    then rescale_rows (cv_eta s) n (cv_Ns s) (cv_znS s)
                    else cv_znS s |>).
Proof.
  induction n as [|n IH].
  - cbn [for_up]. f_equal; [simpl; ring|].
    unfold rescale_cols, rescale_rows. cbn [for_up].
    destruct s; cbn.
    repeat match goal with
           | |- context [if ?b then _ else _] => destruct b
           end; reflexivity.
  - rewrite for_up_last, IH, CVRescale_body_members.
    replace (Z.to_nat (1 + Z.of_nat n)) with (S n) by lia.
    unfold rescale_cols, rescale_rows. rewrite !for_up_last.
    replace (Z.to_nat (1 + Z.of_nat n)) with (S n) by lia.
    f_equal; [cbn; ring|].
    destruct s; cbn.
    repeat match goal with
           | |- context [if ?b then _ else _] => destruct b
           end; reflexivity.
Qed.

(** [CVRescale] in one equation: the members it writes. *)
Lemma CVRescale_members s :
  let n := Z.to_nat (cv_q s) in
  CVRescale s
  = s <| cv_zn := rescale_cols (cv_eta s) n (cv_zn s) |>
      <| cv_znQ := if cv_quad s then rescale_cols (cv_eta s) n (cv_znQ s)
                   else cv_znQ s |>
      <| cv_znS := if cv_sensi s
                   then rescale_rows (cv_eta s) n (cv_Ns s) (cv_znS s)
                   else cv_znS s |>
      <| cv_h := cv_hscale s * cv_eta s |>
      <| cv_hscale := cv_hscale s * cv_eta s |>
      <| cv_nscon := 0%Z |>.
Proof.
  cbv zeta. change (CVRescale s) with (
    let '(factor, cv_mem) := for_upto 1 (cv_q s) CVRescale_body (cv_eta s, s) in
    let cv_mem := cv_mem <| cv_h := cv_hscale cv_mem * cv_eta cv_mem |> in
    let cv_mem := cv_mem <| cv_hscale := cv_h cv_mem |> in
    cv_mem <| cv_nscon := 0%Z |>).
  unfold for_upto. replace (Z.to_nat (cv_q s - 1 + 1)) with (Z.to_nat (cv_q s)) by lia.
  rewrite CVRescale_loop. reflexivity.
Qed.

(** X5. [CVRescale] multiplies column [j] of [zn] by [eta^j] for
    [j = 1..q] and leaves the other columns as they are; it does the same
    on [znQ] when quadratures are active and on [znS[j][is]],
    [is = 0..Ns-1], when sensitivities are active; then [h = hscale * eta],
    [hscale = h], [nscon = 0], and no other member is written. *)
Theorem CVRescale_scales cv_mem :
  let r := CVRescale cv_mem in
  let eta := cv_eta cv_mem in
  r = cv_mem <| cv_zn := cv_zn r |> <| cv_znQ := cv_znQ r |>
        <| cv_znS := cv_znS r |> <| cv_h := cv_hscale cv_mem * eta |>
        <| cv_hscale := cv_hscale cv_mem * eta |> <| cv_nscon := 0%Z |>
  /\ (forall j, vec_at (cv_zn r) j
        = if decide (1 <= j <= cv_q cv_mem)%Z
          then N_VScale (eta ^ Z.to_nat j) (vec_at (cv_zn cv_mem) j)
          else vec_at (cv_zn cv_mem) j)
  /\ (forall j, vec_at (cv_znQ r) j
        = if decide (cv_quad cv_mem = true /\ (1 <= j <= cv_q cv_mem)%Z)
          then N_VScale (eta ^ Z.to_nat j) (vec_at (cv_znQ cv_mem) j)
          else vec_at (cv_znQ cv_mem) j)
  /\ (forall j is_, (0 <= is_)%Z ->
        sens_at (cv_znS r) j is_
        = if decide (cv_sensi cv_mem = true /\ (1 <= j <= cv_q cv_mem)%Z
                     /\ (is_ < cv_Ns cv_mem)%Z)
          then N_VScale (eta ^ Z.to_nat j) (sens_at (cv_znS cv_mem) j is_)
          else sens_at (cv_znS cv_mem) j is_).
Proof.
  cbv zeta. pose proof (CVRescale_members cv_mem) as E. cbv zeta in E.
  set (n := Z.to_nat (cv_q cv_mem)) in E.
  split; [|split; [|split]].
  - rewrite E at 1. rewrite E. reflexivity.
  - intros j. rewrite E. cbn [setter set_cv_zn set_cv_znQ set_cv_znS set_cv_h
                              set_cv_hscale set_cv_nscon cv_zn].
    unfold vec_at. rewrite rescale_cols_nth.
    destruct (decide (1 <= j <= cv_q cv_mem)%Z).
    + rewrite decide_True by lia. reflexivity.
    + rewrite decide_False by lia. reflexivity.
  - intros j. rewrite E. cbn [setter set_cv_zn set_cv_znQ set_cv_znS set_cv_h
                              set_cv_hscale set_cv_nscon cv_znQ].
    unfold vec_at. destruct (cv_quad cv_mem).
    + rewrite rescale_cols_nth.
      destruct (decide (1 <= j <= cv_q cv_mem)%Z).
      * rewrite !decide_True by (try split; auto; lia). reflexivity.
      * rewrite decide_False by lia. rewrite decide_False by tauto. reflexivity.
    + rewrite decide_False by (intros [? _]; discriminate). reflexivity.
  - intros j is_ His. rewrite E.
    cbn [setter set_cv_zn set_cv_znQ set_cv_znS set_cv_h
         set_cv_hscale set_cv_nscon cv_znS].
    unfold sens_at, vec_at. destruct (cv_sensi cv_mem).
    + rewrite rescale_rows_nth.
      destruct (decide ((1 <= j <= cv_q cv_mem)%Z /\ (is_ < cv_Ns cv_mem)%Z)).
      * rewrite !decide_True by (try split; auto; lia). reflexivity.
      * rewrite decide_False by lia. rewrite decide_False by tauto. reflexivity.
    + rewrite decide_False by (intros [? _]; discriminate). reflexivity.
Qed.

Lemma CVRescale_scales_witness :
  sens_at (cv_znS (CVRescale rescale_example)) 2 0
  = N_VScale ((1 / 2) ^ 2) (sens_at (cv_znS rescale_example) 2 0).
Proof.
  destruct (CVRescale_scales rescale_example) as (_ & _ & _ & H).
  specialize (H 2%Z 0%Z ltac:(lia)).
  rewrite decide_True in H by (cbn; repeat split; lia).
  exact H.
Defined.

(** ** The nonlinear solver *)

(** Introduce the outermost [let] of the goal as a local definition. *)
Ltac let_goal :=
  match goal with
  | |- context C [let x := ?v in @?b x] =>
      let x' := fresh x in
      pose (x' := v);
      let g := context C [b x'] in
      let g' := eval cbv beta in g in
      change g'
  end.

(** Two memories with the same members: compared field by field. *)
Ltac mem_eq s := destruct s; lazy; reflexivity.

(** *** The members written by the sensitivity blocks *)

Lemma sens_rest_idem s : sens_rest (sens_rest s) = sens_rest s.
Proof. mem_eq s. Qed.

Lemma sens_work_intro s s' :
  sens_rest s' = sens_rest s ->
  s' = with_sens_work s (cv_tempvS s') (cv_yS s') (cv_acorS s')
         (cv_ftempS s') (cv_nfSe s').
Proof.
  intros H.
  transitivity (with_sens_work (sens_rest s') (cv_tempvS s') (cv_yS s')
                  (cv_acorS s') (cv_ftempS s') (cv_nfSe s'));
    [mem_eq s'|].
  rewrite H. mem_eq s.
Qed.

Lemma for_upto_sens_rest a b (body : Z -> CVodeMem -> CVodeMem) s :
  (forall i s', sens_rest (body i s') = sens_rest s') ->
  sens_rest (for_upto a b body s) = sens_rest s.
Proof.
  intros H. unfold for_upto.
  apply (for_up_inv (fun s' => sens_rest s' = sens_rest s)); [|reflexivity].
  intros i s' _ E. now rewrite H.
Qed.

Lemma CVSensRhs_sens_rest fS fS1 s t ycur fcur yScur fScur :
  sens_rest (snd (CVSensRhs fS fS1 s t ycur fcur yScur fScur)) = sens_rest s.
Proof.
  unfold CVSensRhs.
  destruct (decide (cv_ifS s = ALLSENS)); [cbn [snd]; mem_eq s|].
  unfold for_upto.
  apply (for_up_inv (fun st : list N_Vector * CVodeMem =>
                       sens_rest (snd st) = sens_rest s)); [|reflexivity].
  intros i [fc s'] _ E. cbn [snd] in *. rewrite <- E. mem_eq s'.
Qed.

Lemma sens_rhs_tempvS_rest fS fS1 s ycur fcur yScur :
  sens_rest (sens_rhs_tempvS fS fS1 s ycur fcur yScur) = sens_rest s.
Proof.
  unfold sens_rhs_tempvS.
  pose proof (CVSensRhs_sens_rest fS fS1 s (cv_tn s) ycur fcur yScur (cv_tempvS s)) as H.
  destruct (CVSensRhs _ _ _ _ _ _ _ _) as [fc s']. cbn [snd] in H.
  rewrite <- H. mem_eq s'.
Qed.

Lemma sens_rhs_ftempS_rest fS fS1 s ycur fcur yScur :
  sens_rest (sens_rhs_ftempS fS fS1 s ycur fcur yScur) = sens_rest s.
Proof.
  unfold sens_rhs_ftempS.
  pose proof (CVSensRhs_sens_rest fS fS1 s (cv_tn s) ycur fcur yScur (cv_ftempS s)) as H.
  destruct (CVSensRhs _ _ _ _ _ _ _ _) as [fc s']. cbn [snd] in H.
  rewrite <- H. mem_eq s'.
Qed.

Lemma nls_set_acnrm_member sim m del delS s :
  nls_set_acnrm sim m del delS s
  = s <| cv_acnrm := cv_acnrm (nls_set_acnrm sim m del delS s) |>.
Proof.
  unfold nls_set_acnrm.
  destruct (m =? 0)%Z; cbv zeta; destruct (sim && _); mem_eq s.
Qed.

Ltac sens_block sim x prev :=
  let H := fresh "H" in
  assert (H : sens_rest x = sens_rest prev)
    by (unfold x; destruct sim;
        [first [ apply sens_rhs_tempvS_rest | apply sens_rhs_ftempS_rest
               | apply for_upto_sens_rest; let s' := fresh "s" in
                 intros ? s'; mem_eq s' ]
        | reflexivity]);
  apply sens_work_intro in H;
  let a := fresh "tempvS" in
  let b := fresh "yS" in
  let c := fresh "acorS" in
  let d := fresh "ftempS" in
  let n := fresh "nfSe" in
  set (a := cv_tempvS x) in H; set (b := cv_yS x) in H;
  set (c := cv_acorS x) in H; set (d := cv_ftempS x) in H;
  set (n := cv_nfSe x) in H;
  clearbody a b c d n; clearbody x; subst x.

Lemma iter_written_trans s s' s'' :
  iter_written s' s = s' -> iter_written s'' s' = s'' -> iter_written s'' s = s''.
Proof.
  intros H1 H2. rewrite <- H2 at 2. rewrite <- H1.
  destruct s, s', s''; lazy; reflexivity.
Qed.

Section FunctionalIteration.
Variable f : R -> N_Vector -> N_Vector.
Variable fS : Z -> R -> N_Vector -> N_Vector -> list N_Vector -> list N_Vector.
Variable fS1 : Z -> R -> N_Vector -> N_Vector -> Z -> N_Vector -> N_Vector.

Lemma CVNlsFunctional_pass_spec sim m Delp s :
  match CVNlsFunctional_pass f fS fS1 sim m Delp s with
  | inl (flag, s') =>
      (flag = SOLVED \/ flag = CONV_FAIL)
      /\ iter_written s' s = s'
      /\ cv_nni s' = (cv_nni s + 1)%Z /\ cv_nfe s' = cv_nfe s
  | inr (m', Delp', s') =>
      m' = (m + 1)%Z /\ m' <> cv_maxcor s
      /\ iter_written s' s = s'
      /\ cv_nni s' = (cv_nni s + 1)%Z /\ cv_nfe s' = (cv_nfe s + 1)%Z
  end.
Proof.
  cbv beta delta [CVNlsFunctional_pass].
  repeat let_goal.
  sens_block sim cv_mem3 cv_mem2.
  sens_block sim cv_mem5 cv_mem4.
  sens_block sim cv_mem7 cv_mem6.
  sens_block sim cv_mem11 cv_mem10.
  assert (E8 : cv_mem8 = (with_sens_work cv_mem6 tempvS1 yS1 acorS1 ftempS1 nfSe1)
                           <| cv_crate := cv_crate cv_mem8 |>)
    by (unfold cv_mem8; destruct (m >? 0)%Z; mem_eq s).
  set (c := cv_crate cv_mem8) in E8. clearbody c. clearbody cv_mem8. subst cv_mem8.
  destruct (Rle_dec dcon ONE) as [Hc|Hc].
  { rewrite nls_set_acnrm_member.
    set (v := cv_acnrm (nls_set_acnrm _ _ _ _ _)). clearbody v.
    split; [left; reflexivity|]. split; [mem_eq s | split; reflexivity]. }
  destruct (_ || _) eqn:Em.
  { split; [right; reflexivity|]. split; [mem_eq s | split; reflexivity]. }
  apply orb_false_iff in Em. destruct Em as [Em _].
  change (cv_maxcor _) with (cv_maxcor s) in Em. apply Z.eqb_neq in Em.
  split; [reflexivity|]. split; [exact Em|].
  split; [mem_eq s | split; reflexivity].
Qed.

Lemma CVNlsFunctional_loop_returns sim fuel m Delp s :
  (0 <= m < cv_maxcor s)%Z -> (Z.to_nat (cv_maxcor s - m) <= fuel)%nat ->
  exists flag s',
    CVNlsFunctional_loop f fS fS1 fuel sim m Delp s = Some (flag, s')
    /\ (flag = SOLVED \/ flag = CONV_FAIL)
    /\ iter_written s' s = s'
    /\ (1 <= cv_nni s' - cv_nni s <= cv_maxcor s - m)%Z
    /\ (cv_nfe s' - cv_nfe s = cv_nni s' - cv_nni s - 1)%Z.
Proof.
  revert m Delp s. induction fuel as [|fuel IH]; intros m Delp s Hm Hfuel; [lia|].
  cbn [CVNlsFunctional_loop].
  pose proof (CVNlsFunctional_pass_spec sim m Delp s) as Hp.
  destruct (CVNlsFunctional_pass f fS fS1 sim m Delp s)
    as [[flag s']|[[m' Delp'] s']].
  - destruct Hp as (Hf & Hw & Hn & He).
    exists flag, s'. repeat split; auto; lia.
  - destruct Hp as (-> & Hne & Hw & Hn & He).
    assert (Hmax : cv_maxcor s' = cv_maxcor s) by (rewrite <- Hw; reflexivity).
    destruct (IH (m + 1)%Z Delp' s') as (flag & s'' & E & Hf & Hw' & Hn' & He');
      [lia | lia |].
    exists flag, s''. rewrite Hmax in Hn'.
    split; [exact E|]. split; [exact Hf|].
    split; [exact (iter_written_trans _ _ _ Hw Hw')|]. lia.
Qed.
End FunctionalIteration.

(** [CVNlsFunctional] returns, and what it leaves behind. *)
Lemma CVNlsFunctional_spec f fS fS1 cv_mem fuel :
  (1 <= cv_maxcor cv_mem)%Z -> (Z.to_nat (cv_maxcor cv_mem) <= fuel)%nat ->
  exists flag cv_mem',
    CVNlsFunctional f fS fS1 fuel cv_mem = Some (flag, cv_mem')
    /\ (flag = SOLVED \/ flag = CONV_FAIL)
    /\ (1 <= cv_nni cv_mem' - cv_nni cv_mem <= cv_maxcor cv_mem)%Z
    /\ (cv_nfe cv_mem' - cv_nfe cv_mem = cv_nni cv_mem' - cv_nni cv_mem)%Z
    /\ iter_written cv_mem' cv_mem = cv_mem'.
Proof.
  intros Hmax Hfuel. cbv beta delta [CVNlsFunctional].
  repeat let_goal. rename cv_mem into s.
  sens_block do_sensi_sim cv_mem3 cv_mem2.
  sens_block do_sensi_sim cv_mem5 cv_mem4.
  set (s5 := with_sens_work cv_mem4 _ _ _ _ _).
  assert (H5 : iter_written s5 s = s5) by mem_eq s.
  assert (Hn : cv_nni s5 = cv_nni s) by reflexivity.
  assert (He : cv_nfe s5 = (cv_nfe s + 1)%Z) by reflexivity.
  assert (Hc : cv_maxcor s5 = cv_maxcor s) by reflexivity.
  clearbody s5.
  destruct (CVNlsFunctional_loop_returns f fS fS1 do_sensi_sim fuel m 0 s5)
    as (flag & s' & E & Hf & Hw & Hn' & He'); [unfold m; lia | unfold m; lia |].
  exists flag, s'. split; [exact E|]. split; [exact Hf|].
  split; [unfold m in *; lia|]. split; [unfold m in *; lia|].
  exact (iter_written_trans _ _ _ H5 Hw).
Qed.

(** What [iter_written] leaves alone. *)
Lemma iter_written_history s s' : iter_written s' s = s' -> history_kept s s'.
Proof.
  intros H. unfold history_kept. rewrite <- H.
  destruct s, s'; lazy; auto 10.
Qed.

(** X6. With [maxcor >= 1] the functional iteration returns after at most
    [maxcor] passes: the flag is SOLVED or CONV_FAIL, [nni] has grown by
    the number of passes (between 1 and [maxcor]) and [nfe] by the same
    number; the Nordsieck arrays [zn], [znQ], [znS], the step size [h],
    the order [q] and the time [tn] are as before. *)
Theorem CVNlsFunctional_returns f fS fS1 cv_mem fuel :
  (1 <= cv_maxcor cv_mem)%Z -> (Z.to_nat (cv_maxcor cv_mem) <= fuel)%nat ->
  exists flag cv_mem',
    CVNlsFunctional f fS fS1 fuel cv_mem = Some (flag, cv_mem')
    /\ (flag = SOLVED \/ flag = CONV_FAIL)
    /\ (1 <= cv_nni cv_mem' - cv_nni cv_mem <= cv_maxcor cv_mem)%Z
    /\ (cv_nfe cv_mem' - cv_nfe cv_mem = cv_nni cv_mem' - cv_nni cv_mem)%Z
    /\ history_kept cv_mem cv_mem'.
Proof.
  intros Hmax Hfuel.
  destruct (CVNlsFunctional_spec f fS fS1 cv_mem fuel Hmax Hfuel)
    as (flag & s' & E & Hf & Hn & He & W).
  exists flag, s'. split; [exact E|]. split; [exact Hf|].
  split; [exact Hn|]. split; [exact He|]. exact (iter_written_history _ _ W).
Qed.

Lemma CVNlsFunctional_returns_witness :
  exists flag cv_mem',
    CVNlsFunctional f_example fS_example fS1_example 3
      (sim_example ADAMS FUNCTIONAL) = Some (flag, cv_mem')
    /\ (flag = SOLVED \/ flag = CONV_FAIL)
    /\ (1 <= cv_nni cv_mem' - cv_nni (sim_example ADAMS FUNCTIONAL) <= 3)%Z.
Proof.
  destruct (CVNlsFunctional_returns f_example fS_example fS1_example
              (sim_example ADAMS FUNCTIONAL) 3)
    as (flag & s' & E & Hf & Hn & _).
  - cbn. lia.
  - cbn. lia.
  - exists flag, s'. exact (conj E (conj Hf Hn)).
Defined.

Section NewtonIteration.
Variable f : R -> N_Vector -> N_Vector.
Variable fS : Z -> R -> N_Vector -> N_Vector -> list N_Vector -> list N_Vector.
Variable fS1 : Z -> R -> N_Vector -> N_Vector -> Z -> N_Vector -> N_Vector.
Variable LS : Type.
Variable lsetup : LS -> CVodeMem -> convfail_t -> N_Vector -> N_Vector
                  -> Z * bool * LS.
Variable lsolve : LS -> CVodeMem -> N_Vector -> N_Vector -> N_Vector
                  -> N_Vector -> Z * N_Vector * LS.

Lemma newton_sens_solves_spec n is_ ls s :
  sens_rest (snd (newton_sens_solves LS lsolve n is_ ls s)) = sens_rest s
  /\ (fst (fst (newton_sens_solves LS lsolve n is_ ls s)) = None
      \/ fst (fst (newton_sens_solves LS lsolve n is_ ls s)) = Some SOLVE_FAIL_UNREC
      \/ fst (fst (newton_sens_solves LS lsolve n is_ ls s))
         = Some (newton_recoverable s)).
Proof.
  revert is_ ls s. induction n as [|n IH]; intros is_ ls s.
  - cbn. auto.
  - cbn [newton_sens_solves].
    destruct (lsolve ls s _ _ _ _) as [[ret b] ls1].
    set (s1 := s <| cv_tempvS := _ |>).
    assert (E1 : sens_rest s1 = sens_rest s) by mem_eq s.
    assert (R1 : newton_recoverable s1 = newton_recoverable s) by reflexivity.
    clearbody s1.
    destruct (ret <? 0)%Z; [cbn; auto|].
    destruct (ret >? 0)%Z; [cbn; rewrite R1; auto|].
    destruct (IH (is_ + 1)%Z ls1 s1) as [H1 H2].
    rewrite H1, E1, <- R1. auto.
Qed.

Lemma newton_sens_systems_spec (sim : bool) ls s :
  let r := if sim then newton_sens_systems LS lsolve ls s else (None, ls, s) in
  sens_rest (snd r) = sens_rest s
  /\ (fst (fst r) = None \/ fst (fst r) = Some SOLVE_FAIL_UNREC
      \/ fst (fst r) = Some (newton_recoverable s)).
Proof.
  cbv zeta. destruct sim;
    [|cbn [fst snd]; split; [reflexivity | left; reflexivity]].
  unfold newton_sens_systems.
  match goal with
  | |- context [for_upto ?a ?b ?body s] => set (s1 := for_upto a b body s)
  end.
  assert (E1 : sens_rest s1 = sens_rest s).
  { apply for_upto_sens_rest. intros i s'. mem_eq s'. }
  assert (R1 : newton_recoverable s1 = newton_recoverable s).
  { unfold newton_recoverable.
    change (cv_jcur s1) with (cv_jcur (sens_rest s1)).
    change (cv_setupNonNull s1) with (cv_setupNonNull (sens_rest s1)).
    now rewrite E1. }
  clearbody s1.
  destruct (newton_sens_solves_spec (Z.to_nat (cv_Ns s1)) 0 ls s1) as [H1 H2].
  rewrite H1, E1, <- R1. split; [reflexivity | exact H2].
Qed.

Lemma CVNewtonIteration_pass_spec sim m Delp ls s :
  match CVNewtonIteration_pass f fS fS1 LS lsolve sim m Delp ls s with
  | inl (flag, ls', s') =>
      iter_written s' s = s' /\ cv_nni s' = (cv_nni s + 1)%Z
      /\ (cv_mnewt s' = cv_mnewt s \/ cv_mnewt s' = (m + 1)%Z)
      /\ (flag = SOLVED /\ cv_jcur s' = false
          \/ cv_jcur s' = cv_jcur s
             /\ (flag = SOLVE_FAIL_UNREC \/ flag = newton_recoverable s))
  | inr (m', Delp', ls', s') =>
      m' = (m + 1)%Z /\ m' <> cv_maxcor s
      /\ iter_written s' s = s' /\ cv_nni s' = (cv_nni s + 1)%Z
      /\ cv_mnewt s' = m' /\ cv_jcur s' = cv_jcur s
  end.
Proof.
  cbv beta delta [CVNewtonIteration_pass].
  let_goal. let_goal.
  destruct (lsolve ls cv_mem0 _ _ _ _) as [[ret b] ls1].
  let_goal. let_goal.
  destruct (ret <? 0)%Z.
  { split; [mem_eq s|]. split; [reflexivity|]. split; [left; reflexivity|].
    right. split; [reflexivity|]. left; reflexivity. }
  destruct (ret >? 0)%Z.
  { split; [mem_eq s|]. split; [reflexivity|]. split; [left; reflexivity|].
    right. split; [reflexivity|]. right; reflexivity. }
  pose proof (newton_sens_systems_spec sim ls1 cv_mem2) as Hs. cbv zeta in Hs.
  destruct (if sim then _ else _) as [[early ls2] s3]. cbn [fst snd] in Hs.
  destruct Hs as [E3 Hearly]. apply sens_work_intro in E3.
  set (tS := cv_tempvS s3) in E3. set (yS := cv_yS s3) in E3.
  set (aS := cv_acorS s3) in E3. set (fS0 := cv_ftempS s3) in E3.
  set (nS := cv_nfSe s3) in E3. clearbody tS yS aS fS0 nS. subst s3.
  destruct early as [flag|].
  { split; [mem_eq s|]. split; [reflexivity|]. split; [left; reflexivity|].
    right. split; [reflexivity|].
    destruct Hearly as [H|[H|H]]; [discriminate | left | right];
      injection H as ->; reflexivity. }
  clear Hearly.
  repeat let_goal.
  sens_block sim cv_mem5 cv_mem4.
  match goal with
  | x := if (m >? 0)%Z then _ else ?p |- _ =>
      assert (E6 : x = p <| cv_crate := cv_crate x |>)
        by (unfold x; destruct (m >? 0)%Z; mem_eq s);
      set (c := cv_crate x) in E6; clearbody c; clearbody x; subst x
  end.
  match goal with
  | x := nls_set_acnrm _ _ _ _ ?p |- _ =>
      assert (E7 : x = p <| cv_acnrm := cv_acnrm x |>)
        by (apply nls_set_acnrm_member);
      set (v := cv_acnrm x) in E7; clearbody v; clearbody x; subst x
  end.
  sens_block sim cv_mem12 cv_mem11.
  destruct (Rle_dec dcon ONE) as [Hc|Hc].
  { split; [mem_eq s|]. split; [reflexivity|]. split; [left; reflexivity|].
    left. split; reflexivity. }
  destruct (_ || _) eqn:Em.
  { split; [mem_eq s|]. split; [reflexivity|]. split; [right; reflexivity|].
    right. split; [reflexivity|]. right. reflexivity. }
  apply orb_false_iff in Em. destruct Em as [Em _].
  change (cv_maxcor _) with (cv_maxcor s) in Em. apply Z.eqb_neq in Em.
  split; [reflexivity|]. split; [exact Em|].
  split; [mem_eq s|]. split; [reflexivity|]. split; reflexivity.
Qed.

Lemma CVNewtonIteration_loop_returns sim fuel m Delp ls s :
  (0 <= m < cv_maxcor s)%Z -> (Z.to_nat (cv_maxcor s - m) <= fuel)%nat ->
  cv_mnewt s = m ->
  exists flag ls' s',
    CVNewtonIteration_loop f fS fS1 LS lsolve fuel sim m Delp ls s
    = Some (flag, ls', s')
    /\ iter_written s' s = s'
    /\ (1 <= cv_nni s' - cv_nni s <= cv_maxcor s - m)%Z
    /\ (m <= cv_mnewt s' <= cv_maxcor s)%Z
    /\ (flag = SOLVED /\ cv_jcur s' = false
        \/ cv_jcur s' = cv_jcur s
           /\ (flag = SOLVE_FAIL_UNREC \/ flag = newton_recoverable s)).
Proof.
  revert m Delp ls s.
  induction fuel as [|fuel IH]; intros m Delp ls s Hm Hfuel Hmn; [lia|].
  cbn [CVNewtonIteration_loop].
  pose proof (CVNewtonIteration_pass_spec sim m Delp ls s) as Hp.
  destruct (CVNewtonIteration_pass f fS fS1 LS lsolve sim m Delp ls s)
    as [[[flag ls'] s']|[[[m' Delp'] ls'] s']].
  - destruct Hp as (Hw & Hn & Hmw & Hf).
    exists flag, ls', s'. split; [reflexivity|]. split; [exact Hw|].
    split; [lia|]. split; [lia | exact Hf].
  - destruct Hp as (-> & Hne & Hw & Hn & Hmw & Hj).
    assert (Hmax : cv_maxcor s' = cv_maxcor s) by (rewrite <- Hw; reflexivity).
    assert (Hrec : newton_recoverable s' = newton_recoverable s).
    { unfold newton_recoverable. rewrite Hj. f_equal.
      rewrite <- Hw. reflexivity. }
    destruct (IH (m + 1)%Z Delp' ls' s')
      as (flag & ls'' & s'' & E & Hw' & Hn' & Hmw' & Hf'); [lia | lia | exact Hmw |].
    exists flag, ls'', s''. rewrite Hmax in *. rewrite Hj, Hrec in Hf'.
    split; [exact E|]. split; [exact (iter_written_trans _ _ _ Hw Hw')|].
    split; [lia|]. split; [lia | exact Hf'].
Qed.

Lemma TRY_AGAIN_distinct :
  TRY_AGAIN <> SOLVED /\ TRY_AGAIN <> CONV_FAIL
  /\ TRY_AGAIN <> SOLVE_FAIL_UNREC /\ TRY_AGAIN <> SETUP_FAIL_UNREC.
Proof. repeat split; discriminate. Qed.

Lemma newton_recoverable_cases s :
  newton_recoverable s = TRY_AGAIN
    /\ cv_jcur s = false /\ cv_setupNonNull s = true
  \/ newton_recoverable s = CONV_FAIL
    /\ (cv_jcur s = true \/ cv_setupNonNull s = false).
Proof.
  unfold newton_recoverable.
  destruct (cv_jcur s), (cv_setupNonNull s); cbn; auto.
Qed.

Lemma CVNewtonIteration_spec fuel ls s :
  (1 <= cv_maxcor s)%Z -> (Z.to_nat (cv_maxcor s) <= fuel)%nat ->
  exists flag ls' s',
    CVNewtonIteration f fS fS1 LS lsolve fuel ls s = Some (flag, ls', s')
    /\ iter_written s' s = s'
    /\ (1 <= cv_nni s' - cv_nni s <= cv_maxcor s)%Z
    /\ (0 <= cv_mnewt s' <= cv_maxcor s)%Z
    /\ (flag = SOLVED /\ cv_jcur s' = false
        \/ cv_jcur s' = cv_jcur s
           /\ (flag = SOLVE_FAIL_UNREC \/ flag = newton_recoverable s)).
Proof.
  intros Hmax Hfuel. cbv beta delta [CVNewtonIteration]. repeat let_goal.
  set (s0 := s <| cv_mnewt := m |>).
  destruct (CVNewtonIteration_loop_returns do_sensi_sim fuel m 0 ls s0)
    as (flag & ls' & s' & E & Hw & Hn & Hm & Hf);
    [unfold m; change (cv_maxcor s0) with (cv_maxcor s); lia
    |unfold m; change (cv_maxcor s0) with (cv_maxcor s); lia
    |reflexivity|].
  exists flag, ls', s'. split; [exact E|].
  assert (H0 : iter_written s0 s = s0) by mem_eq s.
  split; [exact (iter_written_trans _ _ _ H0 Hw)|].
  change (cv_maxcor s0) with (cv_maxcor s) in *.
  change (cv_nni s0) with (cv_nni s) in *.
  change (cv_jcur s0) with (cv_jcur s) in *.
  change (newton_recoverable s0) with (newton_recoverable s) in *.
  unfold m in *. split; [lia|]. split; [lia | exact Hf].
Qed.
End NewtonIteration.

(** X7. With [maxcor >= 1] the Newton iteration returns after at most
    [maxcor] passes, each with one call of [lsolve] on the state system:
    [nni] grows by the number of passes and [mnewt] ends between 0 and
    [maxcor].  It returns SOLVED (and then marks the Jacobian data as not
    current), SOLVE_FAIL_UNREC, CONV_FAIL, or TRY_AGAIN; TRY_AGAIN only
    when a setup routine exists and the Jacobian data was not current on
    entry, CONV_FAIL only otherwise.  The Nordsieck arrays [zn], [znQ],
    [znS], the step size [h], the order [q] and the time [tn] are as
    before. *)
Theorem CVNewtonIteration_returns f fS fS1 LS lsolve fuel (ls : LS) cv_mem :
  (1 <= cv_maxcor cv_mem)%Z -> (Z.to_nat (cv_maxcor cv_mem) <= fuel)%nat ->
  exists flag ls' cv_mem',
    CVNewtonIteration f fS fS1 LS lsolve fuel ls cv_mem
    = Some (flag, ls', cv_mem')
    /\ (flag = SOLVED /\ cv_jcur cv_mem' = false
        \/ flag = SOLVE_FAIL_UNREC /\ cv_jcur cv_mem' = cv_jcur cv_mem
        \/ flag = TRY_AGAIN /\ cv_jcur cv_mem' = cv_jcur cv_mem
           /\ cv_jcur cv_mem = false /\ cv_setupNonNull cv_mem = true
        \/ flag = CONV_FAIL /\ cv_jcur cv_mem' = cv_jcur cv_mem
           /\ (cv_jcur cv_mem = true \/ cv_setupNonNull cv_mem = false))
    /\ (1 <= cv_nni cv_mem' - cv_nni cv_mem <= cv_maxcor cv_mem)%Z
    /\ (0 <= cv_mnewt cv_mem' <= cv_maxcor cv_mem)%Z
    /\ history_kept cv_mem cv_mem'.
Proof.
  intros Hmax Hfuel.
  destruct (CVNewtonIteration_spec f fS fS1 LS lsolve fuel ls cv_mem Hmax Hfuel)
    as (flag & ls' & s' & E & Hw & Hn & Hm & Hf).
  exists flag, ls', s'. split; [exact E|].
  split; [|split; [exact Hn | split; [exact Hm
                                     | exact (iter_written_history _ _ Hw)]]].
  destruct Hf as [[-> Hj]|[Hj [->| ->]]]; [left; auto | right; left; auto |].
  destruct (newton_recoverable_cases cv_mem) as [(-> & H1 & H2)|(-> & H)];
    [right; right; left | right; right; right]; auto.
Qed.

Lemma CVNewtonIteration_returns_witness :
  exists flag ls' cv_mem',
    CVNewtonIteration f_example fS_example fS1_example unit lsolve_example
      3 tt (sim_example BDF NEWTON) = Some (flag, ls', cv_mem')
    /\ (1 <= cv_nni cv_mem' - cv_nni (sim_example BDF NEWTON) <= 3)%Z.
Proof.
  destruct (CVNewtonIteration_returns f_example fS_example fS1_example unit
              lsolve_example 3 tt (sim_example BDF NEWTON))
    as (flag & ls' & s' & E & _ & Hn & _).
  - cbn. lia.
  - cbn. lia.
  - exists flag, ls', s'. exact (conj E Hn).
Defined.

Lemma nls_written_trans s s' s'' :
  nls_written s' s = s' -> nls_written s'' s' = s'' -> nls_written s'' s = s''.
Proof.
  intros H1 H2. rewrite <- H2 at 2. rewrite <- H1.
  destruct s, s', s''; lazy; reflexivity.
Qed.

Lemma iter_written_nls s s' : iter_written s' s = s' -> nls_written s' s = s'.
Proof.
  intros H. rewrite <- H. destruct s, s'; lazy; reflexivity.
Qed.

Lemma nls_written_history s s' : nls_written s' s = s' -> history_kept s s'.
Proof.
  intros H. unfold history_kept. rewrite <- H.
  destruct s, s'; lazy; auto 10.
Qed.

(** Forget the body of a local definition: what follows is proved for
    an arbitrary value with the properties established so far. *)
Ltac forget x := clearbody x; generalize dependent x; intros x; intros.

Section NewtonSolver.
Variable f : R -> N_Vector -> N_Vector.
Variable fS : Z -> R -> N_Vector -> N_Vector -> list N_Vector -> list N_Vector.
Variable fS1 : Z -> R -> N_Vector -> N_Vector -> Z -> N_Vector -> N_Vector.
Variable LS : Type.
Variable lsetup : LS -> CVodeMem -> convfail_t -> N_Vector -> N_Vector
                  -> Z * bool * LS.
Variable lsolve : LS -> CVodeMem -> N_Vector -> N_Vector -> N_Vector
                  -> N_Vector -> Z * N_Vector * LS.

Lemma newton_setup_spec (cs : bool) cf ls s :
  exists ier jcur ls',
    newton_setup LS lsetup cs cf ls s
    = (ier, ls',
       s <| cv_jcur := jcur |>
         <| cv_nsetups := (cv_nsetups s + (if cs then 1 else 0))%Z |>
         <| cv_forceSetup := if cs then false else cv_forceSetup s |>
         <| cv_gamrat := if cs then ONE else cv_gamrat s |>
         <| cv_gammap := if cs then cv_gamma s else cv_gammap s |>
         <| cv_crate := if cs then ONE else cv_crate s |>
         <| cv_crateS := if cs then ONE else cv_crateS s |>
         <| cv_nstlp := if cs then cv_nst s else cv_nstlp s |>)
    /\ (if cs
        then jcur = snd (fst (lsetup ls s cf (vec_at (cv_zn s) 0) (cv_ftemp s)))
        else jcur = cv_jcur s /\ ier = 0%Z).
Proof.
  unfold newton_setup. destruct cs.
  - destruct (lsetup ls s cf _ _) as [[ier jcur] ls'].
    exists ier, jcur, ls'. split; [|reflexivity]. cbv zeta.
    f_equal; mem_eq s.
  - exists 0%Z, (cv_jcur s), ls. split; [|split; reflexivity].
    rewrite Z.add_0_r. f_equal; mem_eq s.
Qed.

Lemma CVNlsNewton_pass_spec fuel sim (cs : bool) cf ls s :
  (1 <= cv_maxcor s)%Z -> (Z.to_nat (cv_maxcor s) <= fuel)%nat ->
  exists r,
    CVNlsNewton_pass f fS fS1 LS lsetup lsolve fuel sim cs cf ls s = Some r
    /\ match r with
       | inl (flag, ls', s') =>
           nls_written s' s = s' /\ after_setup cs s s'
           /\ (flag = SOLVED \/ flag = CONV_FAIL \/ flag = SOLVE_FAIL_UNREC
               \/ flag = SETUP_FAIL_UNREC /\ cs = true)
       | inr (cs', cf', ls', s') =>
           cs' = true /\ cf' = FAIL_BAD_J
           /\ nls_written s' s = s' /\ after_setup cs s s'
           /\ cv_setupNonNull s = true
           /\ (cs = true -> exists ls0 s0 y0 f0,
                 snd (fst (lsetup ls0 s0 cf y0 f0)) = false)
       end.
Proof.
  intros Hmax Hfuel. cbv beta delta [CVNlsNewton_pass].
  let_goal. let_goal. let_goal.
  sens_block sim cv_mem1 cv_mem0.
  set (s1 := with_sens_work cv_mem0 _ _ _ _ _).
  destruct (newton_setup_spec cs cf ls s1) as (ier & jcur & ls1 & E & Hj).
  rewrite E. clear E.
  set (s2 := s1 <| cv_jcur := jcur |> <| cv_nsetups := _ |> <| cv_forceSetup := _ |>
                <| cv_gamrat := _ |> <| cv_gammap := _ |> <| cv_crate := _ |>
                <| cv_crateS := _ |> <| cv_nstlp := _ |>).
  assert (A2 : after_setup cs s s2).
  { unfold after_setup, setup_state. split; [reflexivity|].
    destruct cs; repeat split. }
  assert (W2 : nls_written s2 s = s2) by (destruct cs; mem_eq s).
  assert (J2 : cv_jcur s2 = jcur) by reflexivity.
  assert (N2 : cv_setupNonNull s2 = cv_setupNonNull s) by reflexivity.
  assert (M2 : cv_maxcor s2 = cv_maxcor s) by reflexivity.
  forget s2.
  destruct (ier <? 0)%Z eqn:Ei.
  { eexists. split; [reflexivity|]. split; [exact W2|]. split; [exact A2|].
    right; right; right. split; [reflexivity|].
    destruct cs; [reflexivity|]. destruct Hj as [_ ->]. discriminate. }
  destruct (ier >? 0)%Z.
  { eexists. split; [reflexivity|]. split; [exact W2|]. split; [exact A2|].
    right; left; reflexivity. }
  let_goal. let_goal. let_goal.
  sens_block sim cv_mem3 cv_mem2.
  set (s3 := with_sens_work cv_mem2 _ _ _ _ _).
  assert (W3 : iter_written s3 s2 = s3) by mem_eq s2.
  assert (R3 : newton_recoverable s3 = newton_recoverable s2) by mem_eq s2.
  assert (M3 : cv_maxcor s3 = cv_maxcor s2) by mem_eq s2.
  forget s3. clear cv_mem1 cv_mem2.
  rewrite M2 in M3.
  destruct (CVNewtonIteration_spec f fS fS1 LS lsolve fuel ls1 s3)
    as (flag & ls2 & s4 & E & W4 & _ & _ & Hf); [lia | lia |].
  rewrite E. clear E.
  pose proof (iter_written_trans _ _ _ W3 W4) as W24.
  assert (W : nls_written s4 s = s4)
    by exact (nls_written_trans _ _ _ W2 (iter_written_nls _ _ W24)).
  assert (A4 : after_setup cs s s4).
  { assert (F : cv_nsetups s4 = cv_nsetups s2 /\ cv_gamrat s4 = cv_gamrat s2
                  /\ cv_gammap s4 = cv_gammap s2 /\ cv_nstlp s4 = cv_nstlp s2
                  /\ cv_forceSetup s4 = cv_forceSetup s2).
    { rewrite <- W24. destruct s2, s4; lazy; auto 10. }
    destruct F as (F1 & F2 & F3 & F4 & F5).
    unfold after_setup, setup_state in *. rewrite F1, F2, F3, F4, F5.
    exact A2. }
  rewrite R3 in Hf.
  destruct (Z.eqb_spec flag TRY_AGAIN) as [->|Hne]; cbn [negb].
  - eexists. split; [reflexivity|].
    split; [reflexivity|]. split; [reflexivity|]. split; [exact W|].
    split; [exact A4|].
    destruct Hf as [[Hf _]|[_ [Hf|Hf]]]; try discriminate Hf.
    destruct (newton_recoverable_cases s2) as [(_ & H1 & H2)|(H1 & _)];
      [|rewrite H1 in Hf; discriminate Hf].
    split; [now rewrite <- N2|].
    intros ->. exists ls, s1, (vec_at (cv_zn s1) 0), (cv_ftemp s1).
    now rewrite <- Hj, <- J2.
  - eexists. split; [reflexivity|]. split; [exact W|]. split; [exact A4|].
    destruct Hf as [[-> _]|[_ [->|Hf]]]; auto.
    destruct (newton_recoverable_cases s2) as [(H1 & _)|(H1 & _)];
      rewrite H1 in Hf; [congruence | auto].
Qed.

(** A pass that cannot end in TRY_AGAIN: there is no setup routine, or
    [lsetup] has just been called for out-of-date Jacobian data and has
    brought them up to date. *)
Lemma CVNlsNewton_pass_final fuel sim (cs : bool) cf ls s :
  (1 <= cv_maxcor s)%Z -> (Z.to_nat (cv_maxcor s) <= fuel)%nat ->
  cv_setupNonNull s = false
  \/ (cs = true /\ forall ls0 s0 y0 f0, snd (fst (lsetup ls0 s0 cf y0 f0)) = true) ->
  exists flag ls' s',
    CVNlsNewton_pass f fS fS1 LS lsetup lsolve fuel sim cs cf ls s
    = Some (inl (flag, ls', s'))
    /\ nls_written s' s = s' /\ after_setup cs s s'
    /\ (flag = SOLVED \/ flag = CONV_FAIL \/ flag = SOLVE_FAIL_UNREC
        \/ flag = SETUP_FAIL_UNREC /\ cs = true).
Proof.
  intros Hmax Hfuel Hno.
  destruct (CVNlsNewton_pass_spec fuel sim cs cf ls s Hmax Hfuel) as (r & E & Hr).
  destruct r as [[[flag ls'] s']|[[[cs' cf'] ls'] s']].
  - exists flag, ls', s'. split; [exact E | exact Hr].
  - exfalso. destruct Hr as (_ & _ & _ & _ & Hnn & Hj).
    destruct Hno as [Hno|[Hcs Hc]]; [congruence|].
    destruct (Hj Hcs) as (ls0 & s0 & y0 & f0 & H). rewrite Hc in H. discriminate.
Qed.

Lemma CVNlsNewton_loop_spec passes fuel sim (cs : bool) cf ls s :
  (1 <= cv_maxcor s)%Z -> (Z.to_nat (cv_maxcor s) <= fuel)%nat ->
  (forall ls0 s0 y0 f0, snd (fst (lsetup ls0 s0 FAIL_BAD_J y0 f0)) = true) ->
  (2 <= passes)%nat ->
  exists flag ls' s' (retried : bool),
    CVNlsNewton_loop f fS fS1 LS lsetup lsolve passes fuel sim cs cf ls s
    = Some (flag, ls', s')
    /\ nls_written s' s = s'
    /\ setup_state (cs || retried) s s'
    /\ cv_nsetups s' = (cv_nsetups s + (if cs then 1 else 0)
                        + (if retried then 1 else 0))%Z
    /\ (retried = true -> cv_setupNonNull s = true)
    /\ (flag = SOLVED \/ flag = CONV_FAIL \/ flag = SOLVE_FAIL_UNREC
        \/ flag = SETUP_FAIL_UNREC /\ (cs || retried) = true).
Proof.
  intros Hmax Hfuel Hc Hp.
  destruct passes as [|[|passes]]; [lia | lia |].
  cbn [CVNlsNewton_loop].
  destruct (CVNlsNewton_pass_spec fuel sim cs cf ls s Hmax Hfuel) as (r & E & Hr).
  rewrite E.
  destruct r as [[[flag ls'] s']|[[[cs' cf'] ls'] s']].
  - destruct Hr as (W & [An A] & Hf).
    exists flag, ls', s', false. rewrite orb_false_r, Z.add_0_r.
    split; [reflexivity|]. split; [exact W|]. split; [exact A|].
    split; [exact An|]. split; [discriminate | exact Hf].
  - destruct Hr as (-> & -> & W & [An A] & Hnn & _).
    assert (F : cv_maxcor s' = cv_maxcor s /\ cv_gamma s' = cv_gamma s
                /\ cv_nst s' = cv_nst s).
    { rewrite <- W. destruct s, s'; lazy; auto. }
    destruct F as (Fm & Fg & Fn).
    destruct (CVNlsNewton_pass_final fuel sim true FAIL_BAD_J ls' s')
      as (flag & ls'' & s'' & E2 & W2 & [An2 A2] & Hf); [lia | lia | right; auto |].
    rewrite E2.
    exists flag, ls'', s'', true. rewrite orb_true_r.
    split; [reflexivity|]. split; [exact (nls_written_trans _ _ _ W W2)|].
    unfold setup_state in *. rewrite Fg, Fn in A2.
    split; [exact A2|]. split; [lia|]. split; [auto | tauto].
Qed.

Lemma CVNlsNewton_spec passes fuel ls s nflag :
  (1 <= cv_maxcor s)%Z -> (Z.to_nat (cv_maxcor s) <= fuel)%nat ->
  (forall ls0 s0 y0 f0, snd (fst (lsetup ls0 s0 FAIL_BAD_J y0 f0)) = true) ->
  (2 <= passes)%nat ->
  exists flag ls' s' (retried : bool),
    CVNlsNewton f fS fS1 LS lsetup lsolve passes fuel ls s nflag
    = Some (flag, ls', s')
    /\ nls_written s' s = s'
    /\ setup_state (newton_callSetup s nflag || retried) s s'
    /\ cv_nsetups s' = (cv_nsetups s
                        + (if newton_callSetup s nflag then 1 else 0)
                        + (if retried then 1 else 0))%Z
    /\ (retried = true -> cv_setupNonNull s = true)
    /\ (flag = SOLVED \/ flag = CONV_FAIL \/ flag = SOLVE_FAIL_UNREC
        \/ flag = SETUP_FAIL_UNREC
           /\ (newton_callSetup s nflag || retried) = true).
Proof.
  intros Hmax Hfuel Hc Hp. cbv beta delta [CVNlsNewton].
  let_goal. let_goal. unfold newton_callSetup.
  destruct (cv_setupNonNull s) eqn:Hnn; cbn [andb].
  - destruct (cv_forceSetup s) eqn:Hfs; cbn [orb].
    + pose proof (CVNlsNewton_loop_spec passes fuel do_sensi_sim true
                    FAIL_OTHER ls s Hmax Hfuel Hc Hp) as H.
      rewrite Hnn in H. cbn [orb] in H. exact H.
    + cbv beta iota zeta.
      set (cs := _ || _ || _ || _ || bool_decide (_ > DGMAX)).
      pose proof (CVNlsNewton_loop_spec passes fuel do_sensi_sim cs
                    convfail ls s Hmax Hfuel Hc Hp) as H.
      rewrite Hnn in H. exact H.
  - remember (s <| cv_crate := ONE |> <| cv_crateS := ONE |>) as cv_mem0 eqn:E0.
    assert (W0 : nls_written cv_mem0 s = cv_mem0) by (rewrite E0; mem_eq s).
    assert (F0 : cv_maxcor cv_mem0 = cv_maxcor s
                 /\ cv_setupNonNull cv_mem0 = cv_setupNonNull s
                 /\ cv_nsetups cv_mem0 = cv_nsetups s
                 /\ cv_gamrat cv_mem0 = cv_gamrat s
                 /\ cv_gammap cv_mem0 = cv_gammap s
                 /\ cv_nstlp cv_mem0 = cv_nstlp s
                 /\ cv_forceSetup cv_mem0 = cv_forceSetup s)
      by (rewrite E0; repeat split).
    clear E0.
    destruct F0 as (F1 & F2 & F3 & F4 & F5 & F6 & F7).
    destruct (CVNlsNewton_loop_spec passes fuel do_sensi_sim false convfail
                ls cv_mem0)
      as (flag & ls' & s' & retried & E & W & A & An & Hr & Hf);
      [lia | lia | exact Hc | exact Hp |].
    exists flag, ls', s', retried. split; [exact E|].
    split; [exact (nls_written_trans _ _ _ W0 W)|].
    assert (retried = false) as ->.
    { destruct retried; [|reflexivity]. rewrite F2, Hnn in Hr.
      discriminate (Hr eq_refl). }
    cbn [orb] in *. unfold setup_state in *.
    rewrite F4, F5, F6, F7 in A. rewrite F3 in An.
    split; [exact A|]. split; [exact An|]. split; [discriminate | exact Hf].
Qed.

(** Without a setup routine a pass never asks for another one. *)
Lemma CVNlsNewton_no_setup passes fuel ls s nflag :
  (1 <= cv_maxcor s)%Z -> (Z.to_nat (cv_maxcor s) <= fuel)%nat ->
  (1 <= passes)%nat -> cv_setupNonNull s = false ->
  exists flag ls' s',
    CVNlsNewton f fS fS1 LS lsetup lsolve passes fuel ls s nflag
    = Some (flag, ls', s')
    /\ nls_written s' s = s'
    /\ after_setup false s s'
    /\ (flag = SOLVED \/ flag = CONV_FAIL \/ flag = SOLVE_FAIL_UNREC).
Proof.
  intros Hmax Hfuel Hp Hnn. cbv beta delta [CVNlsNewton].
  let_goal. let_goal. rewrite Hnn. cbv beta iota zeta.
  remember (s <| cv_crate := ONE |> <| cv_crateS := ONE |>) as cv_mem0 eqn:E0.
  assert (W0 : nls_written cv_mem0 s = cv_mem0) by (rewrite E0; mem_eq s).
  assert (F0 : cv_maxcor cv_mem0 = cv_maxcor s
               /\ cv_setupNonNull cv_mem0 = cv_setupNonNull s
               /\ cv_nsetups cv_mem0 = cv_nsetups s
               /\ cv_gamrat cv_mem0 = cv_gamrat s
               /\ cv_gammap cv_mem0 = cv_gammap s
               /\ cv_nstlp cv_mem0 = cv_nstlp s
               /\ cv_forceSetup cv_mem0 = cv_forceSetup s)
    by (rewrite E0; repeat split).
  clear E0.
  destruct F0 as (F1 & F2 & F3 & F4 & F5 & F6 & F7).
  destruct passes as [|passes]; [lia|]. cbn [CVNlsNewton_loop].
  destruct (CVNlsNewton_pass_final fuel do_sensi_sim false convfail ls cv_mem0)
    as (flag & ls' & s' & E & W & [An A] & Hf); [lia | lia | left; congruence |].
  rewrite E. exists flag, ls', s'. split; [reflexivity|].
  split; [exact (nls_written_trans _ _ _ W0 W)|].
  unfold after_setup, setup_state in *. rewrite F4, F5, F6, F7 in A.
  rewrite F3 in An. split; [exact (conj An A)|].
  destruct Hf as [?|[?|[?|[_ ?]]]]; auto. discriminate.
Qed.

(** A pass without a call of [lsetup] does not depend on the setup
    routine. *)
Lemma CVNlsNewton_pass_no_call lsetup' fuel sim cf ls s :
  CVNlsNewton_pass f fS fS1 LS lsetup lsolve fuel sim false cf ls s
  = CVNlsNewton_pass f fS fS1 LS lsetup' lsolve fuel sim false cf ls s.
Proof.
  cbv beta iota delta [CVNlsNewton_pass newton_setup]. reflexivity.
Qed.
End NewtonSolver.

(** X8. With [maxcor >= 1] and a setup routine that reports current
    Jacobian data when it is called for out-of-date data
    ([convfail = FAIL_BAD_J]), [CVNlsNewton] returns after at most two
    attempts at the Newton iteration: the flag is SOLVED, CONV_FAIL,
    SOLVE_FAIL_UNREC or SETUP_FAIL_UNREC (TRY_AGAIN does not leave the
    routine), [lsetup] has been called at most twice, and the Nordsieck
    arrays [zn], [znQ], [znS], the step size [h], the order [q] and the
    time [tn] are as before. *)
Theorem CVNlsNewton_returns f fS fS1 LS lsetup lsolve passes fuel (ls : LS)
    cv_mem nflag :
  (1 <= cv_maxcor cv_mem)%Z -> (Z.to_nat (cv_maxcor cv_mem) <= fuel)%nat ->
  (2 <= passes)%nat ->
  (forall ls0 s0 y0 f0, snd (fst (lsetup ls0 s0 FAIL_BAD_J y0 f0)) = true) ->
  exists flag ls' cv_mem',
    CVNlsNewton f fS fS1 LS lsetup lsolve passes fuel ls cv_mem nflag
    = Some (flag, ls', cv_mem')
    /\ (flag = SOLVED \/ flag = CONV_FAIL \/ flag = SOLVE_FAIL_UNREC
        \/ flag = SETUP_FAIL_UNREC)
    /\ (cv_nsetups cv_mem <= cv_nsetups cv_mem' <= cv_nsetups cv_mem + 2)%Z
    /\ history_kept cv_mem cv_mem'.
Proof.
  intros Hmax Hfuel Hp Hc.
  destruct (CVNlsNewton_spec f fS fS1 LS lsetup lsolve passes fuel ls cv_mem
              nflag Hmax Hfuel Hc Hp)
    as (flag & ls' & s' & retried & E & W & A & An & Hr & Hf).
  exists flag, ls', s'. split; [exact E|]. split; [tauto|].
  split; [|exact (nls_written_history _ _ W)].
  destruct (newton_callSetup cv_mem nflag), retried; lia.
Qed.

Lemma CVNlsNewton_returns_witness :
  exists flag ls' cv_mem',
    CVNlsNewton f_example fS_example fS1_example unit lsetup_example
      lsolve_example 2 3 tt
      ((sim_example BDF NEWTON) <| cv_setupNonNull := true |>) FIRST_CALL
    = Some (flag, ls', cv_mem')
    /\ (flag = SOLVED \/ flag = CONV_FAIL \/ flag = SOLVE_FAIL_UNREC
        \/ flag = SETUP_FAIL_UNREC).
Proof.
  destruct (CVNlsNewton_returns f_example fS_example fS1_example unit
              lsetup_example lsolve_example 2 3 tt
              ((sim_example BDF NEWTON) <| cv_setupNonNull := true |>)
              FIRST_CALL)
    as (flag & ls' & s' & E & Hf & _).
  - cbn. lia.
  - cbn. lia.
  - lia.
  - reflexivity.
  - exists flag, ls', s'. exact (conj E Hf).
Defined.

(** X9. Under the same assumptions: [lsetup] is called before the first
    Newton iteration exactly when a setup routine exists and
    [forceSetup] is set, or the previous attempt failed
    ([nflag] is PREV_CONV_FAIL or PREV_ERR_FAIL), or [nst = 0], or
    [nst >= nstlp + MSBP], or [|gamrat - 1| > DGMAX]; it is called once
    more only after TRY_AGAIN.  After any call [gamrat = 1],
    [gammap = gamma], [nstlp = nst] and [forceSetup] is cleared; without a
    call these members are unchanged. *)
Theorem CVNlsNewton_setup_decision f fS fS1 LS lsetup lsolve passes fuel
    (ls : LS) cv_mem nflag :
  (1 <= cv_maxcor cv_mem)%Z -> (Z.to_nat (cv_maxcor cv_mem) <= fuel)%nat ->
  (2 <= passes)%nat ->
  (forall ls0 s0 y0 f0, snd (fst (lsetup ls0 s0 FAIL_BAD_J y0 f0)) = true) ->
  exists flag ls' cv_mem',
    CVNlsNewton f fS fS1 LS lsetup lsolve passes fuel ls cv_mem nflag
    = Some (flag, ls', cv_mem')
    /\ (newton_callSetup cv_mem nflag = true ->
        (1 <= cv_nsetups cv_mem' - cv_nsetups cv_mem)%Z)
    /\ (cv_nsetups cv_mem' = cv_nsetups cv_mem ->
        newton_callSetup cv_mem nflag = false
        /\ setup_state false cv_mem cv_mem')
    /\ (cv_nsetups cv_mem' <> cv_nsetups cv_mem ->
        cv_setupNonNull cv_mem = true /\ setup_state true cv_mem cv_mem')
    /\ (flag = SETUP_FAIL_UNREC -> cv_nsetups cv_mem' <> cv_nsetups cv_mem).
Proof.
  intros Hmax Hfuel Hp Hc.
  destruct (CVNlsNewton_spec f fS fS1 LS lsetup lsolve passes fuel ls cv_mem
              nflag Hmax Hfuel Hc Hp)
    as (flag & ls' & s' & retried & E & W & A & An & Hr & Hf).
  exists flag, ls', s'. split; [exact E|].
  assert (Hcs : newton_callSetup cv_mem nflag = true ->
                cv_setupNonNull cv_mem = true).
  { unfold newton_callSetup. destruct (cv_setupNonNull cv_mem); auto. }
  destruct (newton_callSetup cv_mem nflag), retried; cbn [orb] in *.
  - split; [lia|]. split; [lia|]. split; [auto|]. intros _. lia.
  - split; [lia|]. split; [lia|]. split; [auto|]. intros _. lia.
  - split; [discriminate|]. split; [lia|]. split; [auto|]. intros _. lia.
  - split; [discriminate|]. split; [auto|]. split; [lia|].
    intros ->. destruct Hf as [H|[H|[H|[_ H]]]]; discriminate H.
Qed.

Lemma CVNlsNewton_setup_decision_witness :
  exists flag ls' cv_mem',
    CVNlsNewton f_example fS_example fS1_example unit lsetup_example
      lsolve_example 2 3 tt
      ((created_memory BDF NEWTON) <| cv_setupNonNull := true |>) FIRST_CALL
    = Some (flag, ls', cv_mem')
    /\ (1 <= cv_nsetups cv_mem'
             - cv_nsetups ((created_memory BDF NEWTON)
                             <| cv_setupNonNull := true |>))%Z.
Proof.
  destruct (CVNlsNewton_setup_decision f_example fS_example fS1_example unit
              lsetup_example lsolve_example 2 3 tt
              ((created_memory BDF NEWTON) <| cv_setupNonNull := true |>)
              FIRST_CALL)
    as (flag & ls' & s' & E & H1 & _).
  - cbn. lia.
  - cbn. lia.
  - lia.
  - reflexivity.
  - exists flag, ls', s'. split; [exact E|]. apply H1. reflexivity.
Defined.

(** X10. Without a setup routine ([setupNonNull] false) [CVNlsNewton]
    makes one attempt at the Newton iteration and never calls [lsetup]:
    the result is the same for every setup routine, [nsetups], [gamrat],
    [gammap], [nstlp] and [forceSetup] are unchanged, and the flag is
    SOLVED, CONV_FAIL or SOLVE_FAIL_UNREC. *)
Theorem CVNlsNewton_without_setup f fS fS1 LS lsetup lsetup' lsolve
    passes fuel (ls : LS) cv_mem nflag :
  (1 <= cv_maxcor cv_mem)%Z -> (Z.to_nat (cv_maxcor cv_mem) <= fuel)%nat ->
  (1 <= passes)%nat -> cv_setupNonNull cv_mem = false ->
  exists flag ls' cv_mem',
    CVNlsNewton f fS fS1 LS lsetup lsolve passes fuel ls cv_mem nflag
    = Some (flag, ls', cv_mem')
    /\ CVNlsNewton f fS fS1 LS lsetup' lsolve passes fuel ls cv_mem nflag
       = Some (flag, ls', cv_mem')
    /\ (flag = SOLVED \/ flag = CONV_FAIL \/ flag = SOLVE_FAIL_UNREC)
    /\ after_setup false cv_mem cv_mem'
    /\ nls_written cv_mem' cv_mem = cv_mem'.
Proof.
  intros Hmax Hfuel Hp Hnn.
  destruct (CVNlsNewton_no_setup f fS fS1 LS lsetup lsolve passes fuel ls
              cv_mem nflag Hmax Hfuel Hp Hnn)
    as (flag & ls' & s' & E & W & A & Hf).
  exists flag, ls', s'. split; [exact E|]. split; [|tauto].
  rewrite <- E. clear E. destruct passes as [|passes]; [lia|].
  cbv beta delta [CVNlsNewton]. cbv zeta. rewrite Hnn.
  cbn [CVNlsNewton_loop].
  rewrite (CVNlsNewton_pass_no_call f fS fS1 LS lsetup' lsolve lsetup).
  destruct (CVNlsNewton_pass f fS fS1 LS lsetup lsolve _ _ _ _ _ _)
    as [[[[? ?] ?]|[[[? ?] ?] ?]]|] eqn:E; try reflexivity.
  exfalso. revert E.
  match goal with
  | |- CVNlsNewton_pass _ _ _ _ _ _ ?fu ?sim ?cs ?cf ?l ?s0 = _ -> _ =>
      destruct (CVNlsNewton_pass_final f fS fS1 LS lsetup lsolve fu sim cs cf l s0)
        as (fl & l' & s1 & E1 & _); [exact Hmax | exact Hfuel | left; exact Hnn |];
      rewrite E1; discriminate
  end.
Qed.

Lemma CVNlsNewton_without_setup_witness :
  exists flag ls' cv_mem',
    CVNlsNewton f_example fS_example fS1_example unit lsetup_example
      lsolve_example 1 3 tt (created_memory BDF NEWTON) FIRST_CALL
    = Some (flag, ls', cv_mem')
    /\ (flag = SOLVED \/ flag = CONV_FAIL \/ flag = SOLVE_FAIL_UNREC).
Proof.
  destruct (CVNlsNewton_without_setup f_example fS_example fS1_example unit
              lsetup_example lsetup_example lsolve_example 1 3 tt
              (created_memory BDF NEWTON) FIRST_CALL)
    as (flag & ls' & s' & E & _ & Hf & _).
  - cbn. lia.
  - cbn. lia.
  - lia.
  - reflexivity.
  - exists flag, ls', s'. exact (conj E Hf).
Defined.

(** ** The local error test: [CVDoErrorTest] *)

(** [CVRestore] in one equation. *)
Lemma CVRestore_assigns s saved_t :
  CVRestore s saved_t
  = s <| cv_tn := saved_t |>
      <| cv_zn := nord_loops [] vsub (cv_q s) (cv_zn s) |>
      <| cv_znQ := if cv_quad s then nord_loops [] vsub (cv_q s) (cv_znQ s)
                   else cv_znQ s |>
      <| cv_znS := if cv_sensi s
                   then sens_loops vsub (cv_Ns s) (cv_q s) (cv_znS s)
                   else cv_znS s |>.
Proof.
  rewrite CVRestore_members. cbv zeta.
  destruct (cv_quad s), (cv_sensi s); destruct s; reflexivity.
Qed.

(** [CVRescale] multiplies column [j] by [eta^j]. *)
Lemma CVRescale_rescaled s : rescaled_history (cv_eta s) s (CVRescale s).
Proof.
  pose proof (CVRescale_members s) as E. cbv zeta in E.
  set (n := Z.to_nat (cv_q s)) in E.
  unfold rescaled_history. rewrite E.
  cbn [setter set_cv_zn set_cv_znQ set_cv_znS set_cv_h set_cv_hscale
       set_cv_nscon cv_zn cv_znQ cv_znS].
  split; [|split].
  - intros j. unfold vec_at. rewrite rescale_cols_nth.
    destruct (decide (1 <= j <= cv_q s)%Z).
    + rewrite decide_True by lia. reflexivity.
    + rewrite decide_False by lia. reflexivity.
  - intros j. unfold vec_at. destruct (cv_quad s).
    + rewrite rescale_cols_nth.
      destruct (decide (1 <= j <= cv_q s)%Z).
      * rewrite !decide_True by (try split; auto; lia). reflexivity.
      * rewrite decide_False by lia. rewrite decide_False by tauto. reflexivity.
    + rewrite decide_False by (intros [? _]; discriminate). reflexivity.
  - intros j is_ His. unfold sens_at, vec_at. destruct (cv_sensi s).
    + rewrite rescale_rows_nth.
      destruct (decide ((1 <= j <= cv_q s)%Z /\ (is_ < cv_Ns s)%Z)).
      * rewrite !decide_True by (try split; auto; lia). reflexivity.
      * rewrite decide_False by lia. rewrite decide_False by tauto. reflexivity.
    + rewrite decide_False by (intros [? _]; discriminate). reflexivity.
Qed.

(** *** A decrease of the order *)

Lemma decrease_inv_refl s : decrease_inv s s.
Proof.
  split; [destruct s; reflexivity|]. unfold low_columns_kept. auto.
Qed.

Lemma decrease_inv_l s s' v :
  decrease_inv s s' -> decrease_inv s (s' <| cv_l := v |>).
Proof.
  intros [H L]. split; [|exact L].
  rewrite <- H. destruct s, s'; lazy; reflexivity.
Qed.

Lemma decrease_inv_zn s s' j v :
  (2 <= j)%Z -> decrease_inv s s' ->
  decrease_inv s (s' <| cv_zn := vec_set (cv_zn s') j v |>).
Proof.
  intros Hj [H (L1 & L2 & L3)]. split.
  - rewrite <- H. destruct s, s'; lazy; reflexivity.
  - split; [|split; [exact L2 | exact L3]].
    intros i Hi. rewrite <- (L1 i Hi). cbn. unfold vec_at, vec_set.
    rewrite nth_insert_ne by lia. reflexivity.
Qed.

Lemma decrease_inv_znQ s s' j v :
  (2 <= j)%Z -> decrease_inv s s' ->
  decrease_inv s (s' <| cv_znQ := vec_set (cv_znQ s') j v |>).
Proof.
  intros Hj [H (L1 & L2 & L3)]. split.
  - rewrite <- H. destruct s, s'; lazy; reflexivity.
  - split; [exact L1 | split; [|exact L3]].
    intros i Hi. rewrite <- (L2 i Hi). cbn. unfold vec_at, vec_set.
    rewrite nth_insert_ne by lia. reflexivity.
Qed.

Lemma decrease_inv_znS s s' j is_ v :
  (2 <= j)%Z -> decrease_inv s s' ->
  decrease_inv s (s' <| cv_znS := sens_set (cv_znS s') j is_ v |>).
Proof.
  intros Hj [H (L1 & L2 & L3)]. split.
  - rewrite <- H. destruct s, s'; lazy; reflexivity.
  - split; [exact L1 | split; [exact L2|]].
    intros i k Hi. rewrite <- (L3 i k Hi). cbn. unfold sens_at, sens_set.
    rewrite nth_insert_ne by lia. reflexivity.
Qed.

(** A loop that carries a local variable next to the memory. *)
Lemma for_upto_snd_inv {A : Type} (P : CVodeMem -> Prop) a b
    (body : Z -> A * CVodeMem -> A * CVodeMem) st :
  (forall j x s, (a <= j <= b)%Z -> P s -> P (snd (body j (x, s)))) ->
  P (snd st) -> P (snd (for_upto a b body st)).
Proof.
  intros H Hs. unfold for_upto.
  apply (for_up_inv (fun st => P (snd st))); [|exact Hs].
  intros i [x s'] Hi Hs'. apply H; [lia | exact Hs'].
Qed.

Lemma for_upto_inv (P : CVodeMem -> Prop) a b (body : Z -> CVodeMem -> CVodeMem) s :
  (forall j s', (a <= j <= b)%Z -> P s' -> P (body j s')) ->
  P s -> P (for_upto a b body s).
Proof.
  intros H Hs. unfold for_upto. apply for_up_inv; [|exact Hs].
  intros i s' Hi Hs'. apply H; [lia | exact Hs'].
Qed.

Lemma for_downto_inv (P : CVodeMem -> Prop) b a (body : Z -> CVodeMem -> CVodeMem) s :
  (forall j s', (a <= j <= b)%Z -> P s' -> P (body j s')) ->
  P s -> P (for_downto b a body s).
Proof.
  intros H Hs. unfold for_downto. apply for_down_inv; [|exact Hs].
  intros i s' Hi Hs'. apply H; [lia | exact Hs'].
Qed.

(** Name the loop from [a] to [b] that starts in [s]. *)
Ltac name_loop x a b s :=
  match goal with
  | |- context [for_upto a b ?body s] => set (x := for_upto a b body s)
  end.

(** The adjustment of the three history arrays shared by
    [CVAdjustAdams] and [CVDecreaseBDF]. *)
Lemma decrease_columns s s1 :
  decrease_inv s s1 ->
  decrease_inv s
    (let cv_mem :=
       for_upto 2 (cv_q s1 - 1) (fun j s =>
         s <| cv_zn := vec_set (cv_zn s) j
                (N_VLinearSum (- real_at (cv_l s) j) (vec_at (cv_zn s) (cv_q s))
                              ONE (vec_at (cv_zn s) j)) |>) s1 in
     let cv_mem :=
       if cv_quad cv_mem then
         for_upto 2 (cv_q cv_mem - 1) (fun j s =>
           s <| cv_znQ := vec_set (cv_znQ s) j
                  (N_VLinearSum (- real_at (cv_l s) j) (vec_at (cv_znQ s) (cv_q s))
                                ONE (vec_at (cv_znQ s) j)) |>) cv_mem
       else cv_mem in
     if cv_sensi cv_mem then
       for_upto 0 (cv_Ns cv_mem - 1) (fun is_ =>
         for_upto 2 (cv_q cv_mem - 1) (fun j s =>
           s <| cv_znS := sens_set (cv_znS s) j is_
                  (N_VLinearSum (- real_at (cv_l s) j)
                                (sens_at (cv_znS s) (cv_q s) is_)
                                ONE (sens_at (cv_znS s) j is_)) |>)) cv_mem
     else cv_mem).
Proof.
  intros H1. cbv zeta.
  name_loop s2 2%Z (cv_q s1 - 1)%Z s1.
  assert (H2 : decrease_inv s s2).
  { apply for_upto_inv; [|exact H1].
    intros j s' Hj Hs'. apply decrease_inv_zn; [lia | exact Hs']. }
  clearbody s2.
  set (s3 := if cv_quad s2 then _ else s2).
  assert (H3 : decrease_inv s s3).
  { unfold s3. destruct (cv_quad s2); [|exact H2].
    apply for_upto_inv; [|exact H2].
    intros j s' Hj Hs'. apply decrease_inv_znQ; [lia | exact Hs']. }
  clearbody s3.
  destruct (cv_sensi s3); [|exact H3].
  apply for_upto_inv; [|exact H3].
  intros i s' _ Hs'. apply for_upto_inv; [|exact Hs'].
  intros j s'' Hj Hs''. apply decrease_inv_znS; [lia | exact Hs''].
Qed.

Lemma CVAdjustAdams_decrease s : decrease_inv s (CVAdjustAdams s (-1)).
Proof.
  unfold CVAdjustAdams. change (-1 =? 1)%Z with false. cbv iota. cbv zeta.
  name_loop s1 0%Z (cv_qmax s) s.
  assert (H1 : decrease_inv s s1).
  { apply for_upto_inv; [|apply decrease_inv_refl].
    intros j s' _ Hs'. apply decrease_inv_l, Hs'. }
  clearbody s1.
  set (s2 := s1 <| cv_l := _ |>).
  assert (H2 : decrease_inv s s2) by apply decrease_inv_l, H1.
  clearbody s2.
  name_loop st 1%Z (cv_q s2 - 2)%Z (ZERO, s2).
  assert (H3 : decrease_inv s (snd st)).
  { apply for_upto_snd_inv; [|exact H2].
    intros j x s' _ Hs'. cbn [snd].
    apply for_downto_inv; [|exact Hs'].
    intros i s'' _ Hs''. apply decrease_inv_l, Hs''. }
  clearbody st. destruct st as [hsum s3]. cbn [snd] in H3.
  name_loop s4 1%Z (cv_q s3 - 2)%Z s3.
  assert (H4 : decrease_inv s s4).
  { apply for_upto_inv; [|exact H3].
    intros j s' _ Hs'. apply decrease_inv_l, Hs'. }
  clearbody s4.
  exact (decrease_columns s s4 H4).
Qed.

Lemma CVDecreaseBDF_decrease s : decrease_inv s (CVDecreaseBDF s).
Proof.
  unfold CVDecreaseBDF. cbv zeta.
  name_loop s1 0%Z (cv_qmax s) s.
  assert (H1 : decrease_inv s s1).
  { apply for_upto_inv; [|apply decrease_inv_refl].
    intros j s' _ Hs'. apply decrease_inv_l, Hs'. }
  clearbody s1.
  set (s2 := s1 <| cv_l := _ |>).
  assert (H2 : decrease_inv s s2) by apply decrease_inv_l, H1.
  clearbody s2.
  name_loop st 1%Z (cv_q s2 - 2)%Z (ZERO, s2).
  assert (H3 : decrease_inv s (snd st)).
  { apply for_upto_snd_inv; [|exact H2].
    intros j x s' _ Hs'. cbn [snd].
    apply for_downto_inv; [|exact Hs'].
    intros i s'' _ Hs''. apply decrease_inv_l, Hs''. }
  clearbody st. destruct st as [hsum s3]. cbn [snd] in H3.
  exact (decrease_columns s s3 H3).
Qed.

Lemma CVAdjustOrder_decrease s : decrease_inv s (CVAdjustOrder s (-1)).
Proof.
  unfold CVAdjustOrder.
  destruct ((cv_q s =? 2)%Z && negb (-1 =? 1)%Z); [apply decrease_inv_refl|].
  destruct (cv_lmm s).
  - apply CVAdjustAdams_decrease.
  - unfold CVAdjustBDF. change (-1 =? 1)%Z with false.
    change (-1 =? -1)%Z with true. cbv iota. apply CVDecreaseBDF_decrease.
Qed.

(** *** The restart at order 1 *)

Lemma restart_tail_spec f fQ fS fS1 s :
  let t := restart_tail f fQ fS fS1 s in
  restart_kept s t
  /\ cv_nfe t = (cv_nfe s + 1)%Z
  /\ cv_zn t = vec_set (cv_zn s) 1
                 (N_VScale (cv_h s) (f (cv_tn s) (vec_at (cv_zn s) 0))).
Proof.
  cbv zeta. unfold restart_tail. cbv zeta.
  set (s3 := s <| cv_tempv := _ |> <| cv_nfe := _ |> <| cv_zn := _ |>).
  set (P := fun t : CVodeMem =>
              restart_kept s t
              /\ cv_nfe t = (cv_nfe s + 1)%Z
              /\ cv_zn t = vec_set (cv_zn s) 1
                             (N_VScale (cv_h s) (f (cv_tn s) (vec_at (cv_zn s) 0)))).
  match goal with |- _ /\ _ /\ cv_zn ?x = _ => change (P x) end.
  assert (H3 : P s3).
  { unfold P, restart_kept, s3. repeat split; reflexivity. }
  clearbody s3.
  set (s4 := if cv_quad s3 then _ else s3).
  assert (H4 : P s4).
  { unfold s4. destruct (cv_quad s3); [|exact H3].
    destruct H3 as ((A1 & A2 & A3 & A4 & A5 & A6 & A7 & A8 & A9 & A10 & A11)
                    & B & C).
    unfold P, restart_kept.
    cbn [setter set_cv_tempvQ set_cv_nfQe set_cv_znQ cv_tn cv_netf cv_eta
         cv_etamax cv_q cv_h cv_hscale cv_qwait cv_nscon cv_znQ cv_znS cv_nfe
         cv_zn].
    split; [|split; assumption].
    repeat (split; [assumption|]). split; [|assumption].
    rewrite <- A10. unfold vec_at, vec_set. rewrite nth_insert_ne by lia.
    reflexivity. }
  clearbody s4.
  destruct (cv_sensi s4); [|exact H4].
  pose proof (CVSensRhs_sens_rest fS fS1 s4 (cv_tn s4) (vec_at (cv_zn s4) 0)
                (cv_tempv s4) (nth 0 (cv_znS s4) []) (cv_tempvS s4)) as HS.
  destruct (CVSensRhs fS fS1 s4 (cv_tn s4) (vec_at (cv_zn s4) 0)
              (cv_tempv s4) (nth 0 (cv_znS s4) []) (cv_tempvS s4))
    as [fScur s5].
  cbn [snd] in HS. apply sens_work_intro in HS.
  set (a := cv_tempvS s5) in HS. set (b := cv_yS s5) in HS.
  set (c := cv_acorS s5) in HS. set (d := cv_ftempS s5) in HS.
  set (n := cv_nfSe s5) in HS. clearbody a b c d n. subst s5.
  set (s6 := (with_sens_work s4 a b c d n) <| cv_tempvS := fScur |>).
  assert (H6 : P s6).
  { destruct H4 as ((A1 & A2 & A3 & A4 & A5 & A6 & A7 & A8 & A9 & A10 & A11)
                    & B & C).
    unfold P, restart_kept, s6, with_sens_work. repeat split; assumption. }
  assert (E6 : cv_Ns s6 = cv_Ns s4) by reflexivity.
  clearbody s6.
  apply for_upto_inv; [|exact H6].
  intros i s' _ ((A1 & A2 & A3 & A4 & A5 & A6 & A7 & A8 & A9 & A10 & A11)
                 & B & C).
  unfold P, restart_kept.
  cbn [setter set_cv_znS cv_tn cv_netf cv_eta
       cv_etamax cv_q cv_h cv_hscale cv_qwait cv_nscon cv_znQ cv_znS cv_nfe
       cv_zn].
  split; [|split; assumption].
  repeat (split; [assumption|]).
  intros k. rewrite <- A11. unfold sens_at, sens_set.
  rewrite nth_insert_ne by lia. reflexivity.
Qed.

(** The history [r] rescaled from [s] depends on [s] through the arrays,
    the order and the flags only. *)
Lemma rescaled_history_ext eta s s' r :
  cv_zn s' = cv_zn s -> cv_znQ s' = cv_znQ s -> cv_znS s' = cv_znS s ->
  cv_q s' = cv_q s -> cv_quad s' = cv_quad s -> cv_sensi s' = cv_sensi s ->
  cv_Ns s' = cv_Ns s ->
  rescaled_history eta s r -> rescaled_history eta s' r.
Proof.
  intros E1 E2 E3 E4 E5 E6 E7. unfold rescaled_history.
  rewrite E1, E2, E3, E4, E5, E6, E7. exact (fun H => H).
Qed.

(** The members [CVRescale] writes and leaves. *)
Lemma CVRescale_scalars s :
  let r := CVRescale s in
  cv_tn r = cv_tn s /\ cv_netf r = cv_netf s /\ cv_eta r = cv_eta s
  /\ cv_etamax r = cv_etamax s /\ cv_q r = cv_q s /\ cv_L r = cv_L s
  /\ cv_qwait r = cv_qwait s
  /\ cv_h r = cv_hscale s * cv_eta s /\ cv_hscale r = cv_hscale s * cv_eta s
  /\ cv_nscon r = 0%Z.
Proof.
  cbv zeta. rewrite CVRescale_members. cbv zeta. repeat split; reflexivity.
Qed.

(** The first column after a rescaling. *)
Lemma rescaled_history_first eta s r :
  rescaled_history eta s r ->
  vec_at (cv_zn r) 0 = vec_at (cv_zn s) 0
  /\ vec_at (cv_znQ r) 0 = vec_at (cv_znQ s) 0
  /\ forall is_, sens_at (cv_znS r) 0 is_ = sens_at (cv_znS s) 0 is_.
Proof.
  intros (H1 & H2 & H3). split; [|split].
  - rewrite H1. rewrite decide_False by lia. reflexivity.
  - rewrite H2. rewrite decide_False by lia. reflexivity.
  - intros i. destruct (Z.le_gt_cases 0 i) as [Hi|Hi].
    + rewrite H3 by exact Hi. rewrite decide_False by lia. reflexivity.
    + unfold sens_at, vec_at.
      replace (Z.to_nat i) with (Z.to_nat 0) by lia.
      specialize (H3 0%Z 0%Z ltac:(lia)). rewrite decide_False in H3 by lia.
      exact H3.
Qed.



(** The error test of [errtest_example] fails with [dsm = 4]; no test of
    the step size or of the number of failures stops it before the
    seventh failure. *)
Lemma errtest_example_fails :
  cv_acnrm errtest_example / real_at (cv_tq errtest_example) 2 > 1.
Proof. change (4 / 1 > 1). lra. Qed.

Lemma errtest_example_soft nef :
  (nef + 1 <> 7)%Z ->
  ~ ((nef + 1)%Z = cv_maxnef errtest_example
     \/ Rabs (cv_h errtest_example) <= cv_hmin errtest_example * ONEPSM).
Proof.
  intros Hn [H|H].
  - apply Hn. exact H.
  - change (Rabs 1 <= 0 * ONEPSM) in H. rewrite Rabs_R1 in H. lra.
Qed.

